(** * Snake on an 8x8 LED matrix: the game engine and the two input drivers

    A shallow embedding of [v2.ino] (tilt-sensor sketch and joystick sketch).
    The engine [SnakeGame] is the same in both sketches; the sketches differ
    in the input class ([InputICM20948] against [InputJoystick]).

    Conventions.
    - Machine integers are [Z] with their wrap-around written out
      ([int8_t], [uint8_t], 16-bit [int], 32-bit [unsigned long]).
    - The hardware is a record [Hw]: the future outputs of the pseudo-random
      generator and the log of what was sent to the LED matrix and buzzer.
      Engine methods run in the monad [M]; [None] stands for a call that has
      not returned on the generator outputs supplied ([spawnApple] loops
      until it draws a free cell).
    - [float] is IEEE 754 binary32 with round-to-nearest-even, taken from the
      Standard Library's [SpecFloat] (precision 24, infinities at exponent
      128); every operation of an expression rounds to binary32.
    - The pixels of the matrix are a list of packed colours (module
      [LedMatrix]); [display] replays the log of [Hw] on them. *)

From Stdlib Require Import ZArith Bool List Lia.
From Stdlib Require Import SpecFloat.
From stdpp Require Import base list.
Import ListNotations.

Local Open Scope Z_scope.

(** ** Machine integers *)

Definition wrap_unsigned (bits : Z) (v : Z) : Z := v mod 2 ^ bits.

Definition wrap_signed (bits : Z) (v : Z) : Z :=
  (v + 2 ^ (bits - 1)) mod 2 ^ bits - 2 ^ (bits - 1).

Definition int8 : Z -> Z := wrap_signed 8.
Definition uint8 : Z -> Z := wrap_unsigned 8.
Definition int16 : Z -> Z := wrap_signed 16.
Definition uint32 : Z -> Z := wrap_unsigned 32.

(** ** CONFIG *)

Definition W : Z := 8.
Definition H : Z := 8.
Definition NUM_LEDS : Z := W * H.

(** ** TYPES *)

Record Point : Type := mkPoint { px : Z; py : Z }.

Inductive Dir : Type := UP | DOWN | LEFT | RIGHT.

Definition Dir_eqb (a b : Dir) : bool :=
  match a, b with
  | UP, UP | DOWN, DOWN | LEFT, LEFT | RIGHT, RIGHT => true
  | _, _ => false
  end.

(** ** Hardware: pseudo-random generator, LED matrix, buzzer *)

Inductive Event : Type :=
  | DrawGameOverCross                              (* matrix.drawGameOverCross() *)
  | DrawFrame (apple : Point) (body : list Point)  (* SnakeGame::draw() *)
  | EatApple                                       (* sfx.eatApple() *)
  | GameOverTune.                                  (* sfx.gameOver() *)

Record Hw : Type := mkHw {
  rng : list Z;      (* outputs the generator will give, oldest first *)
  log : list Event   (* effects performed so far, oldest first *)
}.

(** Arduino's [random(howsmall, howbig)] on the raw generator output [raw]. *)
Definition random (howsmall howbig raw : Z) : Z :=
  if howsmall >=? howbig then howsmall
  else raw mod (howbig - howsmall) + howsmall.

(** [millis()] when [t] milliseconds have passed since power-up: the
    counter is an [unsigned long] and wraps. *)
Definition millis (t : Z) : Z := uint32 t.

Definition M (A : Type) : Type := Hw -> option (A * Hw).

Definition ret {A} (a : A) : M A := fun h => Some (a, h).

Definition bind {A B} (c : M A) (k : A -> M B) : M B :=
  fun h => match c h with
           | Some (a, h') => k a h'
           | None => None
           end.

Definition emit (e : Event) : M unit :=
  fun h => Some (tt, mkHw (rng h) (log h ++ [e])).

Notation "x <~ c1 ;; c2" := (bind c1 (fun x => c2))
  (at level 100, c1 at next level, right associativity).
Notation "c1 ;;; c2" := (bind c1 (fun _ => c2))
  (at level 100, right associativity).

(** ** SNAKE GAME *)

Record SnakeGame : Type := mkGame {
  snake : list Point;     (* Point snake[NUM_LEDS] *)
  len : Z;                (* uint8_t *)
  apple : Point;
  dir : Dir;
  pending : Dir;
  gameOverFlag : bool;
  lastStep : Z;           (* unsigned long *)
  stepMs : Z              (* unsigned long *)
}.

Definition set_snake (s : list Point) (g : SnakeGame) : SnakeGame :=
  mkGame s (len g) (apple g) (dir g) (pending g) (gameOverFlag g) (lastStep g) (stepMs g).
Definition set_len (n : Z) (g : SnakeGame) : SnakeGame :=
  mkGame (snake g) n (apple g) (dir g) (pending g) (gameOverFlag g) (lastStep g) (stepMs g).
Definition set_apple (p : Point) (g : SnakeGame) : SnakeGame :=
  mkGame (snake g) (len g) p (dir g) (pending g) (gameOverFlag g) (lastStep g) (stepMs g).
Definition set_dir (d : Dir) (g : SnakeGame) : SnakeGame :=
  mkGame (snake g) (len g) (apple g) d (pending g) (gameOverFlag g) (lastStep g) (stepMs g).
Definition set_pending (d : Dir) (g : SnakeGame) : SnakeGame :=
  mkGame (snake g) (len g) (apple g) (dir g) d (gameOverFlag g) (lastStep g) (stepMs g).
Definition set_gameOverFlag (b : bool) (g : SnakeGame) : SnakeGame :=
  mkGame (snake g) (len g) (apple g) (dir g) (pending g) b (lastStep g) (stepMs g).
Definition set_lastStep (t : Z) (g : SnakeGame) : SnakeGame :=
  mkGame (snake g) (len g) (apple g) (dir g) (pending g) (gameOverFlag g) t (stepMs g).
Definition set_stepMs (t : Z) (g : SnakeGame) : SnakeGame :=
  mkGame (snake g) (len g) (apple g) (dir g) (pending g) (gameOverFlag g) (lastStep g) t.

(** The object as the global constructor leaves it: static storage is
    zeroed, then the default member initialisers run. *)
Definition origin : Point := mkPoint 0 0.

Definition game0 : SnakeGame :=
  mkGame (replicate (Z.to_nat NUM_LEDS) origin) 3 origin RIGHT RIGHT false 0 300.

(** [snake[i]]; a read past the array does not occur in the runs
    considered and is given the value [origin]. *)
Definition cell (s : list Point) (i : nat) : Point := default origin (s !! i).

(** The cells in use, head first: [snake[0 .. len-1]]. *)
Definition body (g : SnakeGame) : list Point := take (Z.to_nat (len g)) (snake g).

Definition opposite (a b : Dir) : bool :=
  match a, b with
  | UP, DOWN | DOWN, UP | LEFT, RIGHT | RIGHT, LEFT => true
  | _, _ => false
  end.

Definition at_xy (x y : Z) (p : Point) : bool := (px p =? x) && (py p =? y).

Definition snakeHas (g : SnakeGame) (x y : Z) : bool :=
  existsb (at_xy x y) (take (Z.to_nat (len g)) (snake g)).

Definition snakeHasExceptTail (g : SnakeGame) (x y : Z) : bool :=
  if len g =? 0 then false
  else existsb (at_xy x y) (take (Z.to_nat (len g - 1)) (snake g)).

(** The retry loop of [spawnApple] on the generator outputs [rs]: two
    outputs per round, the first cell that is not on the snake is taken. *)
Fixpoint spawnLoop (g : SnakeGame) (rs : list Z) : option (Point * list Z) :=
  match rs with
  | rx :: ry :: rs' =>
      let ax := random 0 W rx in
      let ay := random 0 H ry in
      if snakeHas g ax ay then spawnLoop g rs'
      else Some (mkPoint (int8 ax) (int8 ay), rs')
  | _ => None
  end.

Definition spawnApple (g : SnakeGame) : M SnakeGame :=
  fun h => match spawnLoop g (rng h) with
           | Some (p, rs') => Some (set_apple p g, mkHw rs' (log h))
           | None => None
           end.

Definition draw (g : SnakeGame) : M unit :=
  emit (DrawFrame (apple g) (body g)).

Definition triggerGameOver (g : SnakeGame) : M SnakeGame :=
  emit DrawGameOverCross ;;; emit GameOverTune ;;; ret (set_gameOverFlag true g).

Definition reset (t : Z) (g : SnakeGame) : M SnakeGame :=
  let g := set_gameOverFlag false g in
  let g := set_dir RIGHT g in
  let g := set_pending RIGHT g in
  let g := set_stepMs 300 g in
  let g := set_lastStep (millis t) g in
  let g := set_len 3 g in
  let g := set_snake (<[0%nat := mkPoint 3 4]> (snake g)) g in
  let g := set_snake (<[1%nat := mkPoint 2 4]> (snake g)) g in
  let g := set_snake (<[2%nat := mkPoint 1 4]> (snake g)) g in
  g <~ spawnApple g ;;
  draw g ;;;
  ret g.

Definition setPending (d : Dir) (g : SnakeGame) : SnakeGame := set_pending d g.
Definition getDir (g : SnakeGame) : Dir := dir g.
Definition isGameOver (g : SnakeGame) : bool := gameOverFlag g.

(** Heading resolution, first line of [step]. *)
Definition heading (g : SnakeGame) : Dir :=
  if opposite (dir g) (pending g) then dir g else pending g.

(** The [switch] of [step] on a copy of the head. *)
Definition advance (d : Dir) (p : Point) : Point :=
  match d with
  | UP => mkPoint (px p) (int8 (py p - 1))
  | DOWN => mkPoint (px p) (int8 (py p + 1))
  | LEFT => mkPoint (int8 (px p - 1)) (py p)
  | RIGHT => mkPoint (int8 (px p + 1)) (py p)
  end.

Definition nextCell (g : SnakeGame) : Point := advance (heading g) (cell (snake g) 0).

Definition outside (p : Point) : bool :=
  (px p <? 0) || (px p >=? W) || (py p <? 0) || (py p >=? H).

Definition ate (g : SnakeGame) : bool :=
  (px (nextCell g) =? px (apple g)) && (py (nextCell g) =? py (apple g)).

(** The self-collision test that [step] applies to the next cell. *)
Definition blocked (g : SnakeGame) : bool :=
  if ate g then snakeHas g (px (nextCell g)) (py (nextCell g))
  else snakeHasExceptTail g (px (nextCell g)) (py (nextCell g)).

(** [for (int i = n; i > 0; i--) snake[i] = snake[i - 1];] *)
Fixpoint shiftLoop (n : nat) (s : list Point) : list Point :=
  match n with
  | O => s
  | S j => shiftLoop j (<[S j := cell s j]> s)
  end.

(** [if (!opposite(dir, pending)) dir = pending;] *)
Definition turned (g : SnakeGame) : SnakeGame := set_dir (heading g) g.

(** Growth, shift and new head: the game between the collision tests and
    the apple handling of [step]. *)
Definition moved (g : SnakeGame) : SnakeGame :=
  let g1 := turned g in
  let g2 := if ate g && (len g1 <? NUM_LEDS)
            then set_len (uint8 (len g1 + 1)) g1 else g1 in
  let g3 := set_snake (shiftLoop (Z.to_nat (len g2 - 1)) (snake g2)) g2 in
  set_snake (<[0%nat := nextCell g]> (snake g3)) g3.

(** [if (stepMs > 90) stepMs -= 12;] *)
Definition speedUp (g : SnakeGame) : SnakeGame :=
  if stepMs g >? 90 then set_stepMs (uint32 (stepMs g - 12)) g else g.

Definition step (g : SnakeGame) : M SnakeGame :=
  if outside (nextCell g) then triggerGameOver (turned g)
  else if blocked g then triggerGameOver (turned g)
  else if ate g then
    emit EatApple ;;;
    g' <~ spawnApple (moved g) ;;
    ret (speedUp g')
  else ret (moved g).

Definition update (t : Z) (g : SnakeGame) : M SnakeGame :=
  if gameOverFlag g then
    emit DrawGameOverCross ;;; ret g
  else
    let now := millis t in
    g' <~ (if uint32 (now - lastStep g) >=? stepMs g
           then step (set_lastStep now g)
           else ret g) ;;
    draw g' ;;;
    ret g'.

(** ** The states a run can reach

    [begin()] calls [reset()] on the freshly constructed object; afterwards
    the sketch calls [reset()], [setPending()] and [update()] in any
    order. A call that does not return reaches nothing. *)
Inductive reachable : SnakeGame -> Prop :=
  | reach_begin t h g h' :
      reset t game0 h = Some (g, h') -> reachable g
  | reach_reset t h g g' h' :
      reachable g -> reset t g h = Some (g', h') -> reachable g'
  | reach_setPending d g :
      reachable g -> reachable (setPending d g)
  | reach_update t h g g' h' :
      reachable g -> update t g h = Some (g', h') -> reachable g'.

(** One turn of [loop()] with the input driver's answer [d] at time [t]. *)
Definition turn (d : Dir) (t : Z) (g : SnakeGame) : M SnakeGame :=
  update t (setPending d g).

(** Turns for the headings [ds], one every 300 ms starting at [t]. *)
Fixpoint play (ds : list Dir) (t : Z) (g : SnakeGame) : M SnakeGame :=
  match ds with
  | [] => ret g
  | d :: ds' => g' <~ turn d t g ;; play ds' (t + 300) g'
  end.

(** A tour of the whole grid from the start position: the 61 cells that
    the fresh snake does not cover, each next to the one before. *)
Definition tour : list Dir :=
  repeat RIGHT 4 ++ repeat DOWN 3 ++ repeat LEFT 7 ++ [UP] ++
  repeat RIGHT 6 ++ [UP] ++ repeat LEFT 6 ++ [UP; UP] ++
  repeat RIGHT 7 ++ [UP] ++ repeat LEFT 7 ++ [UP] ++
  repeat RIGHT 7 ++ [UP] ++ repeat LEFT 7.

Fixpoint cellsAlong (p : Point) (ds : list Dir) : list Point :=
  match ds with
  | [] => []
  | d :: ds' => advance d p :: cellsAlong (advance d p) ds'
  end.

(** Generator outputs that put every apple on the next cell of the tour. *)
Definition tourDraws (ds : list Dir) : list Z :=
  flat_map (fun p => [px p; py p]) (cellsAlong (mkPoint 3 4) ds).

(** The game after [begin()] at power-up and the first [n] turns of the
    tour, with the generator outputs [tourDraws]. *)
Definition tourRun (n : nat) : option (SnakeGame * Hw) :=
  (g <~ reset 0 game0 ;; play (take n tour) 300 g) (mkHw (tourDraws tour) []).

(** ** INPUT JOYSTICK (second sketch) *)

Definition DEADZONE : Z := 180.

(** Arduino's [abs] macro at type [int]: [((x)>0?(x):-(x))]. *)
Definition abs_int (x : Z) : Z := if x >? 0 then x else int16 (- x).

(** [InputJoystick::read]: [rawX], [rawY] are the two [analogRead] results,
    [btnLow] says whether the button pin reads LOW; the result is the
    returned click flag and the value left in [pendingDir]. *)
Definition read (rawX rawY : Z) (btnLow : bool) (currentDir pendingDir : Dir)
  : bool * Dir :=
  let x := int16 (rawX - 512) in
  let y := int16 (rawY - 512) in
  let pendingDir :=
    if abs_int x >? abs_int y then
      if x >? DEADZONE then RIGHT
      else if x <? - DEADZONE then LEFT
      else pendingDir
    else
      if y >? DEADZONE then DOWN
      else if y <? - DEADZONE then UP
      else pendingDir in
  (btnLow, pendingDir).

(** The direction the joystick sketch's [loop()] hands to [setPending]:
    [pending] starts as [game.getDir()]. *)
Definition joystickDir (rawX rawY : Z) (btnLow : bool) (current : Dir) : Dir :=
  snd (read rawX rawY btnLow current current).

(** ** INPUT ICM-20948 (first sketch) *)

Abbreviation float := spec_float.

Definition f32_add : float -> float -> float := SFadd 24 128.
Definition f32_sub : float -> float -> float := SFsub 24 128.
Definition f32_mul : float -> float -> float := SFmul 24 128.
Definition f32_div : float -> float -> float := SFdiv 24 128.
Definition f32_lt (x y : float) : bool := SFltb x y.
Definition fabs : float -> float := SFabs.
Definition f32_of_Z (n : Z) : float := binary_normalize 24 128 n 0 false.

(** The literals of the sketch as binary32 values. *)
Definition DEAD_G : float := S754_finite false 10737418 (-27).   (* 0.08f *)
Definition TRIG_G : float := S754_finite false 12079596 (-26).   (* 0.18f *)
Definition lit_0_80 : float := S754_finite false 13421773 (-24). (* 0.80f *)
Definition lit_0_20 : float := S754_finite false 13421773 (-26). (* 0.20f *)
Definition lit_1000 : float := S754_finite false 16384000 (-14). (* 1000.0f *)
Definition lit_0 : float := S754_zero false.                     (* 0.0f *)

Record InputICM20948 : Type := mkIMU {
  ax0 : float; ay0 : float;   (* offset repos *)
  fx : float; fy : float      (* filtres *)
}.

Definition imu0 : InputICM20948 := mkIMU lit_0 lit_0 lit_0 lit_0.

(** [f = f * 0.80f + d * 0.20f] *)
Definition smooth (f d : float) : float :=
  f32_add (f32_mul f lit_0_80) (f32_mul d lit_0_20).

(** The part of [readDir] after the filter update, on the new [fx], [fy]. *)
Definition pick (fx fy : float) (current : Dir) : Dir :=
  if f32_lt (fabs fx) DEAD_G && f32_lt (fabs fy) DEAD_G then current
  else if f32_lt (fabs fy) (fabs fx) then
    if f32_lt TRIG_G fx && negb (Dir_eqb current LEFT) then RIGHT
    else if f32_lt fx (SFopp TRIG_G) && negb (Dir_eqb current RIGHT) then LEFT
    else current
  else
    if f32_lt TRIG_G fy && negb (Dir_eqb current UP) then DOWN
    else if f32_lt fy (SFopp TRIG_G) && negb (Dir_eqb current DOWN) then UP
    else current.

(** The deltas [dx], [dy] of a sample ([accX], [accY] in milli-g). *)
Definition delta (acc off : float) : float := f32_sub (f32_div acc lit_1000) off.

(** [InputICM20948::readDir] on the sample [accX], [accY]. *)
Definition readDir (accX accY : float) (current : Dir) (s : InputICM20948)
  : Dir * InputICM20948 :=
  let dx := delta accX (ax0 s) in
  let dy := delta accY (ay0 s) in
  let s' := mkIMU (ax0 s) (ay0 s) (smooth (fx s) dx) (smooth (fy s) dy) in
  (pick (fx s') (fy s') current, s').

(** [InputICM20948::calibrateZero] on the [N = 50] samples it reads. *)
Definition calibrateZero (samples : list (float * float)) (s : InputICM20948)
  : InputICM20948 :=
  let N := 50 in
  let '(sx, sy) :=
    fold_left (fun '(sx, sy) '(accX, accY) =>
                 (f32_add sx (f32_div accX lit_1000),
                  f32_add sy (f32_div accY lit_1000)))
              (take (Z.to_nat N) samples) (lit_0, lit_0) in
  mkIMU (f32_div sx (f32_of_Z N)) (f32_div sy (f32_of_Z N)) (fx s) (fy s).

(** [InputICM20948::begin]: [ok] says whether the sensor answered. *)
Definition beginIMU (ok : bool) (samples : list (float * float))
  (s : InputICM20948) : bool * InputICM20948 :=
  if ok then (true, calibrateZero samples s) else (false, s).

(** [readDir] called once per sample of [samples], each time with the
    heading [current]: the direction returned and the driver's state after
    each call. *)
Fixpoint readTrace (samples : list (float * float)) (current : Dir)
  (s : InputICM20948) : list (Dir * InputICM20948) :=
  match samples with
  | [] => []
  | (accX, accY) :: rest =>
      let '(d, s') := readDir accX accY current s in
      (d, s') :: readTrace rest current s'
  end.

(** ** Vocabulary for binary32 arithmetic

    Values are measured in units of 2^-149, the smallest positive binary32
    number: every finite binary32 number is an integer number of units. *)

(** [m / 2^n] rounded to the nearest integer, ties to even. *)
Definition rne (m n : Z) : Z :=
  let q := m / 2 ^ n in
  let r := m mod 2 ^ n in
  match 2 * r ?= 2 ^ n with
  | Lt => q
  | Eq => if Z.even q then q else q + 1
  | Gt => q + 1
  end.

(** Number of bits of [v > 0]. *)
Definition bitlen (v : Z) : Z := Z.log2 v + 1.

(** The binary32 number nearest to [v * 2^-(149+k)], in units of 2^-149:
    24 significant bits, nothing finer than one unit. *)
Definition roundUlps (k v : Z) : Z :=
  let n := Z.max (bitlen v - 24) k in
  rne v n * 2 ^ (n - k).

(** [mrs] is [X] shifted right by [j] bits, with its round and sticky bits. *)
Definition shifted (X j : Z) (mrs : shr_record) : Prop :=
  shr_m mrs = X / 2 ^ j /\
  ((shr_r mrs = false /\ shr_s mrs = false /\ X mod 2 ^ j = 0) \/
   (shr_r mrs = false /\ shr_s mrs = true /\ 0 < 2 * (X mod 2 ^ j) < 2 ^ j) \/
   (shr_r mrs = true /\ shr_s mrs = false /\ 2 * (X mod 2 ^ j) = 2 ^ j) \/
   (shr_r mrs = true /\ shr_s mrs = true /\ 2 ^ j < 2 * (X mod 2 ^ j))).

(** The value of a finite number in units of 2^-149. *)
Definition ulps (x : float) : Z :=
  match x with
  | S754_finite s m e => cond_Zopp s (Zpos m * 2 ^ (e + 149))
  | _ => 0
  end.

Definition is_finite (x : float) : bool :=
  match x with
  | S754_finite _ _ _ | S754_zero _ => true
  | _ => false
  end.

(** A well-formed binary32 datum that is a number. *)
Definition proper (x : float) : Prop :=
  valid_binary 24 128 x = true /\ is_finite x = true.

(** Both smoothed values are inside the dead zone. *)
Definition inDeadZone (s : InputICM20948) : bool :=
  f32_lt (fabs (fx s)) DEAD_G && f32_lt (fabs (fy s)) DEAD_G.

(** A delta that is a well-formed binary32 datum of magnitude below
    [DEAD_G]. *)
Definition calm (d : float) : Prop :=
  valid_binary 24 128 d = true /\ f32_lt (fabs d) DEAD_G = true.

(** A sample whose deltas against the offsets [ox], [oy] are both calm. *)
Definition quiet (ox oy : float) (sample : float * float) : Prop :=
  calm (delta (fst sample) ox) /\ calm (delta (snd sample) oy).

(** A sample made of two well-formed binary32 data. *)
Definition validSample (sample : float * float) : Prop :=
  valid_binary 24 128 (fst sample) = true /\
  valid_binary 24 128 (snd sample) = true.

(** A sample whose deltas against the offsets [ox], [oy] are below
    [DEAD_G] in magnitude. *)
Definition belowDeadZone (ox oy : float) (sample : float * float) : Prop :=
  f32_lt (fabs (delta (fst sample) ox)) DEAD_G = true /\
  f32_lt (fabs (delta (snd sample) oy)) DEAD_G = true.

(** In units of 2^-149: the largest binary32 number below [DEAD_G], and the
    bound that the smoothed values keep (four steps below [DEAD_G]). *)
Definition belowDead : Z := 10737417 * 2 ^ 122.
Definition filterBound : Z := 10737414 * 2 ^ 122.

(** The filter state is a well-formed number within [filterBound]. *)
Definition settled (f : float) : Prop :=
  proper f /\ Z.abs (ulps f) <= filterBound.

(** ** Vocabulary of the statements *)

Definition inGrid (p : Point) : Prop := 0 <= px p < W /\ 0 <= py p < H.

(** What holds of the snake in every reachable state. *)
Record wf (g : SnakeGame) : Prop := mk_wf {
  wf_array : length (snake g) = Z.to_nat NUM_LEDS;
  wf_len : 3 <= len g <= NUM_LEDS;
  wf_grid : Forall inGrid (body g);
  wf_distinct : NoDup (body g)
}.

(** The hardware after [triggerGameOver]: cross drawn, tune played. *)
Definition gameOverHw (h : Hw) : Hw :=
  mkHw (rng h) ((log h ++ [DrawGameOverCross]) ++ [GameOverTune]).

(** The game after [begin()] at power-up when the generator puts the first
    apple on (4,4), right in front of the head. *)
Definition gameStart : SnakeGame :=
  mkGame ([mkPoint 3 4; mkPoint 2 4; mkPoint 1 4] ++ replicate 61 origin)
         3 (mkPoint 4 4) RIGHT RIGHT false 0 300.

(** The hardware after [update] in GAME_OVER: the cross is drawn again. *)
Definition crossHw (h : Hw) : Hw := mkHw (rng h) (log h ++ [DrawGameOverCross]).

(** [g] and [g'] agree on everything but the pending direction. *)
Definition sameButPending (g g' : SnakeGame) : Prop :=
  snake g' = snake g /\ len g' = len g /\ apple g' = apple g /\
  dir g' = dir g /\ gameOverFlag g' = gameOverFlag g /\
  lastStep g' = lastStep g /\ stepMs g' = stepMs g.

(** Whether the snake lies on every cell of the grid. *)
Definition covered (g : SnakeGame) : bool :=
  forallb (fun x => forallb (fun y => snakeHas g x y) (seqZ 0 H)) (seqZ 0 W).

(** The 64 cells of the grid. *)
Definition allCells : list Point :=
  flat_map (fun x => map (fun y => mkPoint x y) (seqZ 0 H)) (seqZ 0 W).

#[global] Instance Point_eq_dec : EqDecision Point.
Proof. solve_decision. Defined.

(** Positivity of a power of two with a non-negative exponent. *)
Ltac pow2_pos := apply Z.pow_pos_nonneg; lia.

(** ** Vocabulary of the further properties *)

(** Two cells next to each other along a row or a column. *)
Definition adjacent (p q : Point) : Prop :=
  Z.abs (px p - px q) + Z.abs (py p - py q) = 1.

(** Every cell of the list is next to its successor. *)
Fixpoint chain (l : list Point) : Prop :=
  match l with
  | p :: ((q :: _) as tl) => adjacent p q /\ chain tl
  | _ => True
  end.

(** The apple is on the grid and not under the snake. *)
Definition appleFree (g : SnakeGame) : Prop :=
  inGrid (apple g) /\ ~ In (apple g) (body g).

(** Whether [update] at time [t] finds the step interval elapsed. *)
Definition due (t : Z) (g : SnakeGame) : bool :=
  uint32 (millis t - lastStep g) >=? stepMs g.

(** What one [update] sends to the matrix and the buzzer, told from the
    game before ([g]) and after ([g']). *)
Definition updateEvents (g g' : SnakeGame) : list Event :=
  if gameOverFlag g then [DrawGameOverCross]
  else (if gameOverFlag g' then [DrawGameOverCross; GameOverTune]
        else if len g' =? len g + 1 then [EatApple]
        else []) ++ [DrawFrame (apple g') (body g')].

(** ** LED MATRIX

    [Adafruit_NeoPixel] is a library outside the sketch. Its pixel buffer
    is taken as the list of the packed colours last passed to
    [setPixelColor], one per LED (the dimming by [setBrightness] is left
    out): [clear] zeroes it, [setPixelColor] ignores an index past the end,
    and [Color] packs the three bytes as 0x00RRGGBB. Every drawing method
    of the sketch ends with [show], so the buffer is what the LEDs show. *)
Module LedMatrix.

Definition uint16 : Z -> Z := wrap_unsigned 16.

(** [strip.Color(r, g, b)] *)
Definition Color (r g b : Z) : Z :=
  Z.lor (Z.lor (Z.shiftl (uint8 r) 16) (Z.shiftl (uint8 g) 8)) (uint8 b).

Definition clear (strip : list Z) : list Z := replicate (length strip) 0.

(** [(uint16_t)y * W + x] *)
Definition xyToIndex (x y : Z) : Z := uint16 (uint16 y * W + x).

(** The arguments arrive as [uint8_t]; a pixel off the matrix is skipped. *)
Definition setXY (x y r g b : Z) (strip : list Z) : list Z :=
  let x := uint8 x in
  let y := uint8 y in
  if (x >=? W) || (y >=? H) then strip
  else <[Z.to_nat (xyToIndex x y) := Color r g b]> strip.

(** [n] rounds of the loop of [drawGameOverCross] from index [i] on. *)
Fixpoint crossLoop (n : nat) (i : Z) (strip : list Z) : list Z :=
  match n with
  | O => strip
  | S n' =>
      let strip := setXY i i 255 0 0 strip in
      let strip := setXY (7 - i) i 255 0 0 strip in
      crossLoop n' (uint8 (i + 1)) strip
  end.

Definition drawGameOverCross (strip : list Z) : list Z :=
  crossLoop 8 0 (clear strip).

(** The loop of [SnakeGame::draw] over the cells in use, from index [i]. *)
Fixpoint drawSnake (i : Z) (cells : list Point) (strip : list Z) : list Z :=
  match cells with
  | [] => strip
  | p :: rest =>
      drawSnake (uint8 (i + 1)) rest
        (if i =? 0 then setXY (px p) (py p) 220 220 220 strip
         else setXY (px p) (py p) 0 0 180 strip)
  end.

(** The pixels after [SnakeGame::draw] with the apple at [a] and the
    cells in use [cells]. *)
Definition frame (a : Point) (cells : list Point) (strip : list Z) : list Z :=
  drawSnake 0 cells (setXY (px a) (py a) 0 180 0 (clear strip)).

Definition draw (g : SnakeGame) (strip : list Z) : list Z :=
  frame (apple g) (body g) strip.

(** The colour of the LED of the cell [p]. *)
Definition pixel (strip : list Z) (p : Point) : option Z :=
  strip !! Z.to_nat (xyToIndex (px p) (py p)).

Definition red : Z := Color 255 0 0.
Definition green : Z := Color 0 180 0.
Definition white : Z := Color 220 220 220.
Definition blue : Z := Color 0 0 180.

(** Whether every LED of the grid is red on the two diagonals and dark
    elsewhere. *)
Definition isCross (strip : list Z) : bool :=
  forallb (fun p => bool_decide
             (pixel strip p =
                Some (if (px p =? py p) || (px p + py p =? 7) then red else 0)))
          allCells.

End LedMatrix.

(** What an effect does to the pixels: the two drawing calls repaint them,
    the buzzer leaves them alone. *)
Definition paint (e : Event) (strip : list Z) : list Z :=
  match e with
  | DrawGameOverCross => LedMatrix.drawGameOverCross strip
  | DrawFrame a cells => LedMatrix.frame a cells strip
  | EatApple | GameOverTune => strip
  end.

(** The pixels after the effects [es], oldest first. *)
Definition display (es : list Event) (strip : list Z) : list Z :=
  fold_left (fun st e => paint e st) es strip.

(** ** The two [loop()] functions

    [tReset] is the time at which [reset()] reads [millis()], when it is
    called, and [tUpdate] the time at which [update()] does. *)

(** [loop()] of the tilt sketch: [btnLow] says whether the reset button
    reads LOW, [accX], [accY] is the sample that [readDir] gets. *)
Definition loopTilt (btnLow : bool) (accX accY : float) (tReset tUpdate : Z)
  (gs : SnakeGame * InputICM20948) : M (SnakeGame * InputICM20948) :=
  let '(g, s) := gs in
  g <~ (if btnLow then reset tReset g else ret g) ;;
  let '(pending, s') := readDir accX accY (getDir g) s in
  let g := setPending pending g in
  g <~ update tUpdate g ;;
  ret (g, s').

(** [loop()] of the joystick sketch. *)
Definition loopJoystick (rawX rawY : Z) (btnLow : bool) (tReset tUpdate : Z)
  (g : SnakeGame) : M SnakeGame :=
  let pending := getDir g in
  let '(clicked, pending) := read rawX rawY btnLow (getDir g) pending in
  let g := setPending pending g in
  g <~ (if clicked then reset tReset g else ret g) ;;
  update tUpdate g.

(** ** Vocabulary for the trigger threshold *)

(** [TRIG_G] in units of 2^-149. *)
Definition trigBound : Z := 12079596 * 2 ^ 123.

(** A number of magnitude at most [TRIG_G]. *)
Definition gentle (d : float) : Prop :=
  valid_binary 24 128 d = true /\ SFleb (fabs d) TRIG_G = true.

(** A sample whose deltas against the offsets [ox], [oy] are at most
    [TRIG_G] in magnitude. *)
Definition withinTrigger (ox oy : float) (sample : float * float) : Prop :=
  SFleb (fabs (delta (fst sample) ox)) TRIG_G = true /\
  SFleb (fabs (delta (snd sample) oy)) TRIG_G = true.

(** The filter value is a well-formed number within [trigBound]. *)
Definition steady (f : float) : Prop :=
  proper f /\ Z.abs (ulps f) <= trigBound.

(** Neither smoothed value is beyond [TRIG_G]. *)
Definition noTrigger (s : InputICM20948) : bool :=
  negb (f32_lt TRIG_G (fx s)) && negb (f32_lt (fx s) (SFopp TRIG_G)) &&
  negb (f32_lt TRIG_G (fy s)) && negb (f32_lt (fy s) (SFopp TRIG_G)).

(** ** The two sketches as runs

    [setup()] followed by calls of [loop()], one per element of [turns];
    an element holds what the call reads: the button, the sample or the
    stick, and the two clock readings. *)

(** [setup()] of the tilt sketch: [ok] says whether the sensor answered,
    [cal] are the samples that calibration reads. *)
Definition setupTilt (ok : bool) (cal : list (float * float)) (t0 : Z)
  : M (SnakeGame * InputICM20948) :=
  let '(started, s) := beginIMU ok cal imu0 in
  (if negb started then emit DrawGameOverCross else ret tt) ;;;
  g <~ reset t0 game0 ;;
  ret (g, s).

Fixpoint runTilt (turns : list (bool * float * float * Z * Z))
  (gs : SnakeGame * InputICM20948) : M (SnakeGame * InputICM20948) :=
  match turns with
  | [] => ret gs
  | (btnLow, accX, accY, tReset, tUpdate) :: rest =>
      gs' <~ loopTilt btnLow accX accY tReset tUpdate gs ;;
      runTilt rest gs'
  end.

(** [setup()] of the joystick sketch. *)
Definition setupJoystick (t0 : Z) : M SnakeGame := reset t0 game0.

Fixpoint runJoystick (turns : list (Z * Z * bool * Z * Z)) (g : SnakeGame)
  : M SnakeGame :=
  match turns with
  | [] => ret g
  | (rawX, rawY, btnLow, tReset, tUpdate) :: rest =>
      g' <~ loopJoystick rawX rawY btnLow tReset tUpdate g ;;
      runJoystick rest g'
  end.

(** * Properties of the engine *)

(** ** The monad *)

Lemma bind_Some {A B} (c : M A) (k : A -> M B) h b h2 :
  bind c k h = Some (b, h2) ->
  exists a h1, c h = Some (a, h1) /\ k a h1 = Some (b, h2).
Proof.
  unfold bind. destruct (c h) as [[a h1]|] eqn:E; [|discriminate].
  intros Hk. exists a, h1. split; [reflexivity|exact Hk].
Qed.

Lemma spawnApple_Some g h g' h' :
  spawnApple g h = Some (g', h') -> exists p, g' = set_apple p g.
Proof.
  unfold spawnApple. destruct (spawnLoop g (rng h)) as [[p rs]|]; [|discriminate].
  intros [= <- <-]. exists p. reflexivity.
Qed.

(** ** The array shift *)

Lemma shiftLoop_length n s : length (shiftLoop n s) = length s.
Proof.
  revert s. induction n as [|j IH]; intros s; simpl; [reflexivity|].
  rewrite IH. apply length_insert.
Qed.

Lemma shiftLoop_lookup n s k :
  (n < length s)%nat ->
  shiftLoop n s !! k =
    match k with
    | O => s !! O
    | S k' => if decide (k <= n)%nat then s !! k' else s !! k
    end.
Proof.
  revert s k. induction n as [|j IH]; intros s k Hn; simpl.
  - destruct k as [|k']; [reflexivity|].
    destruct (decide (S k' <= 0)%nat); [lia|reflexivity].
  - rewrite IH by (rewrite length_insert; lia).
    destruct k as [|k'].
    + rewrite list_lookup_insert_ne by lia. reflexivity.
    + destruct (decide (S k' <= j)%nat) as [Hle|Hgt].
      * destruct (decide (S k' <= S j)%nat); [|lia].
        rewrite list_lookup_insert_ne by lia. reflexivity.
      * destruct (decide (S k' <= S j)%nat) as [Hle'|Hgt'].
        -- assert (k' = j) as -> by lia.
           rewrite list_lookup_insert_eq by lia.
           unfold cell. destruct (s !! j) as [p|] eqn:E; [reflexivity|].
           apply lookup_ge_None in E. lia.
        -- rewrite list_lookup_insert_ne by lia. reflexivity.
Qed.

(** After the shift and the store of the new head, the first [n + 1] cells
    are the new head followed by the old first [n] cells. *)
Lemma shifted_take n s p :
  (n < length s)%nat ->
  take (S n) (<[0%nat := p]> (shiftLoop n s)) = p :: take n s.
Proof.
  intros Hn. apply list_eq. intros k.
  destruct (decide (k < S n)%nat) as [Hk|Hk].
  - rewrite lookup_take_lt by lia.
    destruct k as [|k'].
    + rewrite list_lookup_insert_eq by (rewrite shiftLoop_length; lia). reflexivity.
    + rewrite list_lookup_insert_ne by lia.
      rewrite shiftLoop_lookup by lia.
      destruct (decide (S k' <= n)%nat); [|lia].
      simpl. rewrite lookup_take_lt by lia. reflexivity.
  - rewrite lookup_take_ge by lia.
    symmetry. apply lookup_ge_None. simpl. rewrite length_take. lia.
Qed.

(** ** Membership tests *)

Lemma at_xy_true x y p : at_xy x y p = true <-> p = mkPoint x y.
Proof.
  unfold at_xy. destruct p as [a b]. simpl.
  rewrite andb_true_iff, !Z.eqb_eq. split.
  - intros [-> ->]. reflexivity.
  - intros [= -> ->]. split; reflexivity.
Qed.

Lemma existsb_at_xy p l : existsb (at_xy (px p) (py p)) l = true <-> In p l.
Proof.
  rewrite existsb_exists. split.
  - intros [q [Hin Hq]]. apply at_xy_true in Hq. subst q.
    destruct p; exact Hin.
  - intros Hin. exists p. split; [exact Hin|]. apply at_xy_true.
    destruct p; reflexivity.
Qed.

Lemma snakeHas_In g p : snakeHas g (px p) (py p) = true <-> In p (body g).
Proof. unfold snakeHas, body. apply existsb_at_xy. Qed.

Lemma snakeHasExceptTail_In g p :
  snakeHasExceptTail g (px p) (py p) = true <->
  In p (take (Z.to_nat (len g - 1)) (snake g)).
Proof.
  unfold snakeHasExceptTail. destruct (len g =? 0) eqn:E.
  - apply Z.eqb_eq in E. rewrite E.
    replace (Z.to_nat (0 - 1)) with 0%nat by lia. rewrite take_0. simpl.
    split; [discriminate|tauto].
  - apply existsb_at_xy.
Qed.

(** The cells tested by [snakeHasExceptTail] are the body without its last
    cell. *)
Lemma take_pred_removelast g :
  (Z.to_nat (len g) <= length (snake g))%nat ->
  take (Z.to_nat (len g - 1)) (snake g) = removelast (body g).
Proof.
  unfold body.
  destruct (Z.to_nat (len g)) as [|n] eqn:E; intros Hlen.
  - replace (Z.to_nat (len g - 1)) with 0%nat by lia. rewrite !take_0. reflexivity.
  - replace (Z.to_nat (len g - 1)) with n by lia.
    rewrite <- (take_drop n (take (S n) (snake g))) at 1.
    rewrite take_take. replace (n `min` S n)%nat with n by lia.
    destruct (drop n (take (S n) (snake g))) as [|q [|q' l]] eqn:D.
    + apply (f_equal length) in D. rewrite length_drop, length_take in D. cbn [length] in D. lia.
    + rewrite removelast_last. reflexivity.
    + apply (f_equal length) in D. rewrite length_drop, length_take in D. cbn [length] in D. lia.
Qed.

(** ** The body after a move *)

Lemma outside_false p : outside p = false -> inGrid p.
Proof.
  unfold outside, inGrid, W, H. rewrite !orb_false_iff.
  intros [[[A B] C] D]. lia.
Qed.

Lemma len_moved g :
  3 <= len g <= NUM_LEDS ->
  len (moved g) = if ate g && (len g <? NUM_LEDS) then len g + 1 else len g.
Proof.
  intros Hlen. unfold moved, turned. simpl.
  destruct (ate g && (len g <? NUM_LEDS)) eqn:E; simpl; [|reflexivity].
  apply andb_true_iff in E. destruct E as [_ E]. apply Z.ltb_lt in E.
  unfold uint8, wrap_unsigned, NUM_LEDS, W, H in *. simpl in *. rewrite Z.mod_small; lia.
Qed.

Lemma snake_length_moved g : length (snake (moved g)) = length (snake g).
Proof.
  unfold moved, turned. simpl. rewrite length_insert, shiftLoop_length.
  destruct (ate g && (len g <? NUM_LEDS)); reflexivity.
Qed.

Lemma body_moved g :
  length (snake g) = Z.to_nat NUM_LEDS ->
  3 <= len g <= NUM_LEDS ->
  body (moved g) =
    nextCell g ::
      (if ate g && (len g <? NUM_LEDS) then body g
       else take (Z.to_nat (len g - 1)) (snake g)).
Proof.
  intros Harr Hlen. unfold body at 1. rewrite (len_moved g Hlen).
  unfold moved, turned. simpl.
  destruct (ate g && (len g <? NUM_LEDS)) eqn:E; simpl.
  - apply andb_true_iff in E. destruct E as [_ E]. apply Z.ltb_lt in E.
    assert (uint8 (len g + 1) = len g + 1) as ->.
    { unfold uint8, wrap_unsigned, NUM_LEDS, W, H in *. simpl in *. rewrite Z.mod_small; lia. }
    replace (len g + 1 - 1) with (len g) by lia.
    replace (Z.to_nat (len g + 1)) with (S (Z.to_nat (len g))) by lia.
    apply shifted_take. rewrite Harr. lia.
  - replace (Z.to_nat (len g)) with (S (Z.to_nat (len g - 1))) by lia.
    apply shifted_take. rewrite Harr. lia.
Qed.

Lemma NoDup_take {A} (l : list A) n : NoDup l -> NoDup (take n l).
Proof.
  intros Hl. rewrite <- (take_drop n l) in Hl.
  apply NoDup_app in Hl. tauto.
Qed.

Lemma In_take {A} (x : A) (l : list A) n : In x (take n l) -> In x l.
Proof.
  intros Hin. rewrite <- (take_drop n l). apply in_or_app. left. exact Hin.
Qed.

Lemma wf_moved g :
  wf g -> outside (nextCell g) = false -> blocked g = false -> wf (moved g).
Proof.
  intros [Harr Hlen Hgrid Hdist] Hout Hblk.
  assert (Hpre : take (Z.to_nat (len g - 1)) (snake g)
                 = take (Z.to_nat (len g - 1)) (body g)).
  { unfold body. rewrite take_take. f_equal. lia. }
  constructor.
  - rewrite snake_length_moved. exact Harr.
  - rewrite (len_moved g Hlen).
    destruct (ate g && (len g <? NUM_LEDS)) eqn:E; [|lia].
    apply andb_true_iff in E. destruct E as [_ E]. apply Z.ltb_lt in E. lia.
  - rewrite (body_moved g Harr Hlen). constructor.
    + apply outside_false. exact Hout.
    + destruct (ate g && (len g <? NUM_LEDS)); [exact Hgrid|].
      rewrite Hpre. apply Forall_take. exact Hgrid.
  - rewrite (body_moved g Harr Hlen).
    unfold blocked in Hblk.
    apply NoDup_cons. split.
    + rewrite list_elem_of_In.
      destruct (ate g) eqn:Ha; simpl.
      * assert (Hnot : ~ In (nextCell g) (body g)).
        { intros Hin. apply snakeHas_In in Hin. congruence. }
        destruct (len g <? NUM_LEDS); [exact Hnot|].
        rewrite Hpre. intros Hin. apply Hnot.
        eapply In_take. exact Hin.
      * intros Hin. apply snakeHasExceptTail_In in Hin. congruence.
    + destruct (ate g && (len g <? NUM_LEDS)); [exact Hdist|].
      rewrite Hpre. apply NoDup_take. exact Hdist.
Qed.

(** ** The three ways a step returns *)

Lemma triggerGameOver_eq g h :
  triggerGameOver g h = Some (set_gameOverFlag true g, gameOverHw h).
Proof. reflexivity. Qed.

Lemma step_game_over g h :
  outside (nextCell g) = true \/ blocked g = true ->
  step g h = Some (set_gameOverFlag true (turned g), gameOverHw h).
Proof.
  intros Hc. unfold step.
  destruct (outside (nextCell g)); [apply triggerGameOver_eq|].
  destruct Hc as [Hc|Hc]; [discriminate|]. rewrite Hc. apply triggerGameOver_eq.
Qed.

Lemma step_plain g h :
  outside (nextCell g) = false -> blocked g = false -> ate g = false ->
  step g h = Some (moved g, h).
Proof. intros Ho Hb Ha. unfold step. rewrite Ho, Hb, Ha. reflexivity. Qed.

Lemma step_eat g h :
  outside (nextCell g) = false -> blocked g = false -> ate g = true ->
  step g h =
    match spawnLoop (moved g) (rng h) with
    | Some (p, rs) =>
        Some (speedUp (set_apple p (moved g)), mkHw rs (log h ++ [EatApple]))
    | None => None
    end.
Proof.
  intros Ho Hb Ha. unfold step. rewrite Ho, Hb, Ha.
  unfold bind, emit, spawnApple, ret. simpl.
  destruct (spawnLoop (moved g) (rng h)) as [[p rs]|]; reflexivity.
Qed.

Lemma step_cases g h g' h' :
  step g h = Some (g', h') ->
  ((outside (nextCell g) = true \/ blocked g = true) /\
   g' = set_gameOverFlag true (turned g) /\ h' = gameOverHw h)
  \/ (outside (nextCell g) = false /\ blocked g = false /\ ate g = false /\
      g' = moved g /\ h' = h)
  \/ (outside (nextCell g) = false /\ blocked g = false /\ ate g = true /\
      exists p rs, spawnLoop (moved g) (rng h) = Some (p, rs) /\
                   g' = speedUp (set_apple p (moved g)) /\
                   h' = mkHw rs (log h ++ [EatApple])).
Proof.
  intros Hs.
  destruct (outside (nextCell g)) eqn:Ho.
  { rewrite step_game_over in Hs by (left; exact Ho).
    injection Hs as <- <-. left. split; [left; reflexivity|split; reflexivity]. }
  destruct (blocked g) eqn:Hb.
  { rewrite step_game_over in Hs by (right; exact Hb).
    injection Hs as <- <-. left. split; [right; reflexivity|split; reflexivity]. }
  destruct (ate g) eqn:Ha.
  - rewrite (step_eat g h Ho Hb Ha) in Hs.
    destruct (spawnLoop (moved g) (rng h)) as [[p rs]|] eqn:Hsp; [|discriminate].
    injection Hs as <- <-. right. right. repeat split.
    exists p, rs. repeat split.
  - rewrite (step_plain g h Ho Hb Ha) in Hs. injection Hs as <- <-.
    right. left. repeat split.
Qed.

(** ** The invariant *)

Lemma wf_same_snake g g' :
  snake g' = snake g -> len g' = len g -> wf g -> wf g'.
Proof.
  intros Hs Hl [A B C D]. constructor; unfold body in *; rewrite ?Hs, ?Hl; assumption.
Qed.

Lemma speedUp_snake g : snake (speedUp g) = snake g /\ len (speedUp g) = len g.
Proof. unfold speedUp. destruct (stepMs g >? 90); split; reflexivity. Qed.

Lemma wf_step g h g' h' : wf g -> step g h = Some (g', h') -> wf g'.
Proof.
  intros Hwf Hs. apply step_cases in Hs.
  destruct Hs as [[_ [-> _]]|[[Ho [Hb [_ [-> _]]]]|[Ho [Hb [_ [p [rs [_ [-> _]]]]]]]]].
  - apply (wf_same_snake g); [reflexivity|reflexivity|exact Hwf].
  - apply wf_moved; assumption.
  - apply (wf_same_snake (moved g)).
    + rewrite (proj1 (speedUp_snake _)). reflexivity.
    + rewrite (proj2 (speedUp_snake _)). reflexivity.
    + apply wf_moved; assumption.
Qed.

Lemma wf_update t g h g' h' : wf g -> update t g h = Some (g', h') -> wf g'.
Proof.
  intros Hwf Hu. unfold update in Hu.
  destruct (gameOverFlag g).
  - injection Hu as <- _. exact Hwf.
  - apply bind_Some in Hu. destruct Hu as [g1 [h1 [Hs Hd]]].
    injection Hd as <- _.
    destruct (uint32 (millis t - lastStep g) >=? stepMs g).
    + eapply wf_step; [|exact Hs].
      apply (wf_same_snake g); [reflexivity|reflexivity|exact Hwf].
    + injection Hs as <- _. exact Hwf.
Qed.

Lemma wf_reset t g h g' h' :
  length (snake g) = Z.to_nat NUM_LEDS -> reset t g h = Some (g', h') -> wf g'.
Proof.
  intros Harr Hr. unfold reset in Hr.
  apply bind_Some in Hr. destruct Hr as [g1 [h1 [Hsp Hd]]].
  injection Hd as <- _.
  apply spawnApple_Some in Hsp. destruct Hsp as [p ->].
  destruct (snake g) as [|c0 [|c1 [|c2 rest]]] eqn:E;
    try (simpl in Harr; discriminate Harr).
  constructor; unfold body; simpl; rewrite ?E; simpl.
  - rewrite <- Harr. reflexivity.
  - unfold NUM_LEDS, W, H. simpl. lia.
  - rewrite take_0.
    do 3 (apply List.Forall_cons; [unfold inGrid, W, H; simpl; lia|]).
    apply List.Forall_nil.
  - rewrite take_0, !NoDup_cons, !list_elem_of_In. simpl.
    repeat split; try (intuition discriminate). apply NoDup_nil_2.
Qed.

Lemma wf_setPending d g : wf g -> wf (setPending d g).
Proof. apply wf_same_snake; reflexivity. Qed.

Theorem reachable_wf g : reachable g -> wf g.
Proof.
  induction 1 as [t h g h' Hr | t h g g' h' _ IH Hr | d g _ IH | t h g g' h' _ IH Hu].
  - eapply wf_reset; [|exact Hr]. reflexivity.
  - eapply wf_reset; [|exact Hr]. apply (wf_array g IH).
  - apply wf_setPending. exact IH.
  - eapply wf_update; [exact IH|exact Hu].
Qed.

(** ** Runs *)

Lemma play_reachable ds : forall t g h g' h',
  reachable g -> play ds t g h = Some (g', h') -> reachable g'.
Proof.
  induction ds as [|d ds IH]; intros t g h g' h' Hg Hp; simpl in Hp.
  - injection Hp as <- _. exact Hg.
  - apply bind_Some in Hp. destruct Hp as [g1 [h1 [Ht Hp]]].
    eapply IH; [|exact Hp].
    eapply reach_update; [|exact Ht]. apply reach_setPending. exact Hg.
Qed.

Lemma tourRun_reachable n g h : tourRun n = Some (g, h) -> reachable g.
Proof.
  unfold tourRun. intros Hr.
  apply bind_Some in Hr. destruct Hr as [g1 [h1 [Hreset Hp]]].
  eapply play_reachable; [|exact Hp].
  eapply reach_begin. exact Hreset.
Qed.

Lemma gameStart_reachable : reachable gameStart.
Proof.
  apply (reach_begin 0 (mkHw [4; 4] []) gameStart
           (mkHw [] [DrawFrame (apple gameStart) (body gameStart)])).
  reflexivity.
Qed.


(** ** C5: the snake stays on the grid and never overlaps itself *)

(** C5. In every state reachable through [reset] and simulation steps all
    body cells lie in [0,7]x[0,7] and are pairwise distinct, and the same
    holds right after every completed [step] that [update] runs from such a
    state (so in particular after every step that did not end in
    GAME_OVER). *)
Theorem snake_cells_in_grid_and_distinct g :
  reachable g ->
  Forall inGrid (body g) /\ NoDup (body g) /\
  forall now h g' h',
    step (set_lastStep now g) h = Some (g', h') ->
    Forall inGrid (body g') /\ (gameOverFlag g' = false -> NoDup (body g')).
Proof.
  intros Hg. pose proof (reachable_wf g Hg) as Hwf.
  split; [apply (wf_grid g Hwf)|]. split; [apply (wf_distinct g Hwf)|].
  intros now h g' h' Hs.
  assert (Hwf' : wf g').
  { eapply wf_step; [|exact Hs].
    apply (wf_same_snake g); [reflexivity|reflexivity|exact Hwf]. }
  split; [apply (wf_grid g' Hwf')|]. intros _. apply (wf_distinct g' Hwf').
Qed.

Lemma snake_cells_in_grid_and_distinct_witness :
  reachable gameStart /\
  (Forall inGrid (body gameStart) /\ NoDup (body gameStart) /\
   forall now h g' h',
     step (set_lastStep now gameStart) h = Some (g', h') ->
     Forall inGrid (body g') /\ (gameOverFlag g' = false -> NoDup (body g'))).
Proof.
  split; [exact gameStart_reachable|].
  apply (snake_cells_in_grid_and_distinct gameStart). exact gameStart_reachable.
Defined.

(** ** C4: the tail-exclusion rule *)

Lemma gameOverFlag_moved g : gameOverFlag (moved g) = gameOverFlag g.
Proof.
  unfold moved, turned. destruct (ate g && (len (set_dir (heading g) g) <? NUM_LEDS)); reflexivity.
Qed.

Lemma gameOverFlag_step_no_collision g h g' h' :
  gameOverFlag g = false -> outside (nextCell g) = false -> blocked g = false ->
  step g h = Some (g', h') -> gameOverFlag g' = false.
Proof.
  intros Hrun Ho Hb Hs. apply step_cases in Hs.
  destruct Hs as [[[Hc|Hc] _]|[[_ [_ [_ [-> _]]]]|[_ [_ [_ [p [rs [_ [-> _]]]]]]]]];
    try congruence.
  - rewrite gameOverFlag_moved. exact Hrun.
  - unfold speedUp. destruct (stepMs _ >? 90); cbn [gameOverFlag set_stepMs set_apple];
      rewrite gameOverFlag_moved; exact Hrun.
Qed.



(** ** C6: growth *)




(** ** C7: GAME_OVER is absorbing *)

Lemma sameButPending_refl g : sameButPending g g.
Proof. repeat split. Qed.

Lemma play_game_over ds : forall t g h,
  gameOverFlag g = true ->
  exists g' h', play ds t g h = Some (g', h') /\ sameButPending g g' /\
                rng h' = rng h.
Proof.
  induction ds as [|d ds IH]; intros t g h Hover; simpl.
  - exists g, h. split; [reflexivity|]. split; [apply sameButPending_refl|reflexivity].
  - unfold bind, turn, update, setPending. simpl. rewrite Hover. simpl.
    destruct (IH (t + 300) (set_pending d g) (mkHw (rng h) (log h ++ [DrawGameOverCross])) Hover)
      as [g' [h' [Hp [Hsame Hrng]]]].
    exists g', h'. split; [exact Hp|]. split; [exact Hsame|exact Hrng].
Qed.

(** C7. In GAME_OVER every [update] returns, leaves the whole engine state
    as it was (snake, length, apple, direction, pending direction, interval,
    clock, flag) and the generator untouched, and only redraws the cross;
    [setPending] keeps the engine in GAME_OVER, so any number of loop turns
    leaves it there with the same snake, apple, direction, interval and
    clock; [reset] is what leaves GAME_OVER. *)
Theorem game_over_is_absorbing g :
  gameOverFlag g = true ->
  (forall t h, update t g h = Some (g, crossHw h)) /\
  (forall d, gameOverFlag (setPending d g) = true) /\
  (forall ds t h, exists g' h',
      play ds t g h = Some (g', h') /\ gameOverFlag g' = true /\
      sameButPending g g' /\ rng h' = rng h) /\
  (forall t h g' h', reset t g h = Some (g', h') -> gameOverFlag g' = false).
Proof.
  intros Hover. split; [|split; [|split]].
  - intros t h. unfold update. rewrite Hover. reflexivity.
  - intros d. exact Hover.
  - intros ds t h.
    destruct (play_game_over ds t g h Hover) as [g' [h' [Hp [Hsame Hrng]]]].
    exists g', h'. split; [exact Hp|]. split; [|split; [exact Hsame|exact Hrng]].
    destruct Hsame as [_ [_ [_ [_ [Hf _]]]]]. rewrite Hf. exact Hover.
  - intros t h g' h' Hr. unfold reset in Hr.
    apply bind_Some in Hr. destruct Hr as [g1 [h1 [Hsp Hd]]].
    injection Hd as <- _.
    apply spawnApple_Some in Hsp. destruct Hsp as [p ->]. reflexivity.
Qed.

Lemma game_over_is_absorbing_witness :
  let g := set_gameOverFlag true (turned gameStart) in
  (forall t h, update t g h = Some (g, crossHw h)) /\
  (forall d, gameOverFlag (setPending d g) = true) /\
  (forall ds t h, exists g' h',
      play ds t g h = Some (g', h') /\ gameOverFlag g' = true /\
      sameButPending g g' /\ rng h' = rng h) /\
  (forall t h g' h', reset t g h = Some (g', h') -> gameOverFlag g' = false).
Proof.
  intros g. apply (game_over_is_absorbing g). reflexivity.
Defined.

(** ** C9: the cadence test across a wrap of the millisecond counter *)

Lemma uint32_sub_millis t0 t1 :
  uint32 (millis t1 - millis t0) = (t1 - t0) mod 2 ^ 32.
Proof.
  unfold millis, uint32, wrap_unsigned. symmetry. apply Zminus_mod.
Qed.

(** C9. The difference [now - lastStep] is taken in [unsigned long]: for
    the instants [t0] of the last step and [t1] of the call it is the
    elapsed time modulo 2^32, and it is the elapsed time itself when less
    than 2^32 ms have passed, also when the counter wrapped in between;
    [update] in the RUNNING state then runs a step exactly when the elapsed
    time has reached [stepMs]. *)
Theorem cadence_check_wrap_safe g t0 t1 h :
  gameOverFlag g = false -> lastStep g = millis t0 ->
  0 <= t1 - t0 < 2 ^ 32 ->
  uint32 (millis t1 - lastStep g) = (t1 - t0) mod 2 ^ 32 /\
  uint32 (millis t1 - lastStep g) = t1 - t0 /\
  update t1 g h =
    (g' <~ (if t1 - t0 >=? stepMs g
            then step (set_lastStep (millis t1) g) else ret g) ;;
     draw g' ;;; ret g') h.
Proof.
  intros Hrun Hlast Hel. rewrite Hlast, uint32_sub_millis.
  split; [reflexivity|]. split; [apply Z.mod_small; exact Hel|].
  unfold update. rewrite Hrun, Hlast.
  rewrite uint32_sub_millis, Z.mod_small by exact Hel. reflexivity.
Qed.

(** The counter wraps between the last step (100 ms before the wrap) and
    the call (250 ms after it). *)
Lemma cadence_check_wrap_safe_witness :
  let g := set_lastStep (millis (2 ^ 32 - 100)) gameStart in
  uint32 (millis (2 ^ 32 + 250) - lastStep g) = (2 ^ 32 + 250 - (2 ^ 32 - 100)) mod 2 ^ 32 /\
  uint32 (millis (2 ^ 32 + 250) - lastStep g) = 2 ^ 32 + 250 - (2 ^ 32 - 100) /\
  update (2 ^ 32 + 250) g (mkHw [5; 4] []) =
    (g' <~ (if 2 ^ 32 + 250 - (2 ^ 32 - 100) >=? stepMs g
            then step (set_lastStep (millis (2 ^ 32 + 250)) g) else ret g) ;;
     draw g' ;;; ret g') (mkHw [5; 4] []).
Proof.
  intros g.
  apply (cadence_check_wrap_safe g (2 ^ 32 - 100) (2 ^ 32 + 250) (mkHw [5; 4] [])).
  - reflexivity.
  - reflexivity.
  - lia.
Defined.

(** ** C1: the step interval *)

Lemma stepMs_speedUp g :
  0 <= stepMs g < 2 ^ 32 ->
  stepMs (speedUp g) = if stepMs g >? 90 then stepMs g - 12 else stepMs g.
Proof.
  intros Hr. unfold speedUp. destruct (stepMs g >? 90) eqn:E; [|reflexivity].
  apply Z.gtb_lt in E. simpl. unfold uint32, wrap_unsigned.
  apply Z.mod_small. lia.
Qed.

Lemma stepMs_moved g : stepMs (moved g) = stepMs g.
Proof.
  unfold moved, turned.
  destruct (ate g && (len (set_dir (heading g) g) <? NUM_LEDS)); reflexivity.
Qed.

(** Between two resets the interval never grows, and an eaten apple takes
    12 ms off it as long as it is above 90 ms. *)
Lemma stepMs_step g h g' h' :
  0 <= stepMs g < 2 ^ 32 -> step g h = Some (g', h') ->
  stepMs g' = stepMs g \/ (90 < stepMs g /\ stepMs g' = stepMs g - 12).
Proof.
  intros Hr Hs. apply step_cases in Hs.
  destruct Hs as [[_ [-> _]]|[[_ [_ [_ [-> _]]]]|[_ [_ [_ [p [rs [_ [-> _]]]]]]]]].
  - left. reflexivity.
  - left. apply stepMs_moved.
  - rewrite stepMs_speedUp; cbn [stepMs set_apple]; rewrite stepMs_moved; [|exact Hr].
    destruct (stepMs g >? 90) eqn:E; [right|left; reflexivity].
    apply Z.gtb_lt in E. split; [lia|reflexivity].
Qed.

Lemma stepMs_update t g h g' h' :
  0 <= stepMs g < 2 ^ 32 -> update t g h = Some (g', h') ->
  stepMs g' = stepMs g \/ (90 < stepMs g /\ stepMs g' = stepMs g - 12).
Proof.
  intros Hr Hu. unfold update in Hu. destruct (gameOverFlag g).
  - injection Hu as <- _. left. reflexivity.
  - apply bind_Some in Hu. destruct Hu as [g1 [h1 [Hs Hd]]].
    injection Hd as <- _.
    destruct (uint32 (millis t - lastStep g) >=? stepMs g).
    + apply (stepMs_step (set_lastStep (millis t) g) _ _ _ Hr Hs).
    + injection Hs as <- _. left. reflexivity.
Qed.

Lemma stepMs_reset t g h g' h' : reset t g h = Some (g', h') -> stepMs g' = 300.
Proof.
  intros Hr. unfold reset in Hr.
  apply bind_Some in Hr. destruct Hr as [g1 [h1 [Hsp Hd]]].
  injection Hd as <- _.
  apply spawnApple_Some in Hsp. destruct Hsp as [p ->]. reflexivity.
Qed.

(** The interval is 300 ms less a multiple of 12 ms and stays between 84 ms
    and 300 ms: the lowest value it takes is 84 ms, not 90 ms. *)
Lemma reachable_stepMs g :
  reachable g -> 84 <= stepMs g <= 300 /\ (stepMs g mod 12 = 0).
Proof.
  induction 1 as [t h g h' Hr | t h g g' h' _ IH Hr | d g _ IH | t h g g' h' _ IH Hu].
  - rewrite (stepMs_reset _ _ _ _ _ Hr). split; [lia|reflexivity].
  - rewrite (stepMs_reset _ _ _ _ _ Hr). split; [lia|reflexivity].
  - exact IH.
  - destruct IH as [Hb Hm].
    destruct (stepMs_update t g h g' h' ltac:(lia) Hu) as [->|[Hgt ->]].
    + split; assumption.
    + assert (stepMs g <> 91 /\ stepMs g <> 92 /\ stepMs g <> 93 /\
              stepMs g <> 94 /\ stepMs g <> 95) as Hne.
      { repeat split; intros E; rewrite E in Hm; discriminate Hm. }
      split; [lia|].
      rewrite <- Hm. rewrite <- (Z.mod_add (stepMs g - 12) 1 12) by lia.
      f_equal. lia.
Qed.

(** C1 (the code departs from the claim). Eighteen apples eaten in a row
    from the start position leave a reachable state whose interval is
    84 ms, below the 90 ms floor: at 96 ms the test [stepMs > 90] still
    passes and 12 ms are taken off. *)
Theorem stepMs_falls_below_floor :
  exists g h, tourRun 18 = Some (g, h) /\ reachable g /\
              gameOverFlag g = false /\ len g = 21 /\ stepMs g = 84.
Proof.
  destruct (tourRun 18) as [[g h]|] eqn:E; [|vm_compute in E; discriminate E].
  exists g, h. split; [reflexivity|]. split; [exact (tourRun_reachable 18 g h E)|].
  vm_compute in E. injection E as <- _. repeat split.
Qed.

(** ** C2: apple placement on a full grid *)

Lemma int8_small v : -128 <= v < 128 -> int8 v = v.
Proof.
  intros Hv. unfold int8, wrap_signed.
  change (2 ^ (8 - 1)) with 128. change (2 ^ 8) with 256.
  rewrite Z.mod_small by lia. lia.
Qed.

Lemma random_range raw : 0 <= random 0 8 raw < 8.
Proof.
  unfold random. change (0 >=? 8) with false. cbv iota.
  change (8 - 0) with 8. pose proof (Z.mod_pos_bound raw 8). lia.
Qed.

Lemma covered_snakeHas g x y :
  covered g = true -> 0 <= x < W -> 0 <= y < H -> snakeHas g x y = true.
Proof.
  unfold covered. intros Hc Hx Hy. unfold W, H in *.
  rewrite forallb_forall in Hc.
  assert (Hinx : In x (seqZ 0 8)) by (apply list_elem_of_In, elem_of_seqZ; lia).
  specialize (Hc x Hinx). rewrite forallb_forall in Hc.
  apply Hc. apply list_elem_of_In, elem_of_seqZ. lia.
Qed.

(** On a covered grid the retry loop rejects every draw: it returns on no
    sequence of generator outputs, however long. *)
Lemma spawnLoop_covered g :
  covered g = true -> forall rs, spawnLoop g rs = None.
Proof.
  intros Hc.
  assert (Hboth : forall rs, spawnLoop g rs = None /\ forall r, spawnLoop g (r :: rs) = None).
  { induction rs as [|a rs [IH1 IH2]].
    - split; [reflexivity|intros r; reflexivity].
    - split; [apply IH2|]. intros r. cbn [spawnLoop].
      rewrite (covered_snakeHas g (random 0 W r) (random 0 H a) Hc
                 (random_range r) (random_range a)).
      exact IH1. }
  intros rs. apply Hboth.
Qed.

(** While the snake leaves a cell free, some draw is accepted. *)
Lemma spawnLoop_free g x y rs :
  0 <= x < 8 -> 0 <= y < 8 -> snakeHas g x y = false ->
  spawnLoop g (x :: y :: rs) = Some (mkPoint x y, rs).
Proof.
  intros Hx Hy Hfree. cbn [spawnLoop]. unfold random, W, H.
  change (0 >=? 8) with false. cbv iota. change (8 - 0) with 8.
  rewrite !Z.add_0_r, (Z.mod_small x 8), (Z.mod_small y 8), Hfree by lia.
  rewrite !int8_small by lia. reflexivity.
Qed.

Lemma forallb_false {A} (f : A -> bool) l :
  forallb f l = false -> exists x, In x l /\ f x = false.
Proof.
  induction l as [|a l IH]; simpl; [discriminate|].
  destruct (f a) eqn:Ea; simpl.
  - intros Hl. destruct (IH Hl) as [x [Hin Hx]]. exists x. split; [right; exact Hin|exact Hx].
  - intros _. exists a. split; [left; reflexivity|exact Ea].
Qed.

(** A snake of fewer than 64 distinct cells leaves a grid cell free, and the
    retry loop returns as soon as that cell is drawn. *)
Lemma spawnLoop_can_return g :
  wf g -> len g < NUM_LEDS ->
  exists x y, 0 <= x < 8 /\ 0 <= y < 8 /\ snakeHas g x y = false /\
              forall rs, spawnLoop g (x :: y :: rs) = Some (mkPoint x y, rs).
Proof.
  intros Hwf Hlen.
  assert (Hnc : covered g = false).
  { destruct (covered g) eqn:Hc; [exfalso|reflexivity].
    assert (Hsub : forall p, p ∈ allCells -> p ∈ body g).
    { intros p Hp. apply list_elem_of_In in Hp. unfold allCells in Hp.
      apply in_flat_map in Hp. destruct Hp as [x [Hx Hp]].
      apply in_map_iff in Hp. destruct Hp as [y [<- Hy]].
      apply list_elem_of_In, elem_of_seqZ in Hx.
      apply list_elem_of_In, elem_of_seqZ in Hy.
      apply list_elem_of_In. apply (snakeHas_In g (mkPoint x y)). cbn [px py].
      apply covered_snakeHas; [exact Hc|unfold W in *; lia|unfold H in *; lia]. }
    assert (Hnd : NoDup allCells).
    { apply (bool_decide_unpack _). vm_compute. exact I. }
    pose proof (submseteq_length _ _ (NoDup_submseteq _ _ Hnd Hsub)) as Hle.
    change (length allCells) with 64%nat in Hle.
    unfold body in Hle. rewrite length_take, (wf_array g Hwf) in Hle.
    pose proof (wf_len g Hwf). change NUM_LEDS with 64 in *. lia. }
  unfold covered in Hnc.
  apply forallb_false in Hnc. destruct Hnc as [x [Hx Hnc]].
  apply forallb_false in Hnc. destruct Hnc as [y [Hy Hfree]].
  apply list_elem_of_In, elem_of_seqZ in Hx.
  apply list_elem_of_In, elem_of_seqZ in Hy.
  unfold W, H in *.
  exists x, y. split; [lia|]. split; [lia|]. split; [exact Hfree|].
  intros rs. apply spawnLoop_free; [lia|lia|exact Hfree].
Qed.

Lemma moved_set_lastStep t g : moved (set_lastStep t g) = set_lastStep t (moved g).
Proof.
  unfold moved, turned.
  change (ate (set_lastStep t g)) with (ate g).
  change (nextCell (set_lastStep t g)) with (nextCell g).
  change (heading (set_lastStep t g)) with (heading g).
  cbn [len set_dir set_lastStep].
  destruct (ate g && (len g <? NUM_LEDS)); reflexivity.
Qed.

Lemma covered_set_lastStep t g : covered (set_lastStep t g) = covered g.
Proof. reflexivity. Qed.

(** A due step that eats the apple and fills the grid never returns. *)
Lemma update_hangs t g h :
  gameOverFlag g = false -> stepMs g <= uint32 (millis t - lastStep g) ->
  outside (nextCell g) = false -> blocked g = false -> ate g = true ->
  covered (moved g) = true ->
  update t g h = None.
Proof.
  intros Hrun Hdue Ho Hb Ha Hc. unfold update. rewrite Hrun.
  assert ((uint32 (millis t - lastStep g) >=? stepMs g) = true) as ->.
  { apply Z.geb_le. exact Hdue. }
  unfold bind.
  rewrite (step_eat (set_lastStep (millis t) g) h Ho Hb Ha).
  rewrite moved_set_lastStep, spawnLoop_covered; [reflexivity|].
  rewrite covered_set_lastStep. exact Hc.
Qed.

(** C2 (the code departs from the claim). Growth stops at 64 cells, which
    is the whole grid. Sixty apples eaten along the tour leave a reachable
    RUNNING state of length 63 whose apple is on the last free cell, next
    to the head; the step that eats it makes the length 64, and
    [spawnApple] then rejects every draw: whatever the generator produces,
    the loop does not return, and neither does the [update] that ran the
    step. *)
Theorem spawnApple_hangs_on_full_grid :
  exists g h0, tourRun 60 = Some (g, h0) /\ reachable g /\
    gameOverFlag g = false /\ len g = 63 /\ len (moved g) = 64 /\
    covered (moved g) = true /\
    (forall rs, spawnLoop (moved g) rs = None) /\
    (forall t h, stepMs g <= uint32 (millis t - lastStep g) -> update t g h = None).
Proof.
  destruct (tourRun 60) as [[g h0]|] eqn:E; [|vm_compute in E; discriminate E].
  exists g, h0. split; [reflexivity|]. split; [exact (tourRun_reachable 60 g h0 E)|].
  vm_compute in E. injection E as <- _.
  split; [reflexivity|]. split; [reflexivity|]. split; [reflexivity|].
  split; [vm_compute; reflexivity|]. split.
  - apply spawnLoop_covered. vm_compute. reflexivity.
  - intros t h Hdue.
    apply update_hangs;
      [reflexivity | exact Hdue | reflexivity | reflexivity | reflexivity
      | vm_compute; reflexivity].
Qed.

(** * Properties of the input drivers *)

Lemma opposite_irrefl d : opposite d d = false.
Proof. destruct d; reflexivity. Qed.

(** Heading resolution never turns the snake round. *)
Lemma heading_not_opposite g : opposite (dir g) (heading g) = false.
Proof.
  unfold heading. destruct (opposite (dir g) (pending g)) eqn:E.
  - apply opposite_irrefl.
  - exact E.
Qed.

Lemma int16_small v : -32768 <= v < 32768 -> int16 v = v.
Proof.
  intros Hv. unfold int16, wrap_signed.
  change (2 ^ (16 - 1)) with 32768. change (2 ^ 16) with 65536.
  rewrite Z.mod_small by lia. lia.
Qed.


Lemma pick_dead_zone fx fy current :
  f32_lt (fabs fx) DEAD_G = true -> f32_lt (fabs fy) DEAD_G = true ->
  pick fx fy current = current.
Proof. intros Hx Hy. unfold pick. rewrite Hx, Hy. reflexivity. Qed.

(** ** C3: the joystick driver against the contract of the tilt driver *)




(** ** C10: ties between the axes *)

Lemma SFcompare_Eq_sym x y : SFcompare x y = Some Eq -> SFcompare y x = Some Eq.
Proof.
  destruct x as [sx|sx| |sx mx ex], y as [sy|sy| |sy my ey]; simpl;
    try discriminate; try reflexivity;
    try (destruct sx; discriminate); try (destruct sy; discriminate).
  - destruct sx, sy; try discriminate; reflexivity.
  - destruct sx, sy; try discriminate.
    + destruct (ex ?= ey) eqn:Ee; try discriminate.
      apply Z.compare_eq in Ee. subst ey. rewrite Z.compare_refl.
      intros [= Hm]. destruct (Pos.compare_cont Eq mx my) eqn:Em; try discriminate.
      apply Pos.compare_eq in Em. subst my. rewrite Pos.compare_cont_refl. reflexivity.
    + destruct (ex ?= ey) eqn:Ee; try discriminate.
      apply Z.compare_eq in Ee. subst ey. rewrite Z.compare_refl.
      intros [= Hm]. apply Pos.compare_eq in Hm. subst my.
      rewrite Pos.compare_cont_refl. reflexivity.
Qed.

Lemma pick_tie fx fy current :
  SFcompare (fabs fx) (fabs fy) = Some Eq ->
  pick fx fy current = current \/ pick fx fy current = UP \/ pick fx fy current = DOWN.
Proof.
  intros Htie. unfold pick.
  destruct (f32_lt (fabs fx) DEAD_G && f32_lt (fabs fy) DEAD_G); [left; reflexivity|].
  assert (f32_lt (fabs fy) (fabs fx) = false) as ->.
  { unfold f32_lt, SFltb. rewrite (SFcompare_Eq_sym _ _ Htie). reflexivity. }
  destruct (f32_lt TRIG_G fy && negb (Dir_eqb current UP)); [right; right; reflexivity|].
  destruct (f32_lt fy (SFopp TRIG_G) && negb (Dir_eqb current DOWN));
    [right; left; reflexivity|left; reflexivity].
Qed.

(** C10. The dominant-axis comparison is strict, so a tie goes to the
    vertical axis. Tilt driver: when the magnitudes of the two smoothed
    values are exactly equal, [readDir] answers UP, DOWN or the current
    heading, so it emits neither LEFT nor RIGHT. Joystick driver: when the
    magnitudes of the two axis deflections are equal, the direction handed
    on is UP, DOWN or the current heading. *)
Theorem tie_goes_to_vertical_axis accX accY s rawX rawY btn current :
  (SFcompare (fabs (fx (snd (readDir accX accY current s))))
             (fabs (fy (snd (readDir accX accY current s)))) = Some Eq ->
   fst (readDir accX accY current s) = current \/
   fst (readDir accX accY current s) = UP \/
   fst (readDir accX accY current s) = DOWN) /\
  (abs_int (int16 (rawX - 512)) = abs_int (int16 (rawY - 512)) ->
   joystickDir rawX rawY btn current = current \/
   joystickDir rawX rawY btn current = UP \/
   joystickDir rawX rawY btn current = DOWN).
Proof.
  split.
  - intros Htie. apply pick_tie. exact Htie.
  - intros Htie. unfold joystickDir, read. simpl. rewrite Htie.
    assert ((abs_int (int16 (rawY - 512)) >? abs_int (int16 (rawY - 512))) = false) as ->.
    { rewrite Z.gtb_ltb. apply Z.ltb_irrefl. }
    destruct (int16 (rawY - 512) >? DEADZONE); [right; right; reflexivity|].
    destruct (int16 (rawY - 512) <? - DEADZONE); [right; left; reflexivity|left; reflexivity].
Qed.

(** A tilt of 1 g on both axes from rest, heading RIGHT (both smoothed
    values become 0.2, beyond the trigger threshold) and the stick pushed
    equally far right and down. *)
Lemma tie_goes_to_vertical_axis_witness :
  let g1000 := S754_finite false 16384000 (-14) in
  (fst (readDir g1000 g1000 RIGHT imu0) = RIGHT \/
   fst (readDir g1000 g1000 RIGHT imu0) = UP \/
   fst (readDir g1000 g1000 RIGHT imu0) = DOWN) /\
  (joystickDir 900 900 false RIGHT = RIGHT \/
   joystickDir 900 900 false RIGHT = UP \/
   joystickDir 900 900 false RIGHT = DOWN).
Proof.
  intros g1000. split.
  - apply (proj1 (tie_goes_to_vertical_axis g1000 g1000 imu0 900 900 false RIGHT)).
    vm_compute. reflexivity.
  - apply (proj2 (tie_goes_to_vertical_axis g1000 g1000 imu0 900 900 false RIGHT)).
    vm_compute. reflexivity.
Defined.

(** * Binary32 arithmetic: rounding is monotone

    The result of a multiplication or an addition is the exact result
    rounded by [binary_round_aux]. This part shows that the rounding is
    [roundUlps] on the exact value ([round_aux_proper]), which is monotone
    ([roundUlps_mono]): a bound on the operands gives a bound on the result
    by evaluating the operation at the bound. *)

Lemma rne_range m n : m / 2 ^ n <= rne m n <= m / 2 ^ n + 1.
Proof.
  unfold rne. destruct (2 * (m mod 2 ^ n) ?= 2 ^ n); [destruct (Z.even _)| |]; lia.
Qed.

Lemma rne_exact c n : 0 <= n -> rne (c * 2 ^ n) n = c.
Proof.
  intros Hn. unfold rne.
  assert (0 < 2 ^ n) by (pow2_pos).
  rewrite Z.mod_mul, Z.div_mul by lia.
  change (2 * 0) with 0. destruct (Z.compare_spec 0 (2 ^ n)); lia.
Qed.

Lemma rne_mono m1 m2 n : 0 <= n -> m1 <= m2 -> rne m1 n <= rne m2 n.
Proof.
  intros Hn Hle.
  assert (HP : 0 < 2 ^ n) by (pow2_pos).
  assert (Hq : m1 / 2 ^ n <= m2 / 2 ^ n) by (apply Z.div_le_mono; lia).
  destruct (Z.eq_dec (m1 / 2 ^ n) (m2 / 2 ^ n)) as [Heq|Hne].
  - pose proof (Z.div_mod m1 (2 ^ n) ltac:(lia)) as D1.
    pose proof (Z.div_mod m2 (2 ^ n) ltac:(lia)) as D2.
    assert (Hr : m1 mod 2 ^ n <= m2 mod 2 ^ n) by (rewrite Heq in D1; lia).
    unfold rne. rewrite Heq.
    destruct (Z.compare_spec (2 * (m1 mod 2 ^ n)) (2 ^ n));
      destruct (Z.compare_spec (2 * (m2 mod 2 ^ n)) (2 ^ n));
      try destruct (Z.even (m2 / 2 ^ n)); lia.
  - pose proof (rne_range m1 n). pose proof (rne_range m2 n). lia.
Qed.

Lemma rne_scale m n k : 0 <= n -> 0 <= k -> rne (m * 2 ^ k) (n + k) = rne m n.
Proof.
  intros Hn Hk. unfold rne.
  assert (0 < 2 ^ n) by (pow2_pos).
  assert (0 < 2 ^ k) by (pow2_pos).
  rewrite Z.pow_add_r by lia.
  rewrite Z.div_mul_cancel_r by lia.
  rewrite Z.mul_mod_distr_r by lia.
  replace (2 * (m mod 2 ^ n * 2 ^ k)) with (2 * (m mod 2 ^ n) * 2 ^ k) by ring.
  destruct (Z.compare_spec (2 * (m mod 2 ^ n) * 2 ^ k) (2 ^ n * 2 ^ k));
    destruct (Z.compare_spec (2 * (m mod 2 ^ n)) (2 ^ n)); try reflexivity; nia.
Qed.

Lemma rne_nonneg m n : 0 <= m -> 0 <= n -> 0 <= rne m n.
Proof.
  intros Hm Hn. pose proof (rne_range m n).
  assert (0 <= m / 2 ^ n) by (apply Z.div_pos; [lia|pow2_pos]). lia.
Qed.

Lemma bitlen_bounds v : 0 < v -> 2 ^ (bitlen v - 1) <= v < 2 ^ bitlen v.
Proof.
  intros Hv. unfold bitlen. replace (Z.log2 v + 1 - 1) with (Z.log2 v) by lia.
  replace (Z.log2 v + 1) with (Z.succ (Z.log2 v)) by lia. apply Z.log2_spec. exact Hv.
Qed.

Lemma bitlen_unique v d : 2 ^ (d - 1) <= v < 2 ^ d -> 0 < d -> bitlen v = d.
Proof.
  intros Hb Hd. unfold bitlen.
  assert (Z.log2 v = d - 1); [|lia].
  apply Z.log2_unique; [lia|]. replace (Z.succ (d - 1)) with d by lia. exact Hb.
Qed.

Lemma bitlen_mono v w : 0 <= v <= w -> bitlen v <= bitlen w.
Proof. intros Hvw. unfold bitlen. pose proof (Z.log2_le_mono v w). lia. Qed.

Lemma bitlen_pos v : 0 < bitlen v.
Proof. unfold bitlen. pose proof (Z.log2_nonneg v). lia. Qed.

Lemma roundUlps_nonneg k v : 0 <= k -> 0 <= v -> 0 <= roundUlps k v.
Proof.
  intros Hk Hv. unfold roundUlps.
  apply Z.mul_nonneg_nonneg.
  - apply rne_nonneg; lia.
  - apply Z.pow_nonneg. lia.
Qed.

Lemma roundUlps_mono k v w :
  0 <= k -> 0 <= v <= w -> roundUlps k v <= roundUlps k w.
Proof.
  intros Hk Hvw. unfold roundUlps.
  pose proof (bitlen_mono v w Hvw) as Hbl.
  set (nv := Z.max (bitlen v - 24) k). set (nw := Z.max (bitlen w - 24) k).
  assert (Hn : nv <= nw) by (subst nv nw; lia).
  destruct (Z.eq_dec nv nw) as [Heq|Hne].
  - rewrite <- Heq. apply Z.mul_le_mono_nonneg_r.
    + apply Z.pow_nonneg. lia.
    + apply rne_mono; [subst nv; lia|lia].
  - assert (Hlt : nv < nw) by lia.
    assert (Hnw : nw = bitlen w - 24) by (subst nv nw; lia).
    assert (Hw0 : 0 < w).
    { destruct (Z.eq_dec w 0) as [->|]; [|lia].
      assert (v = 0) as -> by lia. subst nv nw. lia. }
    (* rounding of [v] stays at or below 2^24 units of its own step *)
    assert (Hup : rne v nv <= 2 ^ 24).
    { rewrite <- (rne_exact (2 ^ 24) nv) by (subst nv; lia).
      apply rne_mono; [subst nv; lia|].
      rewrite <- Z.pow_add_r by (subst nv; lia).
      destruct (Z.eq_dec v 0) as [->|Hv0].
      - apply Z.pow_nonneg. lia.
      - pose proof (bitlen_bounds v ltac:(lia)) as [_ Hb].
        apply Z.lt_le_incl. eapply Z.lt_le_trans; [exact Hb|].
        apply Z.pow_le_mono_r; [lia|subst nv; lia]. }
    (* rounding of [w] reaches at least 2^23 units of its own step *)
    assert (Hlow : 2 ^ 23 <= rne w nw).
    { rewrite <- (rne_exact (2 ^ 23) nw) at 1 by lia.
      apply rne_mono; [lia|].
      rewrite <- Z.pow_add_r by lia.
      pose proof (bitlen_bounds w Hw0) as [Hb _].
      replace (23 + nw) with (bitlen w - 1) by lia. exact Hb. }
    assert (Hpow : 2 ^ (nw - k) = 2 * 2 ^ (nw - 1 - k)).
    { replace (nw - k) with (Z.succ (nw - 1 - k)) by lia.
      apply Z.pow_succ_r. subst nv. lia. }
    assert (Hpv : 2 ^ (nv - k) <= 2 ^ (nw - 1 - k)).
    { apply Z.pow_le_mono_r; lia. }
    assert (0 < 2 ^ (nv - k)) by (apply Z.pow_pos_nonneg; subst nv; lia).
    assert (0 <= rne v nv) by (apply rne_nonneg; [lia|subst nv; lia]).
    change (2 ^ 24) with (2 * 2 ^ 23) in Hup.
    rewrite Hpow.
    transitivity (2 * 2 ^ 23 * 2 ^ (nw - 1 - k)).
    + transitivity (rne v nv * 2 ^ (nw - 1 - k)).
      * apply Z.mul_le_mono_nonneg_l; lia.
      * apply Z.mul_le_mono_nonneg_r; lia.
    + replace (2 * 2 ^ 23 * 2 ^ (nw - 1 - k)) with (2 ^ 23 * (2 * 2 ^ (nw - 1 - k))) by ring.
      apply Z.mul_le_mono_nonneg_r; lia.
Qed.

Lemma shifted_0 X : shifted X 0 (Build_shr_record X false false).
Proof.
  unfold shifted. simpl. rewrite Z.div_1_r, Z.mod_1_r. split; [reflexivity|].
  left. repeat split.
Qed.

Lemma shifted_step X j mrs :
  0 <= X -> 0 <= j -> shifted X j mrs -> shifted X (j + 1) (shr_1 mrs).
Proof.
  intros HX Hj [Hm Hrs].
  assert (HP : 0 < 2 ^ j) by (pow2_pos).
  assert (HP2 : 2 ^ (j + 1) = 2 * 2 ^ j) by (rewrite Z.pow_add_r by lia; ring).
  pose proof (Z.div_mod X (2 ^ j) ltac:(lia)) as HD.
  pose proof (Z.mod_pos_bound X (2 ^ j) HP) as HR.
  assert (Hm0 : 0 <= X / 2 ^ j) by (apply Z.div_pos; lia).
  destruct mrs as [m r s]. cbn [shr_m shr_r shr_s] in Hm, Hrs. subst m.
  (* split the old quotient into its half [h] and low bit [b] *)
  assert (Hsplit : forall h b, (b = 0 \/ b = 1) -> 0 <= h -> X / 2 ^ j = 2 * h + b ->
            X / 2 ^ (j + 1) = h /\ X mod 2 ^ (j + 1) = b * 2 ^ j + X mod 2 ^ j).
  { intros h b Hb Hh Hq. rewrite HP2.
    assert (X = h * (2 * 2 ^ j) + (b * 2 ^ j + X mod 2 ^ j)) as HX'.
    { rewrite HD at 1. rewrite Hq. ring. }
    assert (0 <= b * 2 ^ j + X mod 2 ^ j < 2 * 2 ^ j) by (destruct Hb; subst b; lia).
    split.
    - symmetry. apply (Z.div_unique X (2 * 2 ^ j) h (b * 2 ^ j + X mod 2 ^ j)); lia.
    - symmetry. apply (Z.mod_unique X (2 * 2 ^ j) h (b * 2 ^ j + X mod 2 ^ j)); lia. }
  unfold shifted.
  destruct (X / 2 ^ j) as [|p|p] eqn:Eq; [| |lia].
  - destruct (Hsplit 0 0 ltac:(lia) ltac:(lia) ltac:(lia)) as [Hq' Hr'].
    rewrite Hq', Hr', HP2. simpl shr_1. cbn [shr_m shr_r shr_s].
    split; [reflexivity|].
    destruct Hrs as [[-> [-> H0]]|[[-> [-> H0]]|[[-> [-> H0]]|[-> [-> H0]]]]]; cbn [orb];
      [left|right; left|right; left|right; left]; repeat split; lia.
  - destruct p as [p|p|].
    + destruct (Hsplit (Zpos p) 1 ltac:(lia) ltac:(lia) ltac:(lia)) as [Hq' Hr'].
      rewrite Hq', Hr', HP2. simpl shr_1. cbn [shr_m shr_r shr_s].
      split; [reflexivity|].
      destruct Hrs as [[-> [-> H0]]|[[-> [-> H0]]|[[-> [-> H0]]|[-> [-> H0]]]]]; cbn [orb];
        [right; right; left|right; right; right|right; right; right|right; right; right];
        repeat split; lia.
    + destruct (Hsplit (Zpos p) 0 ltac:(lia) ltac:(lia) ltac:(lia)) as [Hq' Hr'].
      rewrite Hq', Hr', HP2. simpl shr_1. cbn [shr_m shr_r shr_s].
      split; [reflexivity|].
      destruct Hrs as [[-> [-> H0]]|[[-> [-> H0]]|[[-> [-> H0]]|[-> [-> H0]]]]]; cbn [orb];
        [left|right; left|right; left|right; left]; repeat split; lia.
    + destruct (Hsplit 0 1 ltac:(lia) ltac:(lia) ltac:(lia)) as [Hq' Hr'].
      rewrite Hq', Hr', HP2. simpl shr_1. cbn [shr_m shr_r shr_s].
      split; [reflexivity|].
      destruct Hrs as [[-> [-> H0]]|[[-> [-> H0]]|[[-> [-> H0]]|[-> [-> H0]]]]]; cbn [orb];
        [right; right; left|right; right; right|right; right; right|right; right; right];
        repeat split; lia.
Qed.

Lemma iter_pos_nat {A} (f : A -> A) p x :
  SpecFloat.iter_pos f p x = Nat.iter (Pos.to_nat p) f x.
Proof.
  revert x. induction p as [p IH|p IH|]; intros x; cbn [SpecFloat.iter_pos].
  - rewrite !IH, Pos2Nat.inj_xI.
    replace (2 * Pos.to_nat p)%nat with (Pos.to_nat p + Pos.to_nat p)%nat by lia.
    rewrite Nat.iter_succ_r, Nat.iter_add. reflexivity.
  - rewrite !IH, Pos2Nat.inj_xO.
    replace (2 * Pos.to_nat p)%nat with (Pos.to_nat p + Pos.to_nat p)%nat by lia.
    rewrite Nat.iter_add. reflexivity.
  - reflexivity.
Qed.

Lemma shifted_iter X k :
  0 <= X -> shifted X (Z.of_nat k) (Nat.iter k shr_1 (Build_shr_record X false false)).
Proof.
  intros HX. induction k as [|k IH].
  - apply shifted_0.
  - rewrite Nat2Z.inj_succ. simpl. apply shifted_step; [exact HX|lia|exact IH].
Qed.

(** Shifting right by [n] bits and rounding to nearest-even is [rne]. *)
Lemma shifted_rne X j mrs :
  0 <= j -> shifted X j mrs ->
  round_nearest_even (shr_m mrs) (loc_of_shr_record mrs) = rne X j.
Proof.
  intros Hj [Hm Hrs]. unfold rne. rewrite <- Hm.
  destruct mrs as [m r s]. cbn [shr_m shr_r shr_s] in *.
  assert (HP : 0 < 2 ^ j) by (pow2_pos).
  destruct Hrs as [[-> [-> H0]]|[[-> [-> H0]]|[[-> [-> H0]]|[-> [-> H0]]]]];
    cbn [loc_of_shr_record round_nearest_even].
  - rewrite H0. change (2 * 0) with 0. destruct (Z.compare_spec 0 (2 ^ j)); [lia|reflexivity|lia].
  - destruct (Z.compare_spec (2 * (X mod 2 ^ j)) (2 ^ j)); [lia|reflexivity|lia].
  - destruct (Z.compare_spec (2 * (X mod 2 ^ j)) (2 ^ j)); [reflexivity|lia|lia].
  - destruct (Z.compare_spec (2 * (X mod 2 ^ j)) (2 ^ j)); [lia|lia|reflexivity].
Qed.

Lemma shr_exact_rne X e n :
  0 <= X -> 0 <= n ->
  let '(mrs, e') := shr (Build_shr_record X false false) e n in
  round_nearest_even (shr_m mrs) (loc_of_shr_record mrs) = rne X n /\ e' = e + n.
Proof.
  intros HX Hn. unfold shr. destruct n as [|p|p]; [| |lia].
  - split; [|lia]. apply (shifted_rne X 0); [lia|apply shifted_0].
  - split; [|reflexivity]. rewrite iter_pos_nat.
    apply shifted_rne; [lia|].
    rewrite <- (positive_nat_Z p) at 1. apply shifted_iter. exact HX.
Qed.

Lemma fexp32 e : fexp 24 128 e = Z.max (e - 24) (-149).
Proof. reflexivity. Qed.

Lemma digits2_pos_bounds m :
  2 ^ (Zpos (digits2_pos m) - 1) <= Zpos m < 2 ^ Zpos (digits2_pos m).
Proof.
  induction m as [p IH|p IH|]; cbn [digits2_pos].
  - rewrite Pos2Z.inj_succ.
    replace (Z.succ (Zpos (digits2_pos p)) - 1) with (Z.succ (Zpos (digits2_pos p) - 1)) by lia.
    rewrite !Z.pow_succ_r by lia. lia.
  - rewrite Pos2Z.inj_succ.
    replace (Z.succ (Zpos (digits2_pos p)) - 1) with (Z.succ (Zpos (digits2_pos p) - 1)) by lia.
    rewrite !Z.pow_succ_r by lia. lia.
  - simpl. lia.
Qed.

Lemma digits2_pos_bitlen m : Zpos (digits2_pos m) = bitlen (Zpos m).
Proof. symmetry. apply bitlen_unique; [apply digits2_pos_bounds|lia]. Qed.

Lemma bitlen_shift v j : 0 < v -> 0 <= j -> bitlen (v * 2 ^ j) = bitlen v + j.
Proof.
  intros Hv Hj. apply bitlen_unique; [|pose proof (bitlen_pos v); lia].
  pose proof (bitlen_bounds v Hv) as [Hlo Hhi].
  assert (0 < 2 ^ j) by (pow2_pos).
  replace (bitlen v + j - 1) with (bitlen v - 1 + j) by lia.
  rewrite !Z.pow_add_r by (pose proof (bitlen_pos v); lia).
  split; [apply Z.mul_le_mono_nonneg_r|apply Z.mul_lt_mono_pos_r]; lia.
Qed.

Lemma shr_nonpos mrs e z : z <= 0 -> shr mrs e z = (mrs, e).
Proof. intros Hz. destruct z; [reflexivity|lia|reflexivity]. Qed.

(** What [binary_round_aux] returns on an exact input whose exponent is
    not above the target exponent [E]. *)
Lemma round_aux_exact s m e :
  let E := Z.max (bitlen (Zpos m) + e - 24) (-149) in
  let q := rne (Zpos m) (E - e) in
  e <= E -> E + 1 <= 104 ->
  0 <= q <= 2 ^ 24 /\
  (E = -149 \/ 2 ^ 23 <= q) /\
  binary_round_aux 24 128 s (Zpos m) e loc_Exact =
    if q =? 0 then S754_zero s
    else if q =? 2 ^ 24 then S754_finite s (2 ^ 23)%positive (E + 1)
    else S754_finite s (Z.to_pos q) E.
Proof.
  intros E q HeE Hov.
  pose proof (bitlen_bounds (Zpos m) ltac:(lia)) as [Hlo Hhi].
  set (d := bitlen (Zpos m)) in *.
  set (n := E - e) in *.
  assert (Hn : 0 <= n) by (subst n; lia).
  assert (HPn : 0 < 2 ^ n) by (pow2_pos).
  assert (Hqup : Zpos m / 2 ^ n < 2 ^ 24).
  { apply Z.div_lt_upper_bound; [lia|]. rewrite <- Z.pow_add_r by lia.
    eapply Z.lt_le_trans; [exact Hhi|]. apply Z.pow_le_mono_r; [lia|subst n E; lia]. }
  assert (Hq0 : 0 <= Zpos m / 2 ^ n) by (apply Z.div_pos; lia).
  pose proof (rne_range (Zpos m) n) as Hrange. fold q in Hrange.
  assert (Hqr : 0 <= q <= 2 ^ 24) by lia.
  assert (Hnorm : E = -149 \/ 2 ^ 23 <= q).
  { destruct (Z.eq_dec E (-149)) as [|HE]; [left; assumption|right].
    assert (n = d - 24) by (subst n E; lia).
    assert (2 ^ 23 <= Zpos m / 2 ^ n); [|lia].
    apply Z.div_le_lower_bound; [lia|]. rewrite <- Z.pow_add_r by lia.
    replace (n + 23) with (d - 1) by lia. exact Hlo. }
  split; [exact Hqr|]. split; [exact Hnorm|].
  unfold binary_round_aux, shr_fexp.
  cbn [Zdigits2 shr_record_of_loc]. rewrite digits2_pos_bitlen, fexp32.
  fold d. fold E. fold n.
  pose proof (shr_exact_rne (Zpos m) e n ltac:(lia) Hn) as Hshr.
  destruct (shr {| shr_m := Zpos m; shr_r := false; shr_s := false |} e n) as [mrs1 e1].
  destruct Hshr as [Hq He1]. fold q in Hq. rewrite Hq.
  replace e1 with E by (subst n; lia).
  destruct (Z.eqb_spec q 0) as [Hz|Hnz].
  - rewrite Hz. cbn [Zdigits2]. rewrite fexp32, shr_nonpos by lia. reflexivity.
  - destruct (Z.eqb_spec q (2 ^ 24)) as [Hc|Hnc].
    + rewrite Hc. change (Zdigits2 (2 ^ 24)) with 25. rewrite fexp32.
      replace (Z.max (25 + E - 24) (-149) - E) with 1 by lia.
      change (2 ^ 24) with 16777216. cbn. change (128 - 24) with 104.
      assert ((E + 1 <=? 104) = true) as -> by (apply Z.leb_le; lia).
      reflexivity.
    + destruct q as [|p|p] eqn:Eq; [lia| |lia].
      cbn [Zdigits2]. rewrite digits2_pos_bitlen, fexp32.
      assert (Hbl : bitlen (Zpos p) <= 24).
      { pose proof (bitlen_bounds (Zpos p) ltac:(lia)) as [Hl _].
        destruct (Z_le_gt_dec (bitlen (Zpos p)) 24) as [|Hgt]; [assumption|exfalso].
        assert (2 ^ 24 <= 2 ^ (bitlen (Zpos p) - 1)) by (apply Z.pow_le_mono_r; lia).
        lia. }
      rewrite shr_nonpos by lia. cbn. change (128 - 24) with 104.
      assert ((E <=? 104) = true) as -> by (apply Z.leb_le; lia).
      reflexivity.
Qed.

Lemma cond_Zopp_0 s : cond_Zopp s 0 = 0.
Proof. destruct s; reflexivity. Qed.

Lemma abs_cond_Zopp s v : Z.abs (cond_Zopp s v) = Z.abs v.
Proof. destruct s; simpl; [apply Z.abs_opp|reflexivity]. Qed.

Lemma roundUlps_0 k : 0 <= k -> roundUlps k 0 = 0.
Proof.
  intros Hk. unfold roundUlps. change (bitlen 0) with 1.
  replace (Z.max (1 - 24) k) with k by lia.
  replace 0 with (0 * 2 ^ k) at 1 by ring. rewrite rne_exact by lia. ring.
Qed.

Lemma valid_finite_intro s p E :
  Z.max (bitlen (Zpos p) + E - 24) (-149) = E -> E <= 104 ->
  valid_binary 24 128 (S754_finite s p E) = true.
Proof.
  intros Hc Hb. unfold valid_binary, bounded, canonical_mantissa.
  rewrite digits2_pos_bitlen, fexp32, Hc, Z.eqb_refl. simpl.
  apply Z.leb_le. simpl. lia.
Qed.

Lemma valid_finite_elim s p E :
  valid_binary 24 128 (S754_finite s p E) = true ->
  Z.max (bitlen (Zpos p) + E - 24) (-149) = E /\ E <= 104.
Proof.
  unfold valid_binary, bounded, canonical_mantissa.
  rewrite digits2_pos_bitlen, fexp32. intros Hv.
  apply andb_true_iff in Hv. destruct Hv as [Hc Hb].
  apply Z.eqb_eq in Hc. apply Z.leb_le in Hb. simpl in Hb. split; [exact Hc|lia].
Qed.

(** The rounding step shared by multiplication and addition: the result is
    a well-formed number whose value, in units of 2^-149, is [roundUlps] of
    the exact value (given in units of 2^-(149+k)). *)
Lemma round_aux_proper s m e k :
  e <= Z.max (bitlen (Zpos m) + e - 24) (-149) ->
  0 <= k -> 0 <= e + 149 + k ->
  Zpos m * 2 ^ (e + 149 + k) < 2 ^ (149 + k) ->
  proper (binary_round_aux 24 128 s (Zpos m) e loc_Exact) /\
  ulps (binary_round_aux 24 128 s (Zpos m) e loc_Exact) =
    cond_Zopp s (roundUlps k (Zpos m * 2 ^ (e + 149 + k))).
Proof.
  intros HeE Hk Hs Hlt1.
  set (d := bitlen (Zpos m)) in *.
  set (E := Z.max (d + e - 24) (-149)) in *.
  assert (Hbl : bitlen (Zpos m * 2 ^ (e + 149 + k)) = d + (e + 149 + k)).
  { apply bitlen_shift; lia. }
  assert (HE : E <= -24).
  { assert (d + (e + 149 + k) <= 149 + k); [|subst E; lia].
    rewrite <- Hbl.
    assert (Hpos : 0 < Zpos m * 2 ^ (e + 149 + k)).
    { apply Z.mul_pos_pos; [lia|pow2_pos]. }
    pose proof (bitlen_bounds _ Hpos) as [Hlo _].
    destruct (Z_le_gt_dec (bitlen (Zpos m * 2 ^ (e + 149 + k))) (149 + k)) as [|Hgt];
      [assumption|exfalso].
    assert (2 ^ (149 + k) <= 2 ^ (bitlen (Zpos m * 2 ^ (e + 149 + k)) - 1))
      by (apply Z.pow_le_mono_r; lia).
    lia. }
  destruct (round_aux_exact s m e HeE ltac:(fold d; fold E; lia))
    as [Hq [Hnorm Hres]].
  fold d in Hq, Hnorm, Hres. fold E in Hq, Hnorm, Hres.
  set (q := rne (Zpos m) (E - e)) in *.
  assert (Hround : roundUlps k (Zpos m * 2 ^ (e + 149 + k)) = q * 2 ^ (E + 149)).
  { unfold roundUlps. rewrite Hbl.
    replace (Z.max (d + (e + 149 + k) - 24) k) with ((E - e) + (e + 149 + k)) by (subst E; lia).
    rewrite rne_scale by lia. fold q. f_equal. f_equal. lia. }
  rewrite Hres, Hround.
  destruct (Z.eqb_spec q 0) as [Hz|Hnz].
  - rewrite Hz. simpl. rewrite cond_Zopp_0. split; [split; reflexivity|reflexivity].
  - destruct (Z.eqb_spec q (2 ^ 24)) as [Hc|Hnc].
    + split.
      * split; [|reflexivity]. apply valid_finite_intro; [|lia].
        change (bitlen (Zpos (2 ^ 23))) with 24. lia.
      * cbn [ulps]. f_equal. rewrite Hc.
        replace (E + 1 + 149) with (Z.succ (E + 149)) by lia.
        rewrite Z.pow_succ_r by lia.
        change (Zpos (2 ^ 23)) with (2 ^ 23). change (2 ^ 24) with (2 * 2 ^ 23). ring.
    + assert (Hqpos : 0 < q) by lia.
      split.
      * split; [|reflexivity]. apply valid_finite_intro; [|lia].
        rewrite Z2Pos.id by lia.
        destruct Hnorm as [HEm|Hq23].
        -- assert (bitlen q <= 24); [|lia].
           pose proof (bitlen_bounds q Hqpos) as [Hl _].
           destruct (Z_le_gt_dec (bitlen q) 24) as [|Hgt]; [assumption|exfalso].
           assert (2 ^ 24 <= 2 ^ (bitlen q - 1)) by (apply Z.pow_le_mono_r; lia).
           lia.
        -- assert (bitlen q = 24); [|lia].
           apply bitlen_unique; [|lia]. change (2 ^ (24 - 1)) with (2 ^ 23). lia.
      * cbn [ulps]. rewrite Z2Pos.id by lia. reflexivity.
Qed.

Lemma pos_iter_xO m d : Zpos (Pos.iter xO m d) = Zpos m * 2 ^ Zpos d.
Proof.
  induction d as [|d IH] using Pos.peano_ind.
  - simpl. lia.
  - rewrite Pos.iter_succ, Pos2Z.inj_succ, Z.pow_succ_r by lia.
    rewrite Pos2Z.inj_xO, IH. ring.
Qed.

Lemma shl_align_spec m e e' :
  let '(mz, ez) := shl_align m e e' in
  ez = Z.min e e' /\ Zpos mz = Zpos m * 2 ^ (e - ez).
Proof.
  unfold shl_align. destruct (e' - e) as [|p|p] eqn:Ed.
  - split; [lia|]. replace (e - e) with 0 by lia. simpl. lia.
  - split; [lia|]. replace (e - e) with 0 by lia. simpl. lia.
  - split; [lia|]. rewrite pos_iter_xO. f_equal. f_equal. lia.
Qed.

(** [binary_round] on an integer number [m] of units 2^e, e >= -149. *)
Lemma round_proper s m e :
  -149 <= e -> Zpos m * 2 ^ (e + 149) < 2 ^ 149 ->
  proper (binary_round 24 128 s m e) /\
  ulps (binary_round 24 128 s m e) = cond_Zopp s (roundUlps 0 (Zpos m * 2 ^ (e + 149))).
Proof.
  intros He Hlt1. unfold binary_round.
  rewrite digits2_pos_bitlen, fexp32.
  pose proof (shl_align_spec m e (Z.max (bitlen (Zpos m) + e - 24) (-149))) as Hal.
  destruct (shl_align m e (Z.max (bitlen (Zpos m) + e - 24) (-149))) as [mz ez].
  destruct Hal as [Hez Hmz].
  assert (Hsh : 0 <= e - ez) by lia.
  assert (Hbl : bitlen (Zpos mz) = bitlen (Zpos m) + (e - ez)).
  { rewrite Hmz. apply bitlen_shift; lia. }
  assert (Hval : Zpos mz * 2 ^ (ez + 149 + 0) = Zpos m * 2 ^ (e + 149)).
  { rewrite Hmz, <- Z.mul_assoc, <- Z.pow_add_r by lia. f_equal. f_equal. lia. }
  rewrite <- Hval.
  apply round_aux_proper; [rewrite Hbl; lia|lia|lia|].
  rewrite Hval. exact Hlt1.
Qed.

Lemma proper_finite_exp s m e : proper (S754_finite s m e) -> -149 <= e <= 104.
Proof. intros [Hv _]. apply valid_finite_elim in Hv. lia. Qed.

Lemma ulps_abs_finite s m e : Z.abs (ulps (S754_finite s m e)) = Zpos m * 2 ^ (e + 149).
Proof.
  cbn [ulps]. rewrite abs_cond_Zopp. apply Z.abs_eq.
  apply Z.mul_nonneg_nonneg; [lia|apply Z.pow_nonneg; lia].
Qed.

(** Well-formed numbers are fixed by rounding. *)
Lemma roundUlps_proper x : proper x -> roundUlps 0 (Z.abs (ulps x)) = Z.abs (ulps x).
Proof.
  intros Hx. destruct x as [s|s| |s m e]; try (apply roundUlps_0; lia).
  pose proof (proper_finite_exp s m e Hx) as He.
  destruct Hx as [Hv _]. apply valid_finite_elim in Hv. destruct Hv as [Hc _].
  rewrite ulps_abs_finite. unfold roundUlps.
  rewrite bitlen_shift by lia.
  replace (Z.max (bitlen (Zpos m) + (e + 149) - 24) 0) with (e + 149) by lia.
  rewrite rne_exact by lia. replace (e + 149 - 0) with (e + 149) by lia. reflexivity.
Qed.

(** Multiplication by a positive normal literal [mA * 2^eA]. *)
Lemma mul_lit_proper x mA eA :
  2 ^ 23 <= Zpos mA -> eA <= 0 ->
  proper x -> Z.abs (ulps x) * Zpos mA < 2 ^ (149 - eA) ->
  proper (SFmul 24 128 x (S754_finite false mA eA)) /\
  Z.abs (ulps (SFmul 24 128 x (S754_finite false mA eA))) =
    roundUlps (- eA) (Z.abs (ulps x) * Zpos mA).
Proof.
  intros HmA HeA Hx Hlt1.
  destruct x as [s|s| |s m e].
  - simpl. split; [split; reflexivity|]. symmetry. apply roundUlps_0. lia.
  - destruct Hx as [_ Hf]. discriminate Hf.
  - destruct Hx as [_ Hf]. discriminate Hf.
  - pose proof (proper_finite_exp s m e Hx) as He.
    rewrite ulps_abs_finite in *.
    cbn [SFmul]. rewrite xorb_false_r.
    assert (Hval : Zpos (m * mA) * 2 ^ (e + eA + 149 + - eA) = Zpos m * 2 ^ (e + 149) * Zpos mA).
    { rewrite Pos2Z.inj_mul. replace (e + eA + 149 + - eA) with (e + 149) by lia. ring. }
    assert (Hbl : 24 <= bitlen (Zpos (m * mA))).
    { assert (Hge : 2 ^ 23 <= Zpos (m * mA)) by (rewrite Pos2Z.inj_mul; nia).
      pose proof (bitlen_bounds (Zpos (m * mA)) ltac:(lia)) as [_ Hhi].
      destruct (Z_le_gt_dec 24 (bitlen (Zpos (m * mA)))) as [|Hgt]; [assumption|exfalso].
      assert (2 ^ bitlen (Zpos (m * mA)) <= 2 ^ 23).
      { apply Z.pow_le_mono_r; lia. }
      lia. }
    destruct (round_aux_proper s (m * mA) (e + eA) (- eA)) as [Hp Hu];
      [lia|lia|lia| |].
    + rewrite Hval. replace (149 + - eA) with (149 - eA) by lia. exact Hlt1.
    + split; [exact Hp|]. rewrite Hu, abs_cond_Zopp, Hval.
      apply Z.abs_eq. apply roundUlps_nonneg; [lia|].
      apply Z.mul_nonneg_nonneg; [|lia].
      apply Z.mul_nonneg_nonneg; [lia|apply Z.pow_nonneg; lia].
Qed.

Lemma normalize_proper sum e :
  -149 <= e -> Z.abs sum * 2 ^ (e + 149) < 2 ^ 149 ->
  proper (binary_normalize 24 128 sum e false) /\
  Z.abs (ulps (binary_normalize 24 128 sum e false)) =
    roundUlps 0 (Z.abs sum * 2 ^ (e + 149)).
Proof.
  intros He Hlt1. destruct sum as [|p|p]; cbn [binary_normalize].
  - split; [split; reflexivity|]. cbn [ulps Z.abs]. rewrite Z.mul_0_l.
    symmetry. apply roundUlps_0. apply Z.le_refl.
  - destruct (round_proper false p e He Hlt1) as [Hp Hu].
    split; [exact Hp|]. rewrite Hu. cbn [cond_Zopp Z.abs].
    apply Z.abs_eq. apply roundUlps_nonneg; [lia|].
    apply Z.mul_nonneg_nonneg; [lia|apply Z.pow_nonneg; lia].
  - destruct (round_proper true p e He Hlt1) as [Hp Hu].
    split; [exact Hp|]. rewrite Hu, abs_cond_Zopp. cbn [Z.abs].
    apply Z.abs_eq. apply roundUlps_nonneg; [lia|].
    apply Z.mul_nonneg_nonneg; [lia|apply Z.pow_nonneg; lia].
Qed.

Lemma aligned_ulps s m e ez :
  -149 <= ez -> ez <= e ->
  cond_Zopp s (Zpos (fst (shl_align m e ez))) * 2 ^ (ez + 149) = ulps (S754_finite s m e).
Proof.
  intros Hez Hle. pose proof (shl_align_spec m e ez) as Hal.
  destruct (shl_align m e ez) as [mz ez']. destruct Hal as [Hz Hm].
  cbn [fst ulps]. rewrite Hm.
  replace ez' with ez by lia.
  replace (e + 149) with ((e - ez) + (ez + 149)) by lia.
  rewrite (Z.pow_add_r 2 (e - ez) (ez + 149)) by lia.
  destruct s; cbn [cond_Zopp]; ring.
Qed.

(** Addition of two well-formed numbers whose sum is below 1 in size. *)
Lemma add_proper x y :
  proper x -> proper y -> Z.abs (ulps x + ulps y) < 2 ^ 149 ->
  proper (SFadd 24 128 x y) /\
  Z.abs (ulps (SFadd 24 128 x y)) = roundUlps 0 (Z.abs (ulps x + ulps y)).
Proof.
  intros Hx Hy Hlt1.
  destruct x as [sx|sx| |sx mx ex]; try (destruct Hx as [_ Hf]; discriminate Hf);
  destruct y as [sy|sy| |sy my ey]; try (destruct Hy as [_ Hf]; discriminate Hf).
  - cbn [SFadd ulps].
    split; [destruct sx, sy; split; reflexivity|].
    rewrite roundUlps_0 by lia. destruct sx, sy; reflexivity.
  - cbn [SFadd]. split; [exact Hy|].
    change (ulps (S754_zero sx)) with 0. rewrite Z.add_0_l.
    symmetry. apply roundUlps_proper. exact Hy.
  - cbn [SFadd]. split; [exact Hx|].
    change (ulps (S754_zero sy)) with 0. rewrite Z.add_0_r.
    symmetry. apply roundUlps_proper. exact Hx.
  - pose proof (proper_finite_exp _ _ _ Hx) as Hex.
    pose proof (proper_finite_exp _ _ _ Hy) as Hey.
    cbn [SFadd].
    set (ez := Z.min ex ey).
    set (total := cond_Zopp sx (Zpos (fst (shl_align mx ex ez))) +
              cond_Zopp sy (Zpos (fst (shl_align my ey ez)))).
    assert (HS : total * 2 ^ (ez + 149) =
                 ulps (S754_finite sx mx ex) + ulps (S754_finite sy my ey)).
    { subst total. rewrite Z.mul_add_distr_r, !aligned_ulps by (subst ez; lia). reflexivity. }
    assert (HP : 0 < 2 ^ (ez + 149)) by (apply Z.pow_pos_nonneg; subst ez; lia).
    assert (Habs : Z.abs total * 2 ^ (ez + 149) =
                   Z.abs (ulps (S754_finite sx mx ex) + ulps (S754_finite sy my ey))).
    { rewrite <- HS, Z.abs_mul. f_equal. symmetry. apply Z.abs_eq. lia. }
    rewrite <- Habs. apply normalize_proper; [subst ez; lia|].
    rewrite Habs. exact Hlt1.
Qed.

(** * Binary32 arithmetic: results are well-formed

    Division, addition and subtraction of well-formed data give
    well-formed data ([valid_binary]: canonical mantissa and exponent), so
    the deltas computed from well-formed samples and offsets are
    well-formed. *)

Lemma shr_1_m mrs : 0 <= shr_m mrs -> shr_m (shr_1 mrs) = shr_m mrs / 2.
Proof.
  destruct mrs as [m r s]. cbn [shr_m]. intros Hm.
  destruct m as [|p|p]; [reflexivity| |lia].
  destruct p as [p|p|]; cbn [shr_1 shr_m].
  - rewrite Pos2Z.inj_xI. apply (Z.div_unique _ 2 _ 1); lia.
  - rewrite Pos2Z.inj_xO. apply (Z.div_unique _ 2 _ 0); lia.
  - reflexivity.
Qed.

Lemma shr_m_iter k mrs :
  0 <= shr_m mrs -> shr_m (Nat.iter k shr_1 mrs) = shr_m mrs / 2 ^ Z.of_nat k.
Proof.
  intros Hm. induction k as [|k IH].
  - simpl. symmetry. apply Z.div_1_r.
  - rewrite Nat2Z.inj_succ, Z.pow_succ_r by lia.
    change (Nat.iter (S k) shr_1 mrs) with (shr_1 (Nat.iter k shr_1 mrs)).
    rewrite shr_1_m, IH.
    + rewrite Z.div_div by (try pow2_pos; lia). f_equal. ring.
    + rewrite IH. apply Z.div_pos; [lia|pow2_pos].
Qed.

Lemma shr_record_of_loc_m m l : shr_m (shr_record_of_loc m l) = m.
Proof. destruct l as [|[| |]]; reflexivity. Qed.

Lemma shr_m_shr mrs e n :
  0 <= shr_m mrs -> 0 <= n ->
  shr_m (fst (shr mrs e n)) = shr_m mrs / 2 ^ n /\ snd (shr mrs e n) = e + n.
Proof.
  intros Hm Hn. unfold shr. destruct n as [|p|p]; [| |lia]; cbn [fst snd].
  - split; [symmetry; apply Z.div_1_r|lia].
  - split; [|reflexivity]. rewrite iter_pos_nat, shr_m_iter by exact Hm.
    rewrite positive_nat_Z. reflexivity.
Qed.

Lemma round_nearest_even_range m l : m <= round_nearest_even m l <= m + 1.
Proof.
  destruct l as [|[| |]]; cbn [round_nearest_even]; try lia.
  destruct (Z.even m); lia.
Qed.

Lemma Zdigits2_bitlen m : 0 < m -> Zdigits2 m = bitlen m.
Proof.
  intros Hm. destruct m as [|p|p]; [lia| |lia]. apply digits2_pos_bitlen.
Qed.

(** [binary_round_aux] returns a well-formed datum whenever the exponent it
    is given is not above the target exponent. *)
Lemma round_aux_valid s m e l :
  0 <= m -> e <= Z.max (Zdigits2 m + e - 24) (-149) ->
  valid_binary 24 128 (binary_round_aux 24 128 s m e l) = true.
Proof.
  intros Hm HeE.
  set (E := Z.max (Zdigits2 m + e - 24) (-149)) in *.
  set (n := E - e).
  assert (Hn : 0 <= n) by (subst n; lia).
  assert (HPn : 0 < 2 ^ n) by (pow2_pos).
  unfold binary_round_aux, shr_fexp. rewrite fexp32. fold E. fold n.
  pose proof (shr_m_shr (shr_record_of_loc m l) e n) as Hshr.
  rewrite shr_record_of_loc_m in Hshr. specialize (Hshr Hm Hn).
  destruct (shr (shr_record_of_loc m l) e n) as [mrs1 e1].
  cbn [fst snd] in Hshr. destruct Hshr as [Hm1 He1].
  pose proof (round_nearest_even_range (shr_m mrs1) (loc_of_shr_record mrs1)) as Hrange.
  set (q := round_nearest_even (shr_m mrs1) (loc_of_shr_record mrs1)) in *.
  rewrite Hm1 in Hrange.
  replace e1 with E by (subst n; lia).
  assert (Hq0 : 0 <= m / 2 ^ n) by (apply Z.div_pos; lia).
  assert (Hqup : m / 2 ^ n < 2 ^ 24).
  { destruct (Z.eq_dec m 0) as [->|Hm0].
    - rewrite Z.div_0_l by lia. lia.
    - apply Z.div_lt_upper_bound; [lia|]. rewrite <- Z.pow_add_r by lia.
      pose proof (bitlen_bounds m ltac:(lia)) as [_ Hhi].
      eapply Z.lt_le_trans; [exact Hhi|]. apply Z.pow_le_mono_r; [lia|].
      rewrite <- (Zdigits2_bitlen m) by lia. subst n E. lia. }
  assert (Hnorm : E = -149 \/ 2 ^ 23 <= q).
  { destruct (Z.eq_dec E (-149)) as [|HE]; [left; assumption|right].
    destruct (Z.eq_dec m 0) as [->|Hm0].
    - exfalso. subst E. cbn [Zdigits2] in *. lia.
    - assert (Hd : Zdigits2 m = bitlen m) by (apply Zdigits2_bitlen; lia).
      assert (n = bitlen m - 24) by (subst n E; lia).
      pose proof (bitlen_bounds m ltac:(lia)) as [Hlo _].
      assert (2 ^ 23 <= m / 2 ^ n); [|lia].
      apply Z.div_le_lower_bound; [lia|]. rewrite <- Z.pow_add_r by lia.
      replace (n + 23) with (bitlen m - 1) by lia. exact Hlo. }
  assert (HE149 : -149 <= E) by (subst E; lia).
  destruct (Z.eq_dec q 0) as [Hz|Hnz].
  - rewrite Hz. cbn [Zdigits2]. rewrite fexp32, shr_nonpos by lia. reflexivity.
  - destruct (Z.eq_dec q (2 ^ 24)) as [Hc|Hnc].
    + rewrite Hc. change (Zdigits2 (2 ^ 24)) with 25. rewrite fexp32.
      replace (Z.max (25 + E - 24) (-149) - E) with 1 by lia.
      change (2 ^ 24) with 16777216. cbn. change (128 - 24) with 104.
      destruct (Z.leb_spec (E + 1) 104); [|reflexivity].
      apply valid_finite_intro; [|lia].
      change (bitlen (Zpos 8388608)) with 24. lia.
    + destruct q as [|p|p] eqn:Eq; [lia| |lia].
      cbn [Zdigits2]. rewrite digits2_pos_bitlen, fexp32.
      assert (Hbl : bitlen (Zpos p) <= 24).
      { pose proof (bitlen_bounds (Zpos p) ltac:(lia)) as [Hl _].
        destruct (Z_le_gt_dec (bitlen (Zpos p)) 24) as [|Hgt]; [assumption|exfalso].
        assert (2 ^ 24 <= 2 ^ (bitlen (Zpos p) - 1)) by (apply Z.pow_le_mono_r; lia).
        lia. }
      rewrite shr_nonpos by lia. cbn. change (128 - 24) with 104.
      destruct (Z.leb_spec E 104); [|reflexivity].
      apply valid_finite_intro; [|lia].
      destruct Hnorm as [HEm|Hq23]; [lia|].
      assert (bitlen (Zpos p) = 24); [|lia].
      apply bitlen_unique; [|lia]. change (2 ^ (24 - 1)) with (2 ^ 23). lia.
Qed.

Lemma round_valid s m e : valid_binary 24 128 (binary_round 24 128 s m e) = true.
Proof.
  unfold binary_round. rewrite digits2_pos_bitlen, fexp32.
  pose proof (shl_align_spec m e (Z.max (bitlen (Zpos m) + e - 24) (-149))) as Hal.
  destruct (shl_align m e (Z.max (bitlen (Zpos m) + e - 24) (-149))) as [mz ez].
  destruct Hal as [Hez Hmz].
  apply round_aux_valid; [lia|].
  cbn [Zdigits2]. rewrite digits2_pos_bitlen, Hmz, bitlen_shift by lia. lia.
Qed.

Lemma normalize_valid n e b : valid_binary 24 128 (binary_normalize 24 128 n e b) = true.
Proof. destruct n; cbn [binary_normalize]; [reflexivity|apply round_valid|apply round_valid]. Qed.

Lemma add_valid x y :
  valid_binary 24 128 x = true -> valid_binary 24 128 y = true ->
  valid_binary 24 128 (SFadd 24 128 x y) = true.
Proof.
  intros Hx Hy.
  destruct x as [sx|sx| |sx mx ex], y as [sy|sy| |sy my ey]; cbn [SFadd];
    try reflexivity; try assumption; try (destruct sx, sy; reflexivity).
  apply normalize_valid.
Qed.

Lemma sub_valid x y :
  valid_binary 24 128 x = true -> valid_binary 24 128 y = true ->
  valid_binary 24 128 (SFsub 24 128 x y) = true.
Proof.
  intros Hx Hy.
  destruct x as [sx|sx| |sx mx ex], y as [sy|sy| |sy my ey]; cbn [SFsub];
    try reflexivity; try assumption; try (destruct sx, sy; reflexivity).
  apply normalize_valid.
Qed.

Lemma bitlen_ge v k : 0 <= k -> 2 ^ k <= v -> k + 1 <= bitlen v.
Proof.
  intros Hk Hv. assert (0 < v) by (pose proof (Z.pow_pos_nonneg 2 k); lia).
  pose proof (bitlen_bounds v ltac:(lia)) as [_ Hhi].
  destruct (Z_le_gt_dec (k + 1) (bitlen v)) as [|Hgt]; [assumption|exfalso].
  assert (2 ^ bitlen v <= 2 ^ k) by (apply Z.pow_le_mono_r; lia). lia.
Qed.

Lemma div_valid x y :
  valid_binary 24 128 x = true -> valid_binary 24 128 y = true ->
  valid_binary 24 128 (SFdiv 24 128 x y) = true.
Proof.
  intros Hx Hy.
  destruct x as [sx|sx| |sx mx ex], y as [sy|sy| |sy my ey]; cbn [SFdiv];
    try reflexivity.
  apply valid_finite_elim in Hx. apply valid_finite_elim in Hy.
  destruct Hx as [Hcx _]. destruct Hy as [Hcy _].
  unfold SFdiv_core_binary. cbn [Zdigits2]. rewrite !digits2_pos_bitlen, fexp32.
  set (d1 := bitlen (Zpos mx)) in *. set (d2 := bitlen (Zpos my)) in *.
  pose proof (bitlen_bounds (Zpos mx) ltac:(lia)) as [Hlo1 Hhi1]. fold d1 in Hlo1, Hhi1.
  pose proof (bitlen_bounds (Zpos my) ltac:(lia)) as [Hlo2 Hhi2]. fold d2 in Hlo2, Hhi2.
  pose proof (bitlen_pos (Zpos mx)) as Hd1. fold d1 in Hd1.
  pose proof (bitlen_pos (Zpos my)) as Hd2. fold d2 in Hd2.
  set (F := Z.max (d1 + ex - (d2 + ey) - 24) (-149)).
  set (e' := Z.min F (ex - ey)).
  set (sh := ex - ey - e').
  assert (Hsh : 0 <= sh) by (subst sh e'; lia).
  set (m' := match sh with
             | 0 => Zpos mx
             | Zpos _ => Z.shiftl (Zpos mx) sh
             | Zneg _ => 0
             end).
  assert (Hm' : m' = Zpos mx * 2 ^ sh).
  { subst m'. destruct sh as [|p|p] eqn:Es; [simpl; lia| |lia].
    apply Z.shiftl_mul_pow2. lia. }
  assert (HPs : 0 < 2 ^ sh) by (pow2_pos).
  pose proof (Z.div_eucl_eq m' (Zpos my) ltac:(lia)) as Heq.
  pose proof (Z.mod_pos_bound m' (Zpos my) ltac:(lia)) as Hmod.
  unfold Z.modulo in Hmod.
  destruct (Z.div_eucl m' (Zpos my)) as [q r] eqn:Ediv.
  assert (Hq : q = m' / Zpos my) by (unfold Z.div; rewrite Ediv; reflexivity).
  assert (Hq0 : 0 <= q) by (rewrite Hq; apply Z.div_pos; nia).
  apply round_aux_valid; [exact Hq0|].
  destruct (Z_le_gt_dec e' (-149)) as [Hle|Hgt]; [lia|].
  (* above the subnormal range the quotient has at least 24 bits *)
  assert (HF : e' = d1 + ex - (d2 + ey) - 24) by (subst e' F; lia).
  assert (Hs : sh = 24 + d2 - d1) by (subst sh; lia).
  assert (Hq23 : 2 ^ 23 <= q).
  { rewrite Hq. apply Z.div_le_lower_bound; [lia|].
    transitivity (2 ^ d2 * 2 ^ 23); [apply Z.mul_le_mono_nonneg_r; lia|].
    rewrite Hm', Hs.
    replace (24 + d2 - d1) with ((d2 + 23) - (d1 - 1) ) by lia.
    transitivity (2 ^ (d1 - 1) * 2 ^ (d2 + 23 - (d1 - 1))).
    - rewrite <- !Z.pow_add_r by lia. apply Z.pow_le_mono_r; lia.
    - apply Z.mul_le_mono_nonneg_r; lia. }
  pose proof (bitlen_ge q 23 ltac:(lia) Hq23) as Hbq.
  rewrite Zdigits2_bitlen by lia. lia.
Qed.

Lemma f32_of_Z_valid n : valid_binary 24 128 (f32_of_Z n) = true.
Proof. apply normalize_valid. Qed.

Lemma delta_valid acc off :
  valid_binary 24 128 acc = true -> valid_binary 24 128 off = true ->
  valid_binary 24 128 (delta acc off) = true.
Proof.
  intros Ha Ho. unfold delta, f32_sub, f32_div.
  apply sub_valid; [|exact Ho]. apply div_valid; [exact Ha|reflexivity].
Qed.

(** * C8: below the dead zone the tilt driver holds the heading *)

(** The literals are the binary32 numbers nearest to the decimal ones. *)
Lemma literals_rounded :
  f32_div (f32_of_Z 8) (f32_of_Z 100) = DEAD_G /\
  f32_div (f32_of_Z 18) (f32_of_Z 100) = TRIG_G /\
  f32_div (f32_of_Z 80) (f32_of_Z 100) = lit_0_80 /\
  f32_div (f32_of_Z 20) (f32_of_Z 100) = lit_0_20 /\
  f32_of_Z 1000 = lit_1000.
Proof. vm_compute. repeat split. Qed.

(** Being inside the dead zone is not by itself kept by the filter: from
    the largest number below [DEAD_G], a delta of the same size gives
    [DEAD_G] itself (0.80f + 0.20f exceeds 1). The values met from rest stay
    four steps lower, within [filterBound]. *)
Lemma smooth_at_the_edge :
  let p := S754_finite false 10737417 (-27) in
  f32_lt (fabs p) DEAD_G = true /\ smooth p p = DEAD_G /\
  smooth (S754_finite false 10737414 (-27)) p = S754_finite false 10737414 (-27).
Proof. vm_compute. repeat split. Qed.

Lemma Zle_by_leb a b : (a <=? b) = true -> a <= b.
Proof. apply Z.leb_le. Qed.

Lemma Zlt_by_ltb a b : (a <? b) = true -> a < b.
Proof. apply Z.ltb_lt. Qed.

Lemma compare_cont_Z m n : Pos.compare_cont Eq m n = (Zpos m ?= Zpos n).
Proof. reflexivity. Qed.

(** A calm delta is at most the largest number below [DEAD_G]. *)
Lemma calm_bound d : calm d -> proper d /\ Z.abs (ulps d) <= belowDead.
Proof.
  intros [Hv Hlt]. unfold f32_lt, fabs, SFltb in Hlt.
  destruct d as [s|s| |s m e]; cbn [SFabs SFcompare DEAD_G] in Hlt; try discriminate Hlt.
  - split; [split; [exact Hv|reflexivity]|]. vm_compute. discriminate.
  - split; [split; [exact Hv|reflexivity]|].
    apply valid_finite_elim in Hv. destruct Hv as [Hc _].
    rewrite ulps_abs_finite.
    pose proof (bitlen_bounds (Zpos m) ltac:(lia)) as [_ Hhi].
    assert (Hm24 : Zpos m < 2 ^ 24).
    { eapply Z.lt_le_trans; [exact Hhi|]. apply Z.pow_le_mono_r; lia. }
    unfold belowDead.
    destruct (Z.compare_spec e (-27)) as [He|He|He]; [| |discriminate Hlt].
    + subst e. change (-27 + 149) with 122.
      assert (Hm : Zpos m < 10737418).
      { rewrite compare_cont_Z in Hlt.
        destruct (Zpos m ?= 10737418) eqn:Ec; try discriminate Hlt.
        exact Ec. }
      apply Z.mul_le_mono_nonneg_r; [apply Z.pow_nonneg; lia|clear -Hm; lia].
    + assert (Hpow : 2 ^ (e + 149) <= 2 ^ 121) by (apply Z.pow_le_mono_r; lia).
      assert (0 < 2 ^ (e + 149)) by (pow2_pos).
      transitivity (2 ^ 24 * 2 ^ 121).
      * transitivity (2 ^ 24 * 2 ^ (e + 149)).
        -- apply Z.mul_le_mono_nonneg_r; lia.
        -- apply Z.mul_le_mono_nonneg_l; lia.
      * apply Zle_by_leb. vm_compute. reflexivity.
Qed.

(** A settled filter value is inside the dead zone. *)
Lemma settled_dead f : settled f -> f32_lt (fabs f) DEAD_G = true.
Proof.
  intros [[Hv Hf] Hb]. unfold f32_lt, fabs, SFltb.
  destruct f as [s|s| |s m e]; try discriminate Hf; cbn [SFabs SFcompare DEAD_G].
  - reflexivity.
  - apply valid_finite_elim in Hv. destruct Hv as [Hc _].
    rewrite ulps_abs_finite in Hb. unfold filterBound in Hb.
    pose proof (bitlen_bounds (Zpos m) ltac:(lia)) as [Hlo _].
    destruct (Z.compare_spec e (-27)) as [He|He|He]; [|reflexivity|exfalso].
    + subst e. change (-27 + 149) with 122 in Hb.
      assert (Hm : Zpos m <= 10737414).
      { apply (Z.mul_le_mono_pos_r _ _ (2 ^ 122)); [pow2_pos|exact Hb]. }
      assert (Hlt : Zpos m < 10737418) by (clear -Hm; lia).
      rewrite compare_cont_Z.
      unfold Z.lt in Hlt. rewrite Hlt. reflexivity.
    + assert (Hd : bitlen (Zpos m) = 24) by lia.
      rewrite Hd in Hlo. change (2 ^ (24 - 1)) with (2 ^ 23) in Hlo.
      assert (Hpow : 2 ^ 123 <= 2 ^ (e + 149)) by (apply Z.pow_le_mono_r; lia).
      assert (Hbig : 2 ^ 23 * 2 ^ 123 <= Zpos m * 2 ^ (e + 149)).
      { transitivity (2 ^ 23 * 2 ^ (e + 149)).
        - apply Z.mul_le_mono_nonneg_l; lia.
        - apply Z.mul_le_mono_nonneg_r; [apply Z.pow_nonneg; lia|lia]. }
      assert (Hc2 : 10737414 * 2 ^ 122 < 2 ^ 23 * 2 ^ 123).
      { apply Zlt_by_ltb. vm_compute. reflexivity. }
      lia.
Qed.

(** One filter update keeps the value settled when the delta is calm: the
    bound is a fixed point of the rounded update at the largest calm
    delta, and rounding is monotone. *)
Lemma smooth_settled f d : settled f -> calm d -> settled (smooth f d).
Proof.
  intros [Hf Hfb] Hd. destruct (calm_bound d Hd) as [Hdp Hdb].
  unfold smooth, f32_add, f32_mul, lit_0_80, lit_0_20.
  assert (HfA : Z.abs (ulps f) * 13421773 <= filterBound * 13421773).
  { apply Z.mul_le_mono_nonneg_r; lia. }
  assert (HdB : Z.abs (ulps d) * 13421773 <= belowDead * 13421773).
  { apply Z.mul_le_mono_nonneg_r; lia. }
  assert (HcA : filterBound * 13421773 < 2 ^ (149 - -24)).
  { apply Zlt_by_ltb. vm_compute. reflexivity. }
  assert (HcB : belowDead * 13421773 < 2 ^ (149 - -26)).
  { apply Zlt_by_ltb. vm_compute. reflexivity. }
  destruct (mul_lit_proper f 13421773 (-24)) as [Hxp Hxu];
    [vm_compute; discriminate|lia|exact Hf|lia|].
  destruct (mul_lit_proper d 13421773 (-26)) as [Hyp Hyu];
    [vm_compute; discriminate|lia|exact Hdp|lia|].
  set (x := SFmul 24 128 f (S754_finite false 13421773 (-24))) in *.
  set (y := SFmul 24 128 d (S754_finite false 13421773 (-26))) in *.
  assert (Hxb : Z.abs (ulps x) <= roundUlps 24 (filterBound * 13421773)).
  { rewrite Hxu. apply roundUlps_mono; [lia|].
    split; [apply Z.mul_nonneg_nonneg; lia|exact HfA]. }
  assert (Hyb : Z.abs (ulps y) <= roundUlps 26 (belowDead * 13421773)).
  { rewrite Hyu. apply roundUlps_mono; [lia|].
    split; [apply Z.mul_nonneg_nonneg; lia|exact HdB]. }
  set (XA := roundUlps 24 (filterBound * 13421773)) in *.
  set (YB := roundUlps 26 (belowDead * 13421773)) in *.
  assert (Hsum : Z.abs (ulps x + ulps y) <= XA + YB).
  { pose proof (Z.abs_triangle (ulps x) (ulps y)). lia. }
  assert (Hc1 : XA + YB < 2 ^ 149).
  { apply Zlt_by_ltb. vm_compute. reflexivity. }
  assert (Hfix : roundUlps 0 (XA + YB) <= filterBound).
  { apply Zle_by_leb. vm_compute. reflexivity. }
  destruct (add_proper x y Hxp Hyp ltac:(lia)) as [Hrp Hru].
  split; [exact Hrp|]. rewrite Hru.
  transitivity (roundUlps 0 (XA + YB)); [|exact Hfix].
  apply roundUlps_mono; [lia|]. split; [apply Z.abs_nonneg|exact Hsum].
Qed.

Lemma settled_zero : settled lit_0.
Proof. split; [split; reflexivity|]. vm_compute. discriminate. Qed.

Lemma readTrace_quiet current samples : forall s,
  settled (fx s) -> settled (fy s) ->
  Forall (quiet (ax0 s) (ay0 s)) samples ->
  Forall (fun r => fst r = current /\ inDeadZone (snd r) = true)
         (readTrace samples current s).
Proof.
  induction samples as [|[accX accY] rest IH]; intros s Hx Hy Hq.
  - constructor.
  - apply Forall_cons in Hq. destruct Hq as [[Hcx Hcy] Hrest].
    cbn [fst snd] in Hcx, Hcy. cbn [readTrace readDir].
    pose proof (smooth_settled _ _ Hx Hcx) as Hx'.
    pose proof (smooth_settled _ _ Hy Hcy) as Hy'.
    apply List.Forall_cons.
    + cbn [fst snd fx fy]. unfold inDeadZone. cbn [fx fy].
      rewrite (settled_dead _ Hx'), (settled_dead _ Hy'). split; [|reflexivity].
      apply pick_dead_zone; apply settled_dead; assumption.
    + apply IH; cbn [fx fy ax0 ay0]; assumption.
Qed.

Lemma calibrateZero_filters cal s :
  fx (calibrateZero cal s) = fx s /\ fy (calibrateZero cal s) = fy s.
Proof.
  unfold calibrateZero.
  destruct (fold_left _ _ _) as [sx sy]. split; reflexivity.
Qed.

Lemma calibration_sums_valid l : forall sx sy,
  Forall validSample l ->
  valid_binary 24 128 sx = true -> valid_binary 24 128 sy = true ->
  validSample
    (fold_left (fun '(sx, sy) '(accX, accY) =>
                  (f32_add sx (f32_div accX lit_1000),
                   f32_add sy (f32_div accY lit_1000))) l (sx, sy)).
Proof.
  induction l as [|[accX accY] l IH]; intros sx sy Hl Hsx Hsy.
  - split; assumption.
  - apply Forall_cons in Hl. destruct Hl as [[Hax Hay] Hl]. cbn [fst snd] in Hax, Hay.
    cbn [fold_left]. apply IH; [exact Hl| |]; unfold f32_add, f32_div;
      (apply add_valid; [assumption|apply div_valid; [assumption|reflexivity]]).
Qed.

Lemma calibrateZero_valid cal s :
  Forall validSample cal ->
  valid_binary 24 128 (ax0 (calibrateZero cal s)) = true /\
  valid_binary 24 128 (ay0 (calibrateZero cal s)) = true.
Proof.
  intros Hcal. unfold calibrateZero.
  pose proof (calibration_sums_valid (take (Z.to_nat 50) cal) lit_0 lit_0
                (Forall_take _ _ _ Hcal) eq_refl eq_refl) as Hsum.
  destruct (fold_left _ _ _) as [sx sy]. destruct Hsum as [Hsx Hsy].
  cbn [fst snd ax0 ay0] in *. unfold f32_div.
  split; (apply div_valid; [assumption|apply f32_of_Z_valid]).
Qed.

Lemma quiet_intro ox oy sample :
  valid_binary 24 128 ox = true -> valid_binary 24 128 oy = true ->
  validSample sample -> belowDeadZone ox oy sample -> quiet ox oy sample.
Proof.
  intros Hox Hoy [Hvx Hvy] [Hbx Hby].
  split; (split; [apply delta_valid; assumption|assumption]).
Qed.

(** C8. After calibration on well-formed samples (filters still at 0.0f),
    if every later sample is well-formed and its two deltas against the
    calibration offsets are below [DEAD_G] in magnitude, then every one of
    the calls of [readDir], however many, returns the heading it was given,
    and after every call both smoothed values are inside the dead zone. *)
Theorem dead_zone_holds_heading cal samples current :
  let s := snd (beginIMU true cal imu0) in
  Forall validSample cal -> Forall validSample samples ->
  Forall (belowDeadZone (ax0 s) (ay0 s)) samples ->
  Forall (fun r => fst r = current /\ inDeadZone (snd r) = true)
         (readTrace samples current s).
Proof.
  intros s Hcal Hvalid Hbelow. subst s. cbn [beginIMU snd] in *.
  destruct (calibrateZero_valid cal imu0 Hcal) as [Hox Hoy].
  apply readTrace_quiet.
  - rewrite (proj1 (calibrateZero_filters cal imu0)). exact settled_zero.
  - rewrite (proj2 (calibrateZero_filters cal imu0)). exact settled_zero.
  - rewrite Forall_forall in *. intros sample Hin.
    apply quiet_intro; [exact Hox|exact Hoy|apply Hvalid; exact Hin|apply Hbelow; exact Hin].
Qed.

(** Calibration at rest reading (10, -20) milli-g, then three samples that
    stay within 0.08 g of it, heading LEFT. *)
Lemma dead_zone_holds_heading_witness :
  let cal := repeat (f32_of_Z 10, f32_of_Z (-20)) 50 in
  let samples := [(f32_of_Z 60, f32_of_Z (-50));
                  (f32_of_Z 85, f32_of_Z 55);
                  (f32_of_Z (-65), f32_of_Z (-20))] in
  Forall (fun r => fst r = LEFT /\ inDeadZone (snd r) = true)
         (readTrace samples LEFT (snd (beginIMU true cal imu0))).
Proof.
  intros cal samples.
  apply (dead_zone_holds_heading cal samples LEFT).
  - apply Forall_forall. intros sample Hin. apply list_elem_of_In in Hin.
    apply repeat_spec in Hin. subst sample. split; reflexivity.
  - repeat (apply List.Forall_cons; [split; reflexivity|]). apply List.Forall_nil.
  - repeat (apply List.Forall_cons; [split; vm_compute; reflexivity|]).
    apply List.Forall_nil.
Defined.

(** * Further properties of the engine *)

(** ** Apple placement *)

Lemma spawnLoop_Some g rs : forall p rs',
  spawnLoop g rs = Some (p, rs') ->
  inGrid p /\ snakeHas g (px p) (py p) = false /\
  exists k, (length rs = length rs' + 2 * S k)%nat.
Proof.
  assert (Hboth : forall rs,
            (forall p rs', spawnLoop g rs = Some (p, rs') ->
               inGrid p /\ snakeHas g (px p) (py p) = false /\
               exists k, (length rs = length rs' + 2 * S k)%nat) /\
            (forall r p rs', spawnLoop g (r :: rs) = Some (p, rs') ->
               inGrid p /\ snakeHas g (px p) (py p) = false /\
               exists k, (length (r :: rs) = length rs' + 2 * S k)%nat)).
  { clear rs. intros rs. induction rs as [|a rs [IH1 IH2]].
    - split; intros; discriminate.
    - split; [apply IH2|]. intros r p rs' Hs. cbn [spawnLoop] in Hs.
      pose proof (random_range r) as Hr. pose proof (random_range a) as Ha.
      change (random 0 8 r) with (random 0 W r) in Hr.
      change (random 0 8 a) with (random 0 H a) in Ha.
      destruct (snakeHas g (random 0 W r) (random 0 H a)) eqn:Hhas.
      + destruct (IH1 p rs' Hs) as [Hin [Hfree [k Hk]]].
        split; [exact Hin|]. split; [exact Hfree|].
        exists (S k). rewrite !length_cons. lia.
      + injection Hs as <- <-. cbn [px py].
        rewrite !int8_small by lia.
        split; [unfold inGrid, W, H in *; cbn [px py]; lia|]. split; [exact Hhas|].
        exists 0%nat. rewrite !length_cons. lia. }
  intros p rs'. apply Hboth.
Qed.

Lemma body_set_apple p g : body (set_apple p g) = body g.
Proof. reflexivity. Qed.

Lemma body_speedUp g : body (speedUp g) = body g.
Proof. unfold body. destruct (speedUp_snake g) as [-> ->]. reflexivity. Qed.

Lemma apple_speedUp g : apple (speedUp g) = apple g.
Proof. unfold speedUp. destruct (stepMs g >? 90); reflexivity. Qed.

Lemma apple_moved g : apple (moved g) = apple g.
Proof.
  unfold moved, turned.
  destruct (ate g && (len (set_dir (heading g) g) <? NUM_LEDS)); reflexivity.
Qed.

Lemma spawnApple_appleFree g h g' h' :
  spawnApple g h = Some (g', h') ->
  appleFree g' /\ g' = set_apple (apple g') g /\ log h' = log h /\
  exists k, (length (rng h) = length (rng h') + 2 * S k)%nat.
Proof.
  unfold spawnApple. destruct (spawnLoop g (rng h)) as [[p rs]|] eqn:Hs; [|discriminate].
  intros [= <- <-]. destruct (spawnLoop_Some g (rng h) p rs Hs) as [Hin [Hfree Hk]].
  split; [split; [exact Hin|]|split; [reflexivity|split; [reflexivity|exact Hk]]].
  cbn [apple set_apple]. rewrite body_set_apple. intros Hc.
  apply snakeHas_In in Hc. congruence.
Qed.

(** X1. [spawnApple] returns only with the apple on a grid cell that is
    not under the snake; it changes nothing else in the game, logs nothing
    and uses up a positive even number of generator outputs. *)
Theorem spawnApple_picks_a_free_cell g h g' h' :
  spawnApple g h = Some (g', h') ->
  appleFree g' /\ g' = set_apple (apple g') g /\ log h' = log h /\
  exists k, (length (rng h) = length (rng h') + 2 * S k)%nat.
Proof. exact (spawnApple_appleFree g h g' h'). Qed.

Lemma ate_false_apple g : ate g = false -> nextCell g <> apple g.
Proof.
  unfold ate. intros Ha Heq. rewrite Heq, !Z.eqb_refl in Ha. discriminate Ha.
Qed.

Lemma ate_true_apple g : ate g = true -> nextCell g = apple g.
Proof.
  unfold ate. intros Ha. apply andb_true_iff in Ha. destruct Ha as [Hx Hy].
  apply Z.eqb_eq in Hx. apply Z.eqb_eq in Hy.
  destruct (nextCell g), (apple g). simpl in Hx, Hy. congruence.
Qed.

Lemma take_pred_body g :
  take (Z.to_nat (len g - 1)) (snake g) = take (Z.to_nat (len g - 1)) (body g).
Proof. unfold body. rewrite take_take. f_equal. lia. Qed.

Lemma appleFree_step g h g' h' :
  wf g -> appleFree g -> step g h = Some (g', h') -> appleFree g'.
Proof.
  intros Hwf [Hin Hfree] Hs. apply step_cases in Hs.
  destruct Hs as [[_ [-> _]]|[[Ho [Hb [Ha [-> _]]]]|[Ho [Hb [Ha [p [rs [Hsp [-> _]]]]]]]]].
  - split; assumption.
  - split; [rewrite apple_moved; exact Hin|].
    rewrite apple_moved, (body_moved g (wf_array g Hwf) (wf_len g Hwf)), Ha.
    cbn [andb]. intros [Heq|Htl].
    + apply (ate_false_apple g Ha). exact Heq.
    + apply Hfree. rewrite take_pred_body in Htl. eapply In_take. exact Htl.
  - destruct (spawnLoop_Some _ _ _ _ Hsp) as [Hpin [Hpfree _]].
    unfold appleFree. rewrite apple_speedUp, body_speedUp, body_set_apple.
    cbn [apple set_apple].
    split; [exact Hpin|]. intros Hc. apply snakeHas_In in Hc. congruence.
Qed.

Lemma appleFree_same g g' :
  apple g' = apple g -> snake g' = snake g -> len g' = len g ->
  appleFree g -> appleFree g'.
Proof. unfold appleFree, body. intros -> -> ->. tauto. Qed.

Lemma appleFree_update t g h g' h' :
  wf g -> appleFree g -> update t g h = Some (g', h') -> appleFree g'.
Proof.
  intros Hwf Hfree Hu. unfold update in Hu. destruct (gameOverFlag g).
  - injection Hu as <- _. exact Hfree.
  - apply bind_Some in Hu. destruct Hu as [g1 [h1 [Hs Hd]]]. injection Hd as <- _.
    destruct (uint32 (millis t - lastStep g) >=? stepMs g).
    + eapply (appleFree_step (set_lastStep (millis t) g)); [| |exact Hs].
      * apply (wf_same_snake g); [reflexivity|reflexivity|exact Hwf].
      * exact Hfree.
    + injection Hs as <- _. exact Hfree.
Qed.

Lemma appleFree_reset t g h g' h' : reset t g h = Some (g', h') -> appleFree g'.
Proof.
  unfold reset. intros Hr. apply bind_Some in Hr. destruct Hr as [g1 [h1 [Hsp Hd]]].
  injection Hd as <- _. apply (spawnApple_appleFree _ _ _ _ Hsp).
Qed.

Lemma reachable_appleFree g : reachable g -> appleFree g.
Proof.
  induction 1 as [t h g h' Hr | t h g g' h' _ IH Hr | d g _ IH | t h g g' h' Hg IH Hu].
  - eapply appleFree_reset. exact Hr.
  - eapply appleFree_reset. exact Hr.
  - exact IH.
  - eapply appleFree_update; [apply reachable_wf; exact Hg|exact IH|exact Hu].
Qed.

(** X2. In every reachable state the apple is on the grid and not under
    the snake. *)
Theorem apple_never_under_snake g : reachable g -> appleFree g.
Proof. exact (reachable_appleFree g). Qed.

Lemma spawnApple_picks_a_free_cell_witness :
  appleFree (set_apple (mkPoint 5 4) gameStart) /\
  set_apple (mkPoint 5 4) gameStart =
    set_apple (apple (set_apple (mkPoint 5 4) gameStart)) gameStart /\
  log (mkHw [] []) = log (mkHw [3; 4; 5; 4] []) /\
  exists k, length (rng (mkHw [3; 4; 5; 4] [])) =
            (length (rng (mkHw [] [])) + 2 * S k)%nat.
Proof.
  apply (spawnApple_picks_a_free_cell gameStart (mkHw [3; 4; 5; 4] [])
           (set_apple (mkPoint 5 4) gameStart) (mkHw [] [])).
  reflexivity.
Defined.

Lemma apple_never_under_snake_witness : appleFree gameStart.
Proof. apply (apple_never_under_snake gameStart). exact gameStart_reachable. Defined.

(** ** When the game ends *)

Lemma eating_not_blocked g : appleFree g -> ate g = true -> blocked g = false.
Proof.
  intros [_ Hfree] Ha. unfold blocked. rewrite Ha.
  destruct (snakeHas g (px (nextCell g)) (py (nextCell g))) eqn:Hs; [|reflexivity].
  exfalso. apply Hfree. rewrite <- (ate_true_apple g Ha). apply snakeHas_In. exact Hs.
Qed.

Lemma gameOverFlag_step g h g' h' :
  gameOverFlag g = false -> step g h = Some (g', h') ->
  gameOverFlag g' = outside (nextCell g) || blocked g.
Proof.
  intros Hrun Hs.
  destruct (outside (nextCell g)) eqn:Ho.
  { rewrite step_game_over in Hs by (left; exact Ho). injection Hs as <- _. reflexivity. }
  destruct (blocked g) eqn:Hb.
  { rewrite step_game_over in Hs by (right; exact Hb). injection Hs as <- _. reflexivity. }
  apply (gameOverFlag_step_no_collision g h g' h' Hrun Ho Hb Hs).
Qed.

(** X3. From a reachable RUNNING state, [update] ends the game exactly
    when a step is due and the next head cell is off the grid or is a body
    cell other than the tail. Reaching the apple never ends the game: the
    whole-body test of an eating move cannot hit. *)
Theorem game_ends_on_wall_or_body g t h g' h' :
  reachable g -> gameOverFlag g = false -> update t g h = Some (g', h') ->
  (gameOverFlag g' = true <->
   due t g = true /\
   (outside (nextCell g) = true \/ In (nextCell g) (removelast (body g)))) /\
  (ate g = true -> gameOverFlag g' = false).
Proof.
  intros Hg Hrun Hu.
  pose proof (reachable_wf g Hg) as Hwf.
  pose proof (reachable_appleFree g Hg) as Hfree.
  assert (Hlen : (Z.to_nat (len g) <= length (snake g))%nat).
  { rewrite (wf_array g Hwf). pose proof (wf_len g Hwf). lia. }
  assert (Hblk : blocked g = true <-> In (nextCell g) (removelast (body g))).
  { destruct (ate g) eqn:Ha.
    - rewrite (eating_not_blocked g Hfree Ha). split; [discriminate|].
      intros Hin. exfalso. destruct Hfree as [_ Hfree]. apply Hfree.
      rewrite <- (ate_true_apple g Ha).
      rewrite <- take_pred_removelast, take_pred_body in Hin by exact Hlen.
      eapply In_take. exact Hin.
    - unfold blocked. rewrite Ha.
      rewrite snakeHasExceptTail_In, take_pred_removelast by exact Hlen. tauto. }
  assert (Hout : forall p, outside p = true -> p <> apple g).
  { intros p Ho Heq. subst p. destruct Hfree as [Hin _].
    unfold outside, inGrid, W, H in *.
    rewrite !orb_true_iff in Ho. lia. }
  unfold update in Hu. rewrite Hrun in Hu. unfold due.
  apply bind_Some in Hu. destruct Hu as [g1 [h1 [Hs Hd]]]. injection Hd as <- _.
  destruct (uint32 (millis t - lastStep g) >=? stepMs g).
  - pose proof (gameOverFlag_step (set_lastStep (millis t) g) h g1 h1 Hrun Hs) as Hf.
    change (nextCell (set_lastStep (millis t) g)) with (nextCell g) in Hf.
    change (blocked (set_lastStep (millis t) g)) with (blocked g) in Hf.
    rewrite Hf, orb_true_iff, Hblk. split; [tauto|].
    intros Ha. rewrite (eating_not_blocked g Hfree Ha), orb_false_r.
    destruct (outside (nextCell g)) eqn:Ho; [|reflexivity].
    exfalso. apply (Hout _ Ho). apply ate_true_apple. exact Ha.
  - injection Hs as <- _. rewrite Hrun. split; [|reflexivity].
    split; [discriminate|]. intros [Hc _]. discriminate Hc.
Qed.

Lemma game_ends_on_wall_or_body_witness :
  let h := mkHw [5; 4] [] in
  let g' := speedUp (set_apple (mkPoint 5 4) (moved (set_lastStep (millis 300) gameStart))) in
  let h' := mkHw [] [EatApple; DrawFrame (apple g') (body g')] in
  (gameOverFlag g' = true <->
   due 300 gameStart = true /\
   (outside (nextCell gameStart) = true \/
    In (nextCell gameStart) (removelast (body gameStart)))) /\
  (ate gameStart = true -> gameOverFlag g' = false).
Proof.
  intros h g' h'.
  apply (game_ends_on_wall_or_body gameStart 300 h g' h').
  - exact gameStart_reachable.
  - reflexivity.
  - reflexivity.
Defined.

(** ** Turning *)

Lemma dir_step g h g' h' : step g h = Some (g', h') -> dir g' = heading g.
Proof.
  intros Hs. apply step_cases in Hs.
  assert (Hm : dir (moved g) = heading g).
  { unfold moved, turned.
    destruct (ate g && (len (set_dir (heading g) g) <? NUM_LEDS)); reflexivity. }
  destruct Hs as [[_ [-> _]]|[[_ [_ [_ [-> _]]]]|[_ [_ [_ [p [rs [_ [-> _]]]]]]]]].
  - reflexivity.
  - exact Hm.
  - unfold speedUp. destruct (stepMs _ >? 90); exact Hm.
Qed.

(** X4. No [update] turns the snake round: the direction after it is never
    the opposite of the direction before, whatever was passed to
    [setPending]; a pending direction that is not the opposite of the
    current one is adopted by the step that a due [update] runs. *)
Theorem update_never_reverses d t g h g' h' :
  update t (setPending d g) h = Some (g', h') ->
  opposite (dir g) (dir g') = false /\
  (gameOverFlag g = false -> due t g = true -> opposite (dir g) d = false ->
   dir g' = d).
Proof.
  intros Hu. unfold update in Hu. cbn [gameOverFlag setPending set_pending] in Hu.
  unfold due. destruct (gameOverFlag g).
  - injection Hu as <- _. split; [apply opposite_irrefl|discriminate].
  - apply bind_Some in Hu. destruct Hu as [g1 [h1 [Hs Hd]]]. injection Hd as <- _.
    cbn [lastStep stepMs setPending set_pending] in Hs.
    destruct (uint32 (millis t - lastStep g) >=? stepMs g).
    + apply dir_step in Hs. rewrite Hs.
      split; [apply (heading_not_opposite (set_lastStep (millis t) (setPending d g)))|].
      intros _ _ Hop. unfold heading. cbn [dir pending set_lastStep setPending set_pending].
      rewrite Hop. reflexivity.
    + injection Hs as <- _. split; [apply opposite_irrefl|discriminate].
Qed.

Lemma update_never_reverses_witness :
  let h := mkHw [] [] in
  let g' := moved (set_lastStep (millis 300) (setPending UP gameStart)) in
  let h' := mkHw [] [DrawFrame (apple g') (body g')] in
  opposite (dir gameStart) (dir g') = false /\
  (gameOverFlag gameStart = false -> due 300 gameStart = true ->
   opposite (dir gameStart) UP = false -> dir g' = UP).
Proof.
  intros h g' h'.
  apply (update_never_reverses UP 300 gameStart h g' h'). reflexivity.
Defined.

(** ** The body is a path *)

Lemma chain_take l : forall n, chain l -> chain (take n l).
Proof.
  induction l as [|p l IH]; intros n Hc; [destruct n; exact I|].
  destruct n as [|n]; [exact I|]. cbn [take].
  destruct l as [|q l]; [destruct n; exact I|].
  destruct Hc as [Ha Hc]. specialize (IH n Hc).
  destruct n as [|n]; [exact I|]. cbn [take] in *. split; [exact Ha|exact IH].
Qed.

Lemma adjacent_advance d p : inGrid p -> adjacent (advance d p) p.
Proof.
  unfold inGrid, W, H, adjacent. intros Hp.
  destruct d; cbn [advance px py]; rewrite int8_small by lia; lia.
Qed.

Lemma body_head g : wf g -> exists tl, body g = cell (snake g) 0 :: tl.
Proof.
  intros Hwf. pose proof (wf_len g Hwf) as Hlen. pose proof (wf_array g Hwf) as Harr.
  unfold body, cell. destruct (snake g) as [|c0 rest]; [discriminate Harr|].
  replace (Z.to_nat (len g)) with (S (Z.to_nat (len g - 1))) by lia.
  cbn. eexists. reflexivity.
Qed.

Lemma chain_moved g : wf g -> chain (body g) -> chain (body (moved g)).
Proof.
  intros Hwf Hc.
  rewrite (body_moved g (wf_array g Hwf) (wf_len g Hwf)).
  destruct (body_head g Hwf) as [tl Hb].
  assert (Hhd : inGrid (cell (snake g) 0)).
  { pose proof (wf_grid g Hwf) as Hgrid. rewrite Hb in Hgrid.
    apply Forall_cons in Hgrid. tauto. }
  assert (Hadj : adjacent (nextCell g) (cell (snake g) 0)).
  { apply adjacent_advance. exact Hhd. }
  destruct (ate g && (len g <? NUM_LEDS)).
  - rewrite Hb in *. split; [exact Hadj|exact Hc].
  - rewrite take_pred_body, Hb.
    pose proof (wf_len g Hwf) as Hlen.
    replace (Z.to_nat (len g - 1)) with (S (Z.to_nat (len g - 2))) by lia.
    cbn [take]. split; [exact Hadj|].
    rewrite Hb in Hc.
    apply (chain_take (cell (snake g) 0 :: tl) (S (Z.to_nat (len g - 2))) Hc).
Qed.

Lemma chain_step g h g' h' :
  wf g -> chain (body g) -> step g h = Some (g', h') -> chain (body g').
Proof.
  intros Hwf Hc Hs. apply step_cases in Hs.
  destruct Hs as [[_ [-> _]]|[[_ [_ [_ [-> _]]]]|[_ [_ [_ [p [rs [_ [-> _]]]]]]]]].
  - exact Hc.
  - apply chain_moved; assumption.
  - rewrite body_speedUp, body_set_apple. apply chain_moved; assumption.
Qed.

(** X5. In every reachable state the body is a path on the grid: each
    cell is exactly one step along a row or a column from the next one. *)
Theorem body_is_a_path g : reachable g -> chain (body g).
Proof.
  induction 1 as [t h g h' Hr | t h g g' h' Hg IH Hr | d g _ IH | t h g g' h' Hg IH Hu].
  - unfold reset in Hr. apply bind_Some in Hr. destruct Hr as [g1 [h1 [Hsp Hd]]].
    injection Hd as <- _. apply spawnApple_Some in Hsp. destruct Hsp as [p ->].
    vm_compute. repeat split.
  - pose proof (wf_array g (reachable_wf g Hg)) as Harr.
    unfold reset in Hr. apply bind_Some in Hr. destruct Hr as [g1 [h1 [Hsp Hd]]].
    injection Hd as <- _. apply spawnApple_Some in Hsp. destruct Hsp as [p ->].
    destruct (snake g) as [|c0 [|c1 [|c2 rest]]] eqn:E;
      try (simpl in Harr; discriminate Harr).
    unfold body. simpl. rewrite E. simpl. unfold adjacent. simpl. repeat split.
  - exact IH.
  - pose proof (reachable_wf g Hg) as Hwf.
    unfold update in Hu. destruct (gameOverFlag g).
    + injection Hu as <- _. exact IH.
    + apply bind_Some in Hu. destruct Hu as [g1 [h1 [Hs Hd]]]. injection Hd as <- _.
      destruct (uint32 (millis t - lastStep g) >=? stepMs g).
      * eapply (chain_step (set_lastStep (millis t) g)); [| |exact Hs].
        -- apply (wf_same_snake g); [reflexivity|reflexivity|exact Hwf].
        -- exact IH.
      * injection Hs as <- _. exact IH.
Qed.

Lemma body_is_a_path_witness : chain (body gameStart).
Proof. apply (body_is_a_path gameStart). exact gameStart_reachable. Defined.

(** ** The length never reaches 64 *)

Lemma allCells_spec p : inGrid p -> p ∈ allCells.
Proof.
  intros [Hx Hy]. apply list_elem_of_In. unfold allCells.
  apply in_flat_map. exists (px p). split.
  - apply list_elem_of_In, elem_of_seqZ. unfold W in *. lia.
  - apply in_map_iff. exists (py p). split; [destruct p; reflexivity|].
    apply list_elem_of_In, elem_of_seqZ. unfold H in *. lia.
Qed.

(** A snake of 64 distinct grid cells lies on every cell. *)
Lemma full_snake_covers g : wf g -> len g = NUM_LEDS -> covered g = true.
Proof.
  intros Hwf Hlen.
  assert (Hsub : body g ⊆+ allCells).
  { apply NoDup_submseteq; [apply (wf_distinct g Hwf)|].
    intros p Hp. apply allCells_spec.
    pose proof (wf_grid g Hwf) as Hgrid. rewrite Forall_forall in Hgrid.
    apply Hgrid. exact Hp. }
  assert (Hperm : body g ≡ₚ allCells).
  { apply submseteq_length_Permutation; [exact Hsub|].
    change (length allCells) with 64%nat.
    unfold body. rewrite length_take, (wf_array g Hwf), Hlen.
    change NUM_LEDS with 64. lia. }
  unfold covered. apply forallb_forall. intros x Hx. apply forallb_forall. intros y Hy.
  apply (snakeHas_In g (mkPoint x y)). apply list_elem_of_In. rewrite Hperm.
  apply list_elem_of_In. unfold allCells. apply in_flat_map. exists x.
  split; [exact Hx|]. apply in_map. exact Hy.
Qed.

Lemma len_step_le g h g' h' :
  wf g -> 3 <= len g <= 63 -> step g h = Some (g', h') -> 3 <= len g' <= 63.
Proof.
  intros Hwf Hlen Hs. apply step_cases in Hs.
  destruct Hs as [[_ [-> _]]|[[_ [_ [Ha [-> _]]]]|[Ho [Hb [Ha [p [rs [Hsp [-> _]]]]]]]]].
  - exact Hlen.
  - rewrite (len_moved g (wf_len g Hwf)), Ha. exact Hlen.
  - rewrite (proj2 (speedUp_snake _)). cbn [len set_apple].
    pose proof (wf_moved g Hwf Ho Hb) as Hwf'.
    pose proof (wf_len _ Hwf') as Hlen'.
    destruct (Z.eq_dec (len (moved g)) NUM_LEDS) as [Hfull|Hne].
    + rewrite (spawnLoop_covered _ (full_snake_covers _ Hwf' Hfull)) in Hsp. discriminate Hsp.
    + change NUM_LEDS with 64 in *. lia.
Qed.

Lemma reachable_len_bounds g : reachable g -> 3 <= len g <= 63.
Proof.
  induction 1 as [t h g h' Hr | t h g g' h' Hg IH Hr | d g _ IH | t h g g' h' Hg IH Hu].
  - unfold reset in Hr. apply bind_Some in Hr. destruct Hr as [g1 [h1 [Hsp Hd]]].
    injection Hd as <- _. apply spawnApple_Some in Hsp. destruct Hsp as [p ->].
    cbn. lia.
  - unfold reset in Hr. apply bind_Some in Hr. destruct Hr as [g1 [h1 [Hsp Hd]]].
    injection Hd as <- _. apply spawnApple_Some in Hsp. destruct Hsp as [p ->].
    cbn. lia.
  - exact IH.
  - pose proof (reachable_wf g Hg) as Hwf.
    unfold update in Hu. destruct (gameOverFlag g).
    + injection Hu as <- _. exact IH.
    + apply bind_Some in Hu. destruct Hu as [g1 [h1 [Hs Hd]]]. injection Hd as <- _.
      destruct (uint32 (millis t - lastStep g) >=? stepMs g).
      * eapply (len_step_le (set_lastStep (millis t) g)); [|exact IH|exact Hs].
        apply (wf_same_snake g); [reflexivity|reflexivity|exact Hwf].
      * injection Hs as <- _. exact IH.
Qed.

(** X6. No reachable state has 64 cells: every reachable length is between
    3 and 63. When a reachable RUNNING snake of 63 cells is about to reach
    the apple, the step never returns, whatever the generator produces. *)
Theorem length_64_is_never_reached g :
  reachable g ->
  3 <= len g <= 63 /\
  (gameOverFlag g = false -> len g = 63 -> ate g = true ->
   forall t h, due t g = true -> update t g h = None).
Proof.
  intros Hg. split; [exact (reachable_len_bounds g Hg)|].
  intros Hrun H63 Ha t h Hdue.
  pose proof (reachable_wf g Hg) as Hwf.
  pose proof (reachable_appleFree g Hg) as Hfree.
  assert (Ho : outside (nextCell g) = false).
  { rewrite (ate_true_apple g Ha). destruct Hfree as [Hin _].
    unfold outside, inGrid, W, H in *. rewrite !orb_false_iff.
    repeat split; try (apply Z.ltb_ge; lia);
      (destruct (Z.geb_spec (px (apple g)) 8); [lia|]);
      (destruct (Z.geb_spec (py (apple g)) 8); [lia|]); reflexivity. }
  pose proof (eating_not_blocked g Hfree Ha) as Hb.
  apply update_hangs; try assumption.
  - apply Z.geb_le. exact Hdue.
  - apply full_snake_covers; [apply wf_moved; assumption|].
    rewrite (len_moved g (wf_len g Hwf)), Ha, H63. reflexivity.
Qed.

Lemma length_64_is_never_reached_witness :
  3 <= len gameStart <= 63 /\
  (gameOverFlag gameStart = false -> len gameStart = 63 -> ate gameStart = true ->
   forall t h, due t gameStart = true -> update t gameStart h = None).
Proof. apply (length_64_is_never_reached gameStart). exact gameStart_reachable. Defined.

(** ** Speed as a function of length *)

Lemma len_stepMs_step g h g' h' :
  wf g -> 3 <= len g <= 63 -> stepMs g = Z.max 84 (300 - 12 * (len g - 3)) ->
  step g h = Some (g', h') ->
  stepMs g' = Z.max 84 (300 - 12 * (len g' - 3)).
Proof.
  intros Hwf Hlen Hrel Hs. apply step_cases in Hs.
  destruct Hs as [[_ [-> _]]|[[_ [_ [Ha [-> _]]]]|[_ [_ [Ha [p [rs [_ [-> _]]]]]]]]].
  - exact Hrel.
  - rewrite stepMs_moved, (len_moved g (wf_len g Hwf)), Ha. exact Hrel.
  - rewrite (proj2 (speedUp_snake _)). cbn [len set_apple].
    rewrite stepMs_speedUp; cbn [stepMs set_apple]; rewrite stepMs_moved; [|lia].
    rewrite (len_moved g (wf_len g Hwf)), Ha.
    assert ((len g <? NUM_LEDS) = true) as -> by (apply Z.ltb_lt; change NUM_LEDS with 64; lia).
    cbn [andb]. destruct (stepMs g >? 90) eqn:E.
    + apply Z.gtb_lt in E. lia.
    + assert (stepMs g <= 90) by (destruct (Z.gtb_spec (stepMs g) 90); [discriminate|lia]).
      lia.
Qed.

(** X7. In every reachable state the step interval is determined by the
    length: 300 ms less 12 ms per cell gained since the start, and 84 ms
    from 21 cells on. *)
Theorem speed_follows_length g :
  reachable g -> stepMs g = Z.max 84 (300 - 12 * (len g - 3)).
Proof.
  induction 1 as [t h g h' Hr | t h g g' h' Hg IH Hr | d g _ IH | t h g g' h' Hg IH Hu].
  - unfold reset in Hr. apply bind_Some in Hr. destruct Hr as [g1 [h1 [Hsp Hd]]].
    injection Hd as <- _. apply spawnApple_Some in Hsp. destruct Hsp as [p ->].
    reflexivity.
  - unfold reset in Hr. apply bind_Some in Hr. destruct Hr as [g1 [h1 [Hsp Hd]]].
    injection Hd as <- _. apply spawnApple_Some in Hsp. destruct Hsp as [p ->].
    reflexivity.
  - exact IH.
  - pose proof (reachable_wf g Hg) as Hwf.
    pose proof (reachable_len_bounds g Hg) as Hlen.
    unfold update in Hu. destruct (gameOverFlag g).
    + injection Hu as <- _. exact IH.
    + apply bind_Some in Hu. destruct Hu as [g1 [h1 [Hs Hd]]]. injection Hd as <- _.
      destruct (uint32 (millis t - lastStep g) >=? stepMs g).
      * eapply (len_stepMs_step (set_lastStep (millis t) g)); [|exact Hlen|exact IH|exact Hs].
        apply (wf_same_snake g); [reflexivity|reflexivity|exact Hwf].
      * injection Hs as <- _. exact IH.
Qed.

Lemma speed_follows_length_witness :
  stepMs gameStart = Z.max 84 (300 - 12 * (len gameStart - 3)).
Proof. apply (speed_follows_length gameStart). exact gameStart_reachable. Defined.

(** ** What an update does to the clock and to the outputs *)

Lemma lastStep_step g h g' h' : step g h = Some (g', h') -> lastStep g' = lastStep g.
Proof.
  intros Hs. apply step_cases in Hs.
  assert (Hm : lastStep (moved g) = lastStep g).
  { unfold moved, turned.
    destruct (ate g && (len (set_dir (heading g) g) <? NUM_LEDS)); reflexivity. }
  destruct Hs as [[_ [-> _]]|[[_ [_ [_ [-> _]]]]|[_ [_ [_ [p [rs [_ [-> _]]]]]]]]].
  - reflexivity.
  - exact Hm.
  - unfold speedUp. destruct (stepMs _ >? 90); exact Hm.
Qed.

(** X8. In the RUNNING state an [update] that finds the interval not yet
    elapsed returns the game unchanged and only redraws it; one that finds
    it elapsed restarts the step clock at the current [millis()], also when
    the step it runs ends the game. *)
Theorem update_keeps_the_cadence t g h g' h' :
  gameOverFlag g = false -> update t g h = Some (g', h') ->
  (due t g = false ->
   g' = g /\ h' = mkHw (rng h) (log h ++ [DrawFrame (apple g) (body g)])) /\
  (due t g = true -> lastStep g' = millis t /\ 0 <= lastStep g' < 2 ^ 32).
Proof.
  intros Hrun Hu. unfold update in Hu. rewrite Hrun in Hu. unfold due.
  apply bind_Some in Hu. destruct Hu as [g1 [h1 [Hs Hd]]].
  destruct (uint32 (millis t - lastStep g) >=? stepMs g).
  - split; [discriminate|]. intros _. injection Hd as <- _.
    rewrite (lastStep_step _ _ _ _ Hs). cbn [lastStep set_lastStep].
    split; [reflexivity|]. unfold millis, uint32, wrap_unsigned.
    apply Z.mod_pos_bound. reflexivity.
  - split; [|discriminate]. intros _. injection Hs as <- <-.
    injection Hd as <- <-. split; reflexivity.
Qed.

Lemma update_keeps_the_cadence_witness :
  let g := set_lastStep (millis 1000) gameStart in
  let h := mkHw [] [] in
  let h' := mkHw [] [DrawFrame (apple g) (body g)] in
  (due 1200 g = false ->
   g = g /\ h' = mkHw (rng h) (log h ++ [DrawFrame (apple g) (body g)])) /\
  (due 1200 g = true -> lastStep g = millis 1200 /\ 0 <= lastStep g < 2 ^ 32).
Proof.
  intros g h h'. apply (update_keeps_the_cadence 1200 g h g h'); reflexivity.
Defined.

Lemma step_outputs g h g' h' :
  wf g -> 3 <= len g <= 63 -> gameOverFlag g = false -> step g h = Some (g', h') ->
  log h' = log h ++ (if gameOverFlag g' then [DrawGameOverCross; GameOverTune]
                     else if len g' =? len g + 1 then [EatApple] else []) /\
  (len g' = len g \/ len g' = len g + 1) /\
  (len g' = len g -> rng h' = rng h).
Proof.
  intros Hwf Hlen Hrun Hs. pose proof Hs as Hs0. apply step_cases in Hs.
  destruct Hs as [[_ [-> ->]]|[[Ho [Hb [Ha [-> ->]]]]|[Ho [Hb [Ha [p [rs [Hsp [-> ->]]]]]]]]].
  - cbn. rewrite <- app_assoc. split; [reflexivity|]. split; [left|]; reflexivity.
  - rewrite gameOverFlag_moved, Hrun, (len_moved g (wf_len g Hwf)), Ha. cbn [andb].
    assert ((len g =? len g + 1) = false) as -> by (apply Z.eqb_neq; lia).
    rewrite app_nil_r. split; [reflexivity|]. split; [left|]; reflexivity.
  - pose proof (gameOverFlag_step_no_collision g h _ _ Hrun Ho Hb Hs0) as Hf.
    rewrite Hf, (proj2 (speedUp_snake _)). cbn [len set_apple rng log].
    rewrite (len_moved g (wf_len g Hwf)), Ha.
    assert ((len g <? NUM_LEDS) = true) as -> by (apply Z.ltb_lt; change NUM_LEDS with 64; lia).
    cbn [andb]. rewrite Z.eqb_refl.
    split; [reflexivity|]. split; [right; reflexivity|]. lia.
Qed.

Lemma update_outputs_from g t h g' h' :
  wf g -> 3 <= len g <= 63 -> update t g h = Some (g', h') ->
  log h' = log h ++ updateEvents g g' /\
  (len g' = len g \/ len g' = len g + 1) /\
  (len g' = len g -> rng h' = rng h).
Proof.
  intros Hwf Hlen Hu. unfold update in Hu. unfold updateEvents.
  destruct (gameOverFlag g) eqn:Hrun.
  - injection Hu as <- <-. split; [reflexivity|]. split; [left|]; reflexivity.
  - apply bind_Some in Hu. destruct Hu as [g1 [h1 [Hs Hd]]]. injection Hd as <- <-.
    cbn [log rng].
    destruct (uint32 (millis t - lastStep g) >=? stepMs g).
    + destruct (step_outputs (set_lastStep (millis t) g) h g1 h1) as [Hlog [Hl Hr]];
        [apply (wf_same_snake g); [reflexivity|reflexivity|exact Hwf]
        |exact Hlen|exact Hrun|exact Hs|].
      cbn [len set_lastStep] in Hlog, Hl, Hr.
      rewrite Hlog, <- app_assoc. split; [reflexivity|]. split; assumption.
    + injection Hs as <- <-. rewrite Hrun.
      assert ((len g =? len g + 1) = false) as -> by (apply Z.eqb_neq; lia).
      split; [reflexivity|]. split; [left|]; reflexivity.
Qed.

(** X9. What an [update] from a reachable state sends out is told by the
    game before and after: in GAME_OVER the cross alone; otherwise the
    frame of the new state, preceded by cross and game-over tune exactly
    when this update ended the game, and by the eat tone exactly when the
    snake grew. The length grows by at most one cell per update, and the
    generator is used only when it grows. *)
Theorem update_outputs g t h g' h' :
  reachable g -> update t g h = Some (g', h') ->
  log h' = log h ++ updateEvents g g' /\
  (len g' = len g \/ len g' = len g + 1) /\
  (len g' = len g -> rng h' = rng h).
Proof.
  intros Hg. apply update_outputs_from; [apply reachable_wf; exact Hg|].
  apply reachable_len_bounds. exact Hg.
Qed.

Lemma update_outputs_witness :
  let h := mkHw [5; 4] [] in
  let g' := speedUp (set_apple (mkPoint 5 4) (moved (set_lastStep (millis 300) gameStart))) in
  let h' := mkHw [] [EatApple; DrawFrame (apple g') (body g')] in
  log h' = log h ++ updateEvents gameStart g' /\
  (len g' = len gameStart \/ len g' = len gameStart + 1) /\
  (len g' = len gameStart -> rng h' = rng h).
Proof.
  intros h g' h'. apply (update_outputs gameStart 300 h g' h').
  - exact gameStart_reachable.
  - reflexivity.
Defined.

(** * Properties of the LED matrix *)

Lemma uint8_small v : 0 <= v < 256 -> uint8 v = v.
Proof. intros Hv. unfold uint8, wrap_unsigned. apply Z.mod_small. exact Hv. Qed.

Lemma xyToIndex_grid x y :
  0 <= x < 8 -> 0 <= y < 8 -> LedMatrix.xyToIndex x y = 8 * y + x.
Proof.
  intros Hx Hy. unfold LedMatrix.xyToIndex, LedMatrix.uint16, wrap_unsigned, W.
  change (2 ^ 16) with 65536. rewrite (Z.mod_small y) by lia.
  rewrite Z.mod_small by lia. lia.
Qed.

Lemma xyToIndex_facts p q :
  inGrid p -> inGrid q ->
  0 <= LedMatrix.xyToIndex (px p) (py p) < 64 /\
  LedMatrix.xyToIndex (px p) (py p) mod 8 = px p /\
  LedMatrix.xyToIndex (px p) (py p) / 8 = py p /\
  (LedMatrix.xyToIndex (px p) (py p) = LedMatrix.xyToIndex (px q) (py q) -> p = q).
Proof.
  unfold inGrid, W, H. intros [Hpx Hpy] [Hqx Hqy].
  rewrite !xyToIndex_grid by lia.
  split; [lia|]. split; [|split].
  - rewrite Z.add_comm, Z.mul_comm, Z.mod_add by lia. apply Z.mod_small. lia.
  - rewrite Z.add_comm, Z.mul_comm, Z.div_add by lia.
    rewrite Z.div_small by lia. lia.
  - intros Heq. destruct p as [a b], q as [c d]. cbn [px py] in *. f_equal; lia.
Qed.

(** X10. On the grid the LED index is row-major, [8 * y + x]: it stays
    below 64, different cells have different LEDs, and the cell is
    recovered from the index by remainder and quotient by 8. *)
Theorem xyToIndex_is_row_major p q :
  inGrid p -> inGrid q ->
  0 <= LedMatrix.xyToIndex (px p) (py p) < 64 /\
  LedMatrix.xyToIndex (px p) (py p) mod 8 = px p /\
  LedMatrix.xyToIndex (px p) (py p) / 8 = py p /\
  (LedMatrix.xyToIndex (px p) (py p) = LedMatrix.xyToIndex (px q) (py q) -> p = q).
Proof. exact (xyToIndex_facts p q). Qed.

Lemma xyToIndex_is_row_major_witness :
  0 <= LedMatrix.xyToIndex 3 4 < 64 /\
  LedMatrix.xyToIndex 3 4 mod 8 = 3 /\
  LedMatrix.xyToIndex 3 4 / 8 = 4 /\
  (LedMatrix.xyToIndex 3 4 = LedMatrix.xyToIndex 4 3 -> mkPoint 3 4 = mkPoint 4 3).
Proof.
  apply (xyToIndex_is_row_major (mkPoint 3 4) (mkPoint 4 3));
    unfold inGrid, W, H; simpl; lia.
Defined.

Lemma setXY_length x y r g b strip :
  length (LedMatrix.setXY x y r g b strip) = length strip.
Proof.
  unfold LedMatrix.setXY. destruct ((uint8 x >=? W) || (uint8 y >=? H)); [reflexivity|].
  apply length_insert.
Qed.

Lemma setXY_grid p r g b strip :
  inGrid p ->
  LedMatrix.setXY (px p) (py p) r g b strip =
    <[Z.to_nat (LedMatrix.xyToIndex (px p) (py p)) := LedMatrix.Color r g b]> strip.
Proof.
  unfold inGrid, W, H. intros [Hx Hy]. unfold LedMatrix.setXY, W, H.
  rewrite !uint8_small by lia.
  destruct (Z.geb_spec (px p) 8); [lia|]. destruct (Z.geb_spec (py p) 8); [lia|].
  reflexivity.
Qed.

Lemma pixel_setXY p q r g b strip :
  inGrid p -> inGrid q -> length strip = 64%nat ->
  LedMatrix.pixel (LedMatrix.setXY (px p) (py p) r g b strip) q =
    if decide (p = q) then Some (LedMatrix.Color r g b) else LedMatrix.pixel strip q.
Proof.
  intros Hp Hq Hlen. rewrite (setXY_grid p r g b strip Hp). unfold LedMatrix.pixel.
  destruct (xyToIndex_facts p q Hp Hq) as [Hrange [_ [_ Hinj]]].
  destruct (decide (p = q)) as [->|Hne].
  - apply list_lookup_insert_eq. rewrite Hlen. lia.
  - destruct (xyToIndex_facts q q Hq Hq) as [Hrq _].
    apply list_lookup_insert_ne. intros Heq. apply Hne, Hinj. lia.
Qed.

(** X11. [setXY] never changes the number of LEDs. A coordinate outside
    0..7 after conversion to [uint8_t] (so also a negative [int8_t] one)
    leaves every LED as it was; a cell of the grid gets the colour and no
    other LED of the grid changes. *)
Theorem setXY_touches_one_pixel x y r g b strip :
  length (LedMatrix.setXY x y r g b strip) = length strip /\
  (~ (0 <= uint8 x < 8 /\ 0 <= uint8 y < 8) ->
   LedMatrix.setXY x y r g b strip = strip) /\
  (inGrid (mkPoint x y) -> length strip = 64%nat ->
   forall q, inGrid q ->
     LedMatrix.pixel (LedMatrix.setXY x y r g b strip) q =
       if decide (mkPoint x y = q) then Some (LedMatrix.Color r g b)
       else LedMatrix.pixel strip q).
Proof.
  split; [apply setXY_length|]. split.
  - intros Hout. unfold LedMatrix.setXY, W, H.
    assert (0 <= uint8 x) by (apply Z.mod_pos_bound; reflexivity).
    assert (0 <= uint8 y) by (apply Z.mod_pos_bound; reflexivity).
    destruct (Z.geb_spec (uint8 x) 8); [reflexivity|].
    destruct (Z.geb_spec (uint8 y) 8); [reflexivity|]. lia.
  - intros Hp Hlen q Hq. apply (pixel_setXY (mkPoint x y) q r g b strip Hp Hq Hlen).
Qed.

Lemma setXY_touches_one_pixel_witness :
  length (LedMatrix.setXY (-1) 4 255 0 0 (replicate 64 0)) = length (replicate 64 0) /\
  LedMatrix.setXY (-1) 4 255 0 0 (replicate 64 0) = replicate 64 0.
Proof.
  destruct (setXY_touches_one_pixel (-1) 4 255 0 0 (replicate 64 0)) as [Hl [Hout _]].
  split; [exact Hl|]. apply Hout. intros [[_ Hc] _].
  change (uint8 (-1)) with 255 in Hc. lia.
Defined.

(** ** The game-over cross *)

Lemma clear_length strip : length (LedMatrix.clear strip) = length strip.
Proof. unfold LedMatrix.clear. apply length_replicate. Qed.

Lemma forallb_allCells (f : Point -> bool) :
  forallb f allCells = true -> forall p, inGrid p -> f p = true.
Proof.
  intros Hf p Hp. rewrite forallb_forall in Hf. apply Hf.
  apply list_elem_of_In. apply allCells_spec. exact Hp.
Qed.

(** X12. Whatever the 64 LEDs showed, after [drawGameOverCross] the LED of
    a grid cell is red (0xFF0000) exactly on the two diagonals and dark
    everywhere else. *)
Theorem cross_lights_the_diagonals strip p :
  length strip = 64%nat -> inGrid p ->
  LedMatrix.pixel (LedMatrix.drawGameOverCross strip) p =
    Some (if (px p =? py p) || (px p + py p =? 7) then 16711680 else 0).
Proof.
  intros Hlen Hp. unfold LedMatrix.drawGameOverCross, LedMatrix.clear. rewrite Hlen.
  assert (Hc : LedMatrix.isCross (LedMatrix.crossLoop 8 0 (replicate 64 0)) = true).
  { vm_compute. reflexivity. }
  pose proof (forallb_allCells _ Hc p Hp) as Hpix. cbn beta in Hpix.
  apply bool_decide_eq_true in Hpix. exact Hpix.
Qed.

Lemma cross_lights_the_diagonals_witness :
  LedMatrix.pixel (LedMatrix.drawGameOverCross (replicate 64 5)) (mkPoint 2 5) =
    Some (if (px (mkPoint 2 5) =? py (mkPoint 2 5)) ||
             (px (mkPoint 2 5) + py (mkPoint 2 5) =? 7) then 16711680 else 0).
Proof.
  apply (cross_lights_the_diagonals (replicate 64 5) (mkPoint 2 5)).
  - reflexivity.
  - unfold inGrid, W, H. simpl. lia.
Defined.

(** ** The frame *)

Lemma drawSnake_length cells : forall i strip,
  length (LedMatrix.drawSnake i cells strip) = length strip.
Proof.
  induction cells as [|p rest IH]; intros i strip; cbn [LedMatrix.drawSnake];
    [reflexivity|].
  rewrite IH. destruct (i =? 0); apply setXY_length.
Qed.

Lemma drawSnake_pixels cells : forall i strip q,
  0 <= i -> i + Z.of_nat (length cells) <= 64 ->
  NoDup cells -> Forall inGrid cells -> length strip = 64%nat -> inGrid q ->
  (~ In q cells ->
   LedMatrix.pixel (LedMatrix.drawSnake i cells strip) q = LedMatrix.pixel strip q) /\
  (forall k, cells !! k = Some q ->
   LedMatrix.pixel (LedMatrix.drawSnake i cells strip) q =
     Some (if i + Z.of_nat k =? 0 then LedMatrix.white else LedMatrix.blue)).
Proof.
  induction cells as [|p rest IH]; intros i strip q Hi Hn Hnd Hgrid Hlen Hq.
  - split; [reflexivity|]. intros k Hk. discriminate Hk.
  - apply NoDup_cons in Hnd. destruct Hnd as [Hp Hnd].
    apply Forall_cons in Hgrid. destruct Hgrid as [Hpg Hgrid].
    rewrite length_cons, Nat2Z.inj_succ in Hn.
    cbn [LedMatrix.drawSnake].
    set (strip' := if i =? 0 then LedMatrix.setXY (px p) (py p) 220 220 220 strip
                   else LedMatrix.setXY (px p) (py p) 0 0 180 strip).
    assert (Hlen' : length strip' = 64%nat).
    { subst strip'. destruct (i =? 0); rewrite setXY_length; exact Hlen. }
    assert (Hpix : LedMatrix.pixel strip' q =
                   if decide (p = q)
                   then Some (if i =? 0 then LedMatrix.white else LedMatrix.blue)
                   else LedMatrix.pixel strip q).
    { subst strip'. destruct (i =? 0); rewrite pixel_setXY by assumption;
        destruct (decide (p = q)); reflexivity. }
    assert (Hi1 : uint8 (i + 1) = i + 1) by (apply uint8_small; lia).
    rewrite Hi1.
    destruct (IH (i + 1) strip' q ltac:(lia) ltac:(lia) Hnd Hgrid Hlen' Hq) as [IH1 IH2].
    split.
    + intros Hnot. rewrite IH1 by (intros Hc; apply Hnot; right; exact Hc).
      rewrite Hpix. destruct (decide (p = q)) as [->|]; [|reflexivity].
      exfalso. apply Hnot. left. reflexivity.
    + intros [|k] Hk.
      * cbn in Hk. injection Hk as ->.
        rewrite IH1 by (rewrite <- list_elem_of_In; exact Hp).
        rewrite Hpix. destruct (decide (q = q)); [|congruence].
        rewrite Z.add_0_r. reflexivity.
      * cbn in Hk. rewrite (IH2 k Hk).
        replace (i + 1 + Z.of_nat k) with (i + Z.of_nat (S k)) by lia. reflexivity.
Qed.

Lemma draw_pixels_from g strip :
  wf g -> appleFree g -> length strip = 64%nat ->
  length (LedMatrix.draw g strip) = 64%nat /\
  LedMatrix.pixel (LedMatrix.draw g strip) (cell (snake g) 0) = Some LedMatrix.white /\
  (forall k q, (0 < k)%nat -> body g !! k = Some q ->
     LedMatrix.pixel (LedMatrix.draw g strip) q = Some LedMatrix.blue) /\
  LedMatrix.pixel (LedMatrix.draw g strip) (apple g) = Some LedMatrix.green /\
  (forall q, inGrid q -> ~ In q (body g) -> q <> apple g ->
     LedMatrix.pixel (LedMatrix.draw g strip) q = Some 0).
Proof.
  intros Hwf [Hain Hafree] Hlen. unfold LedMatrix.draw, LedMatrix.frame.
  set (s0 := LedMatrix.setXY (px (apple g)) (py (apple g)) 0 180 0 (LedMatrix.clear strip)).
  assert (Hlen0 : length s0 = 64%nat).
  { subst s0. rewrite setXY_length, clear_length. exact Hlen. }
  assert (Hpix0 : forall q, inGrid q ->
            LedMatrix.pixel s0 q =
              if decide (apple g = q) then Some LedMatrix.green else Some 0).
  { intros q Hq. subst s0. rewrite pixel_setXY; [|exact Hain|exact Hq|].
    - destruct (decide (apple g = q)); [reflexivity|].
      unfold LedMatrix.pixel, LedMatrix.clear. rewrite Hlen.
      apply lookup_replicate_2.
      destruct (xyToIndex_facts q q Hq Hq) as [Hr _]. lia.
    - rewrite clear_length. exact Hlen. }
  assert (Hbl : 0 + Z.of_nat (length (body g)) <= 64).
  { unfold body. rewrite length_take, (wf_array g Hwf).
    pose proof (wf_len g Hwf). change NUM_LEDS with 64 in *. lia. }
  pose proof (fun q Hq => drawSnake_pixels (body g) 0 s0 q ltac:(lia) Hbl
                (wf_distinct g Hwf) (wf_grid g Hwf) Hlen0 Hq) as Hds.
  pose proof (wf_grid g Hwf) as Hgrid. rewrite Forall_forall in Hgrid.
  destruct (body_head g Hwf) as [tl Hb].
  split; [rewrite drawSnake_length; exact Hlen0|]. split; [|split; [|split]].
  - assert (Hh : body g !! 0%nat = Some (cell (snake g) 0)) by (rewrite Hb; reflexivity).
    assert (Hhg : inGrid (cell (snake g) 0)).
    { apply Hgrid. apply list_elem_of_lookup. exists 0%nat. exact Hh. }
    rewrite (proj2 (Hds _ Hhg) 0%nat Hh). reflexivity.
  - intros k q Hk Hq.
    assert (Hqg : inGrid q).
    { apply Hgrid. apply list_elem_of_lookup. exists k. exact Hq. }
    rewrite (proj2 (Hds _ Hqg) k Hq).
    assert ((0 + Z.of_nat k =? 0) = false) as -> by (apply Z.eqb_neq; lia).
    reflexivity.
  - rewrite (proj1 (Hds _ Hain) Hafree), (Hpix0 _ Hain).
    destruct (decide (apple g = apple g)); [reflexivity|congruence].
  - intros q Hq Hnot Hne. rewrite (proj1 (Hds _ Hq) Hnot), (Hpix0 _ Hq).
    destruct (decide (apple g = q)); [congruence|reflexivity].
Qed.

(** X13. In every reachable state, on a matrix of 64 LEDs, [draw] leaves
    the head white, every other body cell blue, the apple green and every
    other LED of the grid dark, whatever was shown before. *)
Theorem draw_shows_the_game g strip :
  reachable g -> length strip = 64%nat ->
  length (LedMatrix.draw g strip) = 64%nat /\
  LedMatrix.pixel (LedMatrix.draw g strip) (cell (snake g) 0) = Some LedMatrix.white /\
  (forall k q, (0 < k)%nat -> body g !! k = Some q ->
     LedMatrix.pixel (LedMatrix.draw g strip) q = Some LedMatrix.blue) /\
  LedMatrix.pixel (LedMatrix.draw g strip) (apple g) = Some LedMatrix.green /\
  (forall q, inGrid q -> ~ In q (body g) -> q <> apple g ->
     LedMatrix.pixel (LedMatrix.draw g strip) q = Some 0).
Proof.
  intros Hg Hlen. apply draw_pixels_from; [|exact (reachable_appleFree g Hg)|exact Hlen].
  apply reachable_wf. exact Hg.
Qed.

Lemma draw_shows_the_game_witness :
  let strip := replicate 64 7 in
  length (LedMatrix.draw gameStart strip) = 64%nat /\
  LedMatrix.pixel (LedMatrix.draw gameStart strip) (cell (snake gameStart) 0) =
    Some LedMatrix.white /\
  (forall k q, (0 < k)%nat -> body gameStart !! k = Some q ->
     LedMatrix.pixel (LedMatrix.draw gameStart strip) q = Some LedMatrix.blue) /\
  LedMatrix.pixel (LedMatrix.draw gameStart strip) (apple gameStart) =
    Some LedMatrix.green /\
  (forall q, inGrid q -> ~ In q (body gameStart) -> q <> apple gameStart ->
     LedMatrix.pixel (LedMatrix.draw gameStart strip) q = Some 0).
Proof.
  intros strip. apply (draw_shows_the_game gameStart strip).
  - exact gameStart_reachable.
  - reflexivity.
Defined.

(** ** What the matrix shows after an update *)

Lemma crossLoop_length n : forall i strip,
  length (LedMatrix.crossLoop n i strip) = length strip.
Proof.
  induction n as [|n IH]; intros i strip; cbn [LedMatrix.crossLoop]; [reflexivity|].
  rewrite IH, !setXY_length. reflexivity.
Qed.

Lemma paint_length e strip : length (paint e strip) = length strip.
Proof.
  destruct e as [|a cells| |]; cbn [paint]; try reflexivity.
  - unfold LedMatrix.drawGameOverCross. rewrite crossLoop_length. apply clear_length.
  - unfold LedMatrix.frame. rewrite drawSnake_length, setXY_length. apply clear_length.
Qed.

Lemma display_length es : forall strip, length (display es strip) = length strip.
Proof.
  induction es as [|e es IH]; intros strip; [reflexivity|].
  unfold display in *. cbn [fold_left]. rewrite IH. apply paint_length.
Qed.

Lemma display_app es1 es2 strip :
  display (es1 ++ es2) strip = display es2 (display es1 strip).
Proof. unfold display. apply fold_left_app. Qed.

Lemma frame_repaints a cells strip1 strip2 :
  length strip1 = length strip2 ->
  LedMatrix.frame a cells strip1 = LedMatrix.frame a cells strip2.
Proof. intros Hl. unfold LedMatrix.frame, LedMatrix.clear. rewrite Hl. reflexivity. Qed.

(** X14. What the matrix shows when [update] returns, from a reachable
    state: the cross if the game was over before the call, and otherwise
    the frame of the new state, also when this call ended the game: the
    cross that [triggerGameOver] draws is painted over by [draw] before
    [update] returns, and shows only from the next call on. *)
Theorem frame_paints_over_the_cross g t h g' h' strip :
  reachable g -> update t g h = Some (g', h') ->
  display (log h') strip =
    if gameOverFlag g then LedMatrix.drawGameOverCross (display (log h) strip)
    else LedMatrix.draw g' (display (log h) strip).
Proof.
  intros Hg Hu.
  destruct (update_outputs_from g t h g' h' (reachable_wf g Hg)
              (reachable_len_bounds g Hg) Hu) as [Hlog _].
  rewrite Hlog, display_app. unfold updateEvents.
  destruct (gameOverFlag g); [reflexivity|].
  rewrite display_app. change (display [DrawFrame (apple g') (body g')] ?s)
    with (LedMatrix.frame (apple g') (body g') s).
  unfold LedMatrix.draw. apply frame_repaints. apply display_length.
Qed.

Lemma frame_paints_over_the_cross_witness :
  let g := setPending UP gameStart in
  let g' := moved (set_lastStep (millis 300) g) in
  let h' := mkHw [] [DrawFrame (apple g') (body g')] in
  display (log h') (replicate 64 0) =
    if gameOverFlag g
    then LedMatrix.drawGameOverCross (display (log (mkHw [] [])) (replicate 64 0))
    else LedMatrix.draw g' (display (log (mkHw [] [])) (replicate 64 0)).
Proof.
  intros g g' h'.
  apply (frame_paints_over_the_cross g 300 (mkHw [] []) g' h' (replicate 64 0)).
  - apply reach_setPending. exact gameStart_reachable.
  - reflexivity.
Defined.

(** * Properties of the joystick driver *)

Lemma abs_int_small v : -32768 < v < 32768 -> abs_int v = Z.abs v.
Proof.
  intros Hv. unfold abs_int. destruct (Z.gtb_spec v 0); [lia|].
  rewrite int16_small by lia. lia.
Qed.

(** X15. For readings of the 10-bit converter, with [x], [y] the offsets
    from the centre 512: the direction handed to the game is RIGHT or LEFT
    when [x] is beyond 180 and strictly dominant, DOWN or UP when [y] is
    beyond 180 and at least as large as [x], and the current direction
    when the larger offset is within 180. The click flag is the button and
    the direction does not depend on it. *)
Theorem joystick_direction rawX rawY btnLow current :
  0 <= rawX <= 1023 -> 0 <= rawY <= 1023 ->
  let x := rawX - 512 in
  let y := rawY - 512 in
  let d := joystickDir rawX rawY btnLow current in
  fst (read rawX rawY btnLow current current) = btnLow /\
  d = joystickDir rawX rawY (negb btnLow) current /\
  (DEADZONE < x -> Z.abs y < Z.abs x -> d = RIGHT) /\
  (x < - DEADZONE -> Z.abs y < Z.abs x -> d = LEFT) /\
  (DEADZONE < y -> Z.abs x <= Z.abs y -> d = DOWN) /\
  (y < - DEADZONE -> Z.abs x <= Z.abs y -> d = UP) /\
  (Z.max (Z.abs x) (Z.abs y) <= DEADZONE -> d = current).
Proof.
  intros Hx Hy x y d. subst x y d. unfold joystickDir, read, DEADZONE. cbn [fst snd].
  split; [reflexivity|]. split; [reflexivity|].
  rewrite !int16_small by lia. rewrite !abs_int_small by lia.
  destruct (Z.gtb_spec (Z.abs (rawX - 512)) (Z.abs (rawY - 512)));
    destruct (Z.gtb_spec (rawX - 512) 180); destruct (Z.ltb_spec (rawX - 512) (Z.opp 180));
    destruct (Z.gtb_spec (rawY - 512) 180); destruct (Z.ltb_spec (rawY - 512) (Z.opp 180));
    repeat split; intros; try reflexivity; lia.
Qed.

Lemma joystick_direction_witness :
  fst (read 1023 300 true UP UP) = true /\
  joystickDir 1023 300 true UP = joystickDir 1023 300 (negb true) UP /\
  (DEADZONE < 1023 - 512 -> Z.abs (300 - 512) < Z.abs (1023 - 512) ->
   joystickDir 1023 300 true UP = RIGHT) /\
  (1023 - 512 < - DEADZONE -> Z.abs (300 - 512) < Z.abs (1023 - 512) ->
   joystickDir 1023 300 true UP = LEFT) /\
  (DEADZONE < 300 - 512 -> Z.abs (1023 - 512) <= Z.abs (300 - 512) ->
   joystickDir 1023 300 true UP = DOWN) /\
  (300 - 512 < - DEADZONE -> Z.abs (1023 - 512) <= Z.abs (300 - 512) ->
   joystickDir 1023 300 true UP = UP) /\
  (Z.max (Z.abs (1023 - 512)) (Z.abs (300 - 512)) <= DEADZONE ->
   joystickDir 1023 300 true UP = UP).
Proof. apply (joystick_direction 1023 300 true UP); lia. Defined.

(** * Properties of the tilt driver beyond the dead zone *)

(** ** The offsets and the filters *)

Lemma readDir_state accX accY current s :
  snd (readDir accX accY current s) =
    mkIMU (ax0 s) (ay0 s) (smooth (fx s) (delta accX (ax0 s)))
          (smooth (fy s) (delta accY (ay0 s))).
Proof. reflexivity. Qed.

(** ** Values that are not numbers *)

Lemma smooth_nan_l d : smooth S754_nan d = S754_nan.
Proof. reflexivity. Qed.

Lemma smooth_nan_r f : smooth f S754_nan = S754_nan.
Proof.
  unfold smooth, f32_add. change (f32_mul S754_nan lit_0_20) with S754_nan.
  destruct (f32_mul f lit_0_80); reflexivity.
Qed.

Lemma delta_nan off : delta S754_nan off = S754_nan.
Proof. reflexivity. Qed.

Lemma pick_nan_x fy current :
  pick S754_nan fy current = current \/ pick S754_nan fy current = UP \/
  pick S754_nan fy current = DOWN.
Proof.
  unfold pick. cbn [fabs SFabs]. unfold f32_lt, SFltb. cbn [SFcompare andb].
  assert (Hc : forall y, SFcompare y S754_nan = None) by (intros []; reflexivity).
  rewrite Hc.
  destruct (match SFcompare TRIG_G fy with Some Lt => true | _ => false end && _);
    [auto|].
  destruct (match SFcompare fy (SFopp TRIG_G) with Some Lt => true | _ => false end && _);
    auto.
Qed.

Lemma readTrace_nan current samples : forall s,
  fx s = S754_nan ->
  Forall (fun r => fx (snd r) = S754_nan /\
                   (fst r = current \/ fst r = UP \/ fst r = DOWN))
         (readTrace samples current s).
Proof.
  induction samples as [|[accX accY] rest IH]; intros s Hx.
  - constructor.
  - cbn [readTrace readDir]. apply List.Forall_cons.
    + cbn [fst snd fx fy]. rewrite Hx. split; [reflexivity|].
      rewrite smooth_nan_l. apply pick_nan_x.
    + apply IH. cbn [fx]. rewrite Hx. reflexivity.
Qed.

(** X16. One x reading that is not a number disables the horizontal axis
    for good: from that call on the smoothed x value is not a number, and
    every call of [readDir], whatever the later samples, returns the
    heading it was given, UP or DOWN. *)
Theorem nan_reading_kills_the_axis accY samples current s :
  Forall (fun r => fx (snd r) = S754_nan /\
                   (fst r = current \/ fst r = UP \/ fst r = DOWN))
         (readTrace ((S754_nan, accY) :: samples) current s).
Proof.
  cbn [readTrace readDir]. rewrite delta_nan, smooth_nan_r.
  apply List.Forall_cons.
  - cbn [fst snd fx fy]. split; [reflexivity|]. apply pick_nan_x.
  - apply readTrace_nan. reflexivity.
Qed.

(** ** Deltas within the trigger threshold *)

Lemma gentle_bound d : gentle d -> proper d /\ Z.abs (ulps d) <= trigBound.
Proof.
  intros [Hv Hle]. unfold fabs, SFleb in Hle.
  destruct d as [s|s| |s m e]; cbn [SFabs SFcompare TRIG_G] in Hle; try discriminate Hle.
  - split; [split; [exact Hv|reflexivity]|]. vm_compute. discriminate.
  - split; [split; [exact Hv|reflexivity]|].
    apply valid_finite_elim in Hv. destruct Hv as [Hc _].
    rewrite ulps_abs_finite.
    pose proof (bitlen_bounds (Zpos m) ltac:(lia)) as [_ Hhi].
    assert (Hm24 : Zpos m < 2 ^ 24).
    { eapply Z.lt_le_trans; [exact Hhi|]. apply Z.pow_le_mono_r; lia. }
    unfold trigBound.
    destruct (Z.compare_spec e (-26)) as [He|He|He]; [| |discriminate Hle].
    + subst e. change (-26 + 149) with 123.
      assert (Hm : Zpos m <= 12079596).
      { rewrite compare_cont_Z in Hle.
        destruct (Z.compare_spec (Zpos m) 12079596) as [Ec|Ec|Ec];
          [rewrite Ec; apply Z.le_refl|apply Z.lt_le_incl; exact Ec|discriminate Hle]. }
      apply Z.mul_le_mono_nonneg_r; [apply Z.pow_nonneg; lia|exact Hm].
    + assert (Hpow : 2 ^ (e + 149) <= 2 ^ 122) by (apply Z.pow_le_mono_r; lia).
      assert (0 < 2 ^ (e + 149)) by (pow2_pos).
      transitivity (2 ^ 24 * 2 ^ 122).
      * transitivity (2 ^ 24 * 2 ^ (e + 149)).
        -- apply Z.mul_le_mono_nonneg_r; lia.
        -- apply Z.mul_le_mono_nonneg_l; lia.
      * apply Zle_by_leb. vm_compute. reflexivity.
Qed.

(** A steady filter value is not beyond [TRIG_G] on either side. *)
Lemma steady_no_trigger f :
  steady f -> f32_lt TRIG_G f = false /\ f32_lt f (SFopp TRIG_G) = false.
Proof.
  intros [[Hv Hf] Hb]. unfold f32_lt, SFltb.
  destruct f as [s|s| |s m e]; try discriminate Hf; cbn [SFopp SFcompare TRIG_G].
  - split; reflexivity.
  - apply valid_finite_elim in Hv. destruct Hv as [Hc _].
    rewrite ulps_abs_finite in Hb. unfold trigBound in Hb.
    pose proof (bitlen_bounds (Zpos m) ltac:(lia)) as [Hlo _].
    assert (Hcase : e < -26 \/ (e = -26 /\ Zpos m <= 12079596)).
    { destruct (Z.compare_spec e (-26)) as [He|He|He]; [right|left; exact He|exfalso].
      - subst e. split; [reflexivity|]. change (-26 + 149) with 123 in Hb.
        apply (Z.mul_le_mono_pos_r _ _ (2 ^ 123)); [pow2_pos|exact Hb].
      - assert (Hd : bitlen (Zpos m) = 24) by lia.
        rewrite Hd in Hlo. change (2 ^ (24 - 1)) with (2 ^ 23) in Hlo.
        assert (Hpow : 2 ^ 124 <= 2 ^ (e + 149)) by (apply Z.pow_le_mono_r; lia).
        assert (Hbig : 2 ^ 23 * 2 ^ 124 <= Zpos m * 2 ^ (e + 149)).
        { transitivity (2 ^ 23 * 2 ^ (e + 149)).
          - apply Z.mul_le_mono_nonneg_l; lia.
          - apply Z.mul_le_mono_nonneg_r; [apply Z.pow_nonneg; lia|lia]. }
        assert (Hc2 : 12079596 * 2 ^ 123 < 2 ^ 23 * 2 ^ 124).
        { apply Zlt_by_ltb. vm_compute. reflexivity. }
        lia. }
    rewrite !compare_cont_Z.
    destruct Hcase as [He|[-> Hm]].
    + apply Z.compare_lt_iff in He. rewrite He.
      apply Z.compare_lt_iff in He. apply Z.lt_gt in He. unfold Z.gt in He. rewrite He.
      destruct s; split; reflexivity.
    + rewrite Z.compare_refl.
      assert (H1 : (12079596 ?= Zpos m) <> Lt).
      { rewrite Z.compare_lt_iff. clear -Hm. intros Hc. apply Z.le_ngt in Hm. exact (Hm Hc). }
      assert (H2 : (Zpos m ?= 12079596) <> Gt).
      { rewrite Z.compare_gt_iff. clear -Hm. intros Hc. apply Z.le_ngt in Hm. exact (Hm Hc). }
      destruct s; split; try reflexivity.
      * destruct (Zpos m ?= 12079596); try reflexivity. exfalso. apply H2. reflexivity.
      * destruct (12079596 ?= Zpos m); try reflexivity. exfalso. apply H1. reflexivity.
Qed.

(** One filter update in units of 2^-149: bounds on the filter value and on
    the delta give a bound on the new filter value, rounding being
    monotone. *)
Lemma smooth_bounded F D f d :
  0 <= F -> 0 <= D ->
  F * 13421773 < 2 ^ (149 - -24) -> D * 13421773 < 2 ^ (149 - -26) ->
  roundUlps 24 (F * 13421773) + roundUlps 26 (D * 13421773) < 2 ^ 149 ->
  proper f -> Z.abs (ulps f) <= F -> proper d -> Z.abs (ulps d) <= D ->
  proper (smooth f d) /\
  Z.abs (ulps (smooth f d)) <=
    roundUlps 0 (roundUlps 24 (F * 13421773) + roundUlps 26 (D * 13421773)).
Proof.
  intros HF HD HcA HcB Hc1 Hf Hfb Hdp Hdb.
  unfold smooth, f32_add, f32_mul, lit_0_80, lit_0_20.
  assert (HfA : Z.abs (ulps f) * 13421773 <= F * 13421773).
  { apply Z.mul_le_mono_nonneg_r; lia. }
  assert (HdB : Z.abs (ulps d) * 13421773 <= D * 13421773).
  { apply Z.mul_le_mono_nonneg_r; lia. }
  destruct (mul_lit_proper f 13421773 (-24)) as [Hxp Hxu];
    [vm_compute; discriminate|lia|exact Hf|lia|].
  destruct (mul_lit_proper d 13421773 (-26)) as [Hyp Hyu];
    [vm_compute; discriminate|lia|exact Hdp|lia|].
  set (x := SFmul 24 128 f (S754_finite false 13421773 (-24))) in *.
  set (y := SFmul 24 128 d (S754_finite false 13421773 (-26))) in *.
  assert (Hxb : Z.abs (ulps x) <= roundUlps 24 (F * 13421773)).
  { rewrite Hxu. apply roundUlps_mono; [lia|].
    split; [apply Z.mul_nonneg_nonneg; lia|exact HfA]. }
  assert (Hyb : Z.abs (ulps y) <= roundUlps 26 (D * 13421773)).
  { rewrite Hyu. apply roundUlps_mono; [lia|].
    split; [apply Z.mul_nonneg_nonneg; lia|exact HdB]. }
  set (XA := roundUlps 24 (F * 13421773)) in *.
  set (YB := roundUlps 26 (D * 13421773)) in *.
  assert (Hsum : Z.abs (ulps x + ulps y) <= XA + YB).
  { pose proof (Z.abs_triangle (ulps x) (ulps y)). lia. }
  destruct (add_proper x y Hxp Hyp ltac:(lia)) as [Hrp Hru].
  split; [exact Hrp|]. rewrite Hru.
  apply roundUlps_mono; [lia|]. split; [apply Z.abs_nonneg|exact Hsum].
Qed.

(** [TRIG_G] is a fixed point of the rounded update, so the band up to
    [TRIG_G] is kept by the filter when the delta is in it. *)
Lemma smooth_steady f d : steady f -> gentle d -> steady (smooth f d).
Proof.
  intros [Hf Hfb] Hd. destruct (gentle_bound d Hd) as [Hdp Hdb].
  destruct (smooth_bounded trigBound trigBound f d) as [Hp Hb]; try assumption.
  - vm_compute. discriminate.
  - vm_compute. discriminate.
  - apply Zlt_by_ltb. vm_compute. reflexivity.
  - apply Zlt_by_ltb. vm_compute. reflexivity.
  - apply Zlt_by_ltb. vm_compute. reflexivity.
  - split; [exact Hp|]. etransitivity; [exact Hb|].
    apply Zle_by_leb. vm_compute. reflexivity.
Qed.

Lemma steady_zero : steady lit_0.
Proof. split; [split; reflexivity|]. vm_compute. discriminate. Qed.

Lemma pick_no_trigger fx fy current :
  f32_lt TRIG_G fx = false -> f32_lt fx (SFopp TRIG_G) = false ->
  f32_lt TRIG_G fy = false -> f32_lt fy (SFopp TRIG_G) = false ->
  pick fx fy current = current.
Proof.
  intros H1 H2 H3 H4. unfold pick. rewrite H1, H2, H3, H4. cbn [andb].
  destruct (f32_lt (fabs fx) DEAD_G && f32_lt (fabs fy) DEAD_G); [reflexivity|].
  destruct (f32_lt (fabs fy) (fabs fx)); reflexivity.
Qed.

Lemma readTrace_gentle current samples : forall s,
  steady (fx s) -> steady (fy s) ->
  Forall (fun sample => gentle (delta (fst sample) (ax0 s)) /\
                        gentle (delta (snd sample) (ay0 s))) samples ->
  Forall (fun r => fst r = current /\ noTrigger (snd r) = true)
         (readTrace samples current s).
Proof.
  induction samples as [|[accX accY] rest IH]; intros s Hx Hy Hq.
  - constructor.
  - apply Forall_cons in Hq. destruct Hq as [[Hcx Hcy] Hrest].
    cbn [fst snd] in Hcx, Hcy. cbn [readTrace readDir].
    pose proof (smooth_steady _ _ Hx Hcx) as Hx'.
    pose proof (smooth_steady _ _ Hy Hcy) as Hy'.
    destruct (steady_no_trigger _ Hx') as [Hx1 Hx2].
    destruct (steady_no_trigger _ Hy') as [Hy1 Hy2].
    apply List.Forall_cons.
    + cbn [fst snd fx fy]. unfold noTrigger. cbn [fx fy].
      rewrite Hx1, Hx2, Hy1, Hy2. split; [|reflexivity].
      apply pick_no_trigger; assumption.
    + apply IH; cbn [fx fy ax0 ay0]; assumption.
Qed.

(** X17. After calibration on well-formed samples, if every later sample
    is well-formed and its two deltas against the calibration offsets are
    at most [TRIG_G] in magnitude, then every call of [readDir], however
    many, returns the heading it was given, and after every call neither
    smoothed value is beyond [TRIG_G]: 0.18 g is a fixed point of the
    rounded filter update. *)
Theorem tilt_within_trigger_holds_heading cal samples current :
  let s := snd (beginIMU true cal imu0) in
  Forall validSample cal -> Forall validSample samples ->
  Forall (withinTrigger (ax0 s) (ay0 s)) samples ->
  Forall (fun r => fst r = current /\ noTrigger (snd r) = true)
         (readTrace samples current s).
Proof.
  intros s Hcal Hvalid Hbelow. subst s. cbn [beginIMU snd] in *.
  destruct (calibrateZero_valid cal imu0 Hcal) as [Hox Hoy].
  apply readTrace_gentle.
  - rewrite (proj1 (calibrateZero_filters cal imu0)). exact steady_zero.
  - rewrite (proj2 (calibrateZero_filters cal imu0)). exact steady_zero.
  - rewrite Forall_forall in *. intros sample Hin.
    destruct (Hvalid sample Hin) as [Hvx Hvy]. destruct (Hbelow sample Hin) as [Hbx Hby].
    split; (split; [apply delta_valid; assumption|assumption]).
Qed.

(** Calibration at rest reading (10, -20) milli-g, then three samples
    between 0.08 g and 0.18 g away from it, heading UP. *)
Lemma tilt_within_trigger_holds_heading_witness :
  let cal := repeat (f32_of_Z 10, f32_of_Z (-20)) 50 in
  let samples := [(f32_of_Z 180, f32_of_Z (-190));
                  (f32_of_Z 185, f32_of_Z 150);
                  (f32_of_Z (-165), f32_of_Z (-20))] in
  Forall (fun r => fst r = UP /\ noTrigger (snd r) = true)
         (readTrace samples UP (snd (beginIMU true cal imu0))).
Proof.
  intros cal samples.
  apply (tilt_within_trigger_holds_heading cal samples UP).
  - apply Forall_forall. intros sample Hin. apply list_elem_of_In in Hin.
    apply repeat_spec in Hin. subst sample. split; reflexivity.
  - repeat (apply List.Forall_cons; [split; reflexivity|]). apply List.Forall_nil.
  - repeat (apply List.Forall_cons; [split; vm_compute; reflexivity|]).
    apply List.Forall_nil.
Defined.

(** * Properties of the two [loop()] functions *)

Lemma reset_forgets_pending t d g : reset t (setPending d g) = reset t g.
Proof. reflexivity. Qed.

Lemma update_dir t g h g' h' :
  update t g h = Some (g', h') -> dir g' = dir g \/ dir g' = heading g.
Proof.
  intros Hu. unfold update in Hu. destruct (gameOverFlag g).
  - injection Hu as <- _. left. reflexivity.
  - apply bind_Some in Hu. destruct Hu as [g1 [h1 [Hs Hd]]]. injection Hd as <- _.
    destruct (uint32 (millis t - lastStep g) >=? stepMs g).
    + right. apply dir_step in Hs. exact Hs.
    + injection Hs as <- _. left. reflexivity.
Qed.

Lemma update_no_reversal t g h g' h' :
  update t g h = Some (g', h') -> opposite (dir g) (dir g') = false.
Proof.
  intros Hu. destruct (update_dir t g h g' h' Hu) as [-> | ->].
  - apply opposite_irrefl.
  - apply heading_not_opposite.
Qed.

Lemma update_stays_over t g h g' h' :
  gameOverFlag g = true -> update t g h = Some (g', h') -> gameOverFlag g' = true.
Proof.
  intros Hover Hu. unfold update in Hu. rewrite Hover in Hu.
  injection Hu as <- _. exact Hover.
Qed.

(** The [update] that follows a [reset] cannot end the game: the fresh
    snake heads RIGHT from (3,4) and may only keep on or turn UP or DOWN. *)
Lemma fresh_game_survives t1 t2 d g h g1 h1 g' h' :
  wf g -> reset t1 g h = Some (g1, h1) ->
  update t2 (setPending d g1) h1 = Some (g', h') ->
  gameOverFlag g' = false /\ dir g' <> LEFT /\ (d = RIGHT -> dir g' = RIGHT).
Proof.
  intros Hwf Hr Hu.
  assert (Hd1 : dir g1 = RIGHT /\ gameOverFlag g1 = false /\
                body g1 = [mkPoint 3 4; mkPoint 2 4; mkPoint 1 4] /\
                cell (snake g1) 0 = mkPoint 3 4 /\ len g1 = 3).
  { unfold reset in Hr. apply bind_Some in Hr. destruct Hr as [g2 [h2 [Hsp Hd]]].
    injection Hd as <- _. apply spawnApple_Some in Hsp. destruct Hsp as [p ->].
    pose proof (wf_array g Hwf) as Harr.
    destruct (snake g) as [|c0 [|c1 [|c2 rest]]] eqn:E;
      try (simpl in Harr; discriminate Harr).
    unfold body, cell. simpl. rewrite ?E. simpl. repeat split; reflexivity. }
  destruct Hd1 as [Hdir [Hrun [Hbody [Hhead Hlen]]]].
  assert (Hdirs : dir g' <> LEFT /\ (d = RIGHT -> dir g' = RIGHT)).
  { destruct (update_dir _ _ _ _ _ Hu) as [Hk | Hk]; rewrite Hk.
    - cbn [dir setPending set_pending]. rewrite Hdir. split; [discriminate|reflexivity].
    - unfold heading. cbn [dir pending setPending set_pending]. rewrite Hdir.
      destruct d; cbn [opposite]; split; try discriminate; try reflexivity;
        intros Hc; discriminate Hc. }
  split; [|exact Hdirs].
  unfold update in Hu. cbn [gameOverFlag setPending set_pending] in Hu.
  rewrite Hrun in Hu.
  apply bind_Some in Hu. destruct Hu as [g3 [h3 [Hs Hd]]]. injection Hd as <- _.
  cbn [lastStep stepMs setPending set_pending] in Hs.
  destruct (uint32 (millis t2 - lastStep g1) >=? stepMs g1).
  - set (G := set_lastStep (millis t2) (set_pending d g1)) in *.
    assert (HrunG : gameOverFlag G = false) by exact Hrun.
    rewrite (gameOverFlag_step G h1 g3 h3 HrunG Hs).
    assert (Hnext : nextCell G = mkPoint 4 4 \/ nextCell G = mkPoint 3 3 \/
                    nextCell G = mkPoint 3 5).
    { unfold nextCell, heading. subst G.
      cbn [dir pending snake set_lastStep set_pending]. rewrite Hdir, Hhead.
      destruct d; cbn; auto. }
    assert (HbodyG : body G = [mkPoint 3 4; mkPoint 2 4; mkPoint 1 4]) by exact Hbody.
    assert (Hout : outside (nextCell G) = false).
    { destruct Hnext as [-> | [-> | ->]]; reflexivity. }
    rewrite Hout. cbn [orb]. unfold blocked.
    assert (HlenG : (Z.to_nat (len G) <= length (snake G))%nat).
    { change (len G) with (len g1). change (snake G) with (snake g1).
      assert (Hl : length (body g1) = 3%nat) by (rewrite Hbody; reflexivity).
      unfold body in Hl. rewrite length_take in Hl. rewrite Hlen in *. lia. }
    destruct (ate G).
    + destruct (snakeHas G (px (nextCell G)) (py (nextCell G))) eqn:Hh; [|reflexivity].
      apply snakeHas_In in Hh. rewrite HbodyG in Hh.
      destruct Hnext as [Hn | [Hn | Hn]]; rewrite Hn in Hh; cbn in Hh;
        repeat (destruct Hh as [Hh | Hh]; [discriminate Hh|]); contradiction.
    + destruct (snakeHasExceptTail G (px (nextCell G)) (py (nextCell G))) eqn:Hh;
        [|reflexivity].
      apply snakeHasExceptTail_In in Hh.
      rewrite take_pred_removelast in Hh by exact HlenG. rewrite HbodyG in Hh.
      destruct Hnext as [Hn | [Hn | Hn]]; rewrite Hn in Hh; cbn in Hh;
        repeat (destruct Hh as [Hh | Hh]; [discriminate Hh|]); contradiction.
  - injection Hs as <- _. exact Hrun.
Qed.

(** X18. One [loop()] of the joystick sketch from a reachable state.
    Without a click the direction is never reversed and a finished game
    stays finished. With a click the stick is ignored altogether (the
    outcome is that of a centred stick), the snake heads RIGHT and the game
    is running. *)
Theorem joystick_loop_turns rawX rawY btnLow t1 t2 g h g' h' :
  reachable g ->
  loopJoystick rawX rawY btnLow t1 t2 g h = Some (g', h') ->
  (btnLow = false ->
   opposite (dir g) (dir g') = false /\
   (gameOverFlag g = true -> gameOverFlag g' = true)) /\
  (btnLow = true ->
   dir g' = RIGHT /\ gameOverFlag g' = false /\
   loopJoystick 512 512 true t1 t2 g h = Some (g', h')).
Proof.
  intros Hg Hl. unfold loopJoystick, read in Hl. cbn [getDir] in Hl.
  destruct btnLow.
  - split; [discriminate|]. intros _.
    apply bind_Some in Hl. destruct Hl as [g1 [h1 [Hr Hu]]].
    rewrite reset_forgets_pending in Hr.
    assert (Hu' : update t2 (setPending RIGHT g1) h1 = Some (g', h')).
    { replace (setPending RIGHT g1) with g1; [exact Hu|].
      unfold reset in Hr. apply bind_Some in Hr. destruct Hr as [g2 [h2 [Hsp Hd]]].
      injection Hd as <- _. apply spawnApple_Some in Hsp. destruct Hsp as [p ->].
      reflexivity. }
    destruct (fresh_game_survives t1 t2 RIGHT g h g1 h1 g' h' (reachable_wf g Hg) Hr Hu')
      as [Hrun [_ Hdir]].
    split; [apply Hdir; reflexivity|]. split; [exact Hrun|].
    unfold loopJoystick, read. cbn [getDir]. rewrite reset_forgets_pending.
    unfold bind. rewrite Hr. exact Hu.
  - split; [|discriminate]. intros _. cbn [bind ret] in Hl. unfold bind, ret in Hl.
    split.
    + apply (update_no_reversal _ _ _ _ _ Hl).
    + intros Hover. eapply update_stays_over; [|exact Hl]. exact Hover.
Qed.

Lemma joystick_loop_turns_witness :
  let g' := moved (set_lastStep (millis 300) (setPending UP gameStart)) in
  (false = false ->
   opposite (dir gameStart) (dir g') = false /\
   (gameOverFlag gameStart = true -> gameOverFlag g' = true)) /\
  (false = true ->
   dir g' = RIGHT /\ gameOverFlag g' = false /\
   loopJoystick 512 512 true 0 300 gameStart (mkHw [] []) =
     Some (g', mkHw [] [DrawFrame (apple g') (body g')])).
Proof.
  intros g'.
  apply (joystick_loop_turns 512 0 false 0 300 gameStart (mkHw [] []) g'
           (mkHw [] [DrawFrame (apple g') (body g')])).
  - exact gameStart_reachable.
  - reflexivity.
Defined.

(** X19. One [loop()] of the tilt sketch from a reachable state. The
    filter state after it is that of [readDir] on the sample, whatever the
    button and the game: a reset does not touch the filters or the
    offsets. Without the button the direction is never reversed and a
    finished game stays finished; with it the game is running again and
    the snake does not head LEFT. *)
Theorem tilt_loop_turns btnLow accX accY t1 t2 g s h g' s' h' :
  reachable g ->
  loopTilt btnLow accX accY t1 t2 (g, s) h = Some ((g', s'), h') ->
  s' = mkIMU (ax0 s) (ay0 s) (smooth (fx s) (delta accX (ax0 s)))
             (smooth (fy s) (delta accY (ay0 s))) /\
  (btnLow = false ->
   opposite (dir g) (dir g') = false /\
   (gameOverFlag g = true -> gameOverFlag g' = true)) /\
  (btnLow = true -> dir g' <> LEFT /\ gameOverFlag g' = false).
Proof.
  intros Hg Hl. unfold loopTilt in Hl.
  apply bind_Some in Hl. destruct Hl as [g1 [h1 [Hr Hl]]].
  cbn [readDir] in Hl.
  apply bind_Some in Hl. destruct Hl as [g2 [h2 [Hu Hd]]].
  injection Hd as <- <- <-.
  split; [reflexivity|].
  destruct btnLow.
  - split; [discriminate|]. intros _.
    destruct (fresh_game_survives t1 t2 _ g h g1 h1 g2 h2 (reachable_wf g Hg) Hr Hu)
      as [Hrun [Hdir _]].
    split; assumption.
  - split; [|discriminate]. intros _. injection Hr as <- <-. split.
    + apply (update_no_reversal _ _ _ _ _ Hu).
    + intros Hover. eapply update_stays_over; [|exact Hu]. exact Hover.
Qed.

Lemma tilt_loop_turns_witness :
  let s' := snd (readDir (f32_of_Z 50) (f32_of_Z 60) RIGHT imu0) in
  s' = mkIMU (ax0 imu0) (ay0 imu0)
             (smooth (fx imu0) (delta (f32_of_Z 50) (ax0 imu0)))
             (smooth (fy imu0) (delta (f32_of_Z 60) (ay0 imu0))) /\
  (false = false ->
   opposite (dir gameStart) (dir gameStart) = false /\
   (gameOverFlag gameStart = true -> gameOverFlag gameStart = true)) /\
  (false = true -> dir gameStart <> LEFT /\ gameOverFlag gameStart = false).
Proof.
  intros s'.
  apply (tilt_loop_turns false (f32_of_Z 50) (f32_of_Z 60) 0 100 gameStart imu0
           (mkHw [] []) gameStart s'
           (mkHw [] [DrawFrame (apple gameStart) (body gameStart)])).
  - exact gameStart_reachable.
  - vm_compute. reflexivity.
Defined.

(** ** Whole runs *)

Lemma loopJoystick_reachable rawX rawY btnLow t1 t2 g h g' h' :
  reachable g -> loopJoystick rawX rawY btnLow t1 t2 g h = Some (g', h') ->
  reachable g'.
Proof.
  intros Hg Hl. unfold loopJoystick in Hl.
  destruct (read rawX rawY btnLow (getDir g) (getDir g)) as [clicked pending].
  apply bind_Some in Hl. destruct Hl as [g1 [h1 [Hr Hu]]].
  apply (reach_update t2 h1 g1 g' h'); [|exact Hu].
  destruct clicked.
  - apply (reach_reset t1 h (setPending pending g) g1 h1); [|exact Hr].
    apply reach_setPending. exact Hg.
  - injection Hr as <- _. apply reach_setPending. exact Hg.
Qed.

Lemma loopTilt_reachable btnLow accX accY t1 t2 g s h g' s' h' :
  reachable g ->
  loopTilt btnLow accX accY t1 t2 (g, s) h = Some ((g', s'), h') ->
  reachable g' /\ ax0 s' = ax0 s /\ ay0 s' = ay0 s.
Proof.
  intros Hg Hl. unfold loopTilt in Hl.
  apply bind_Some in Hl. destruct Hl as [g1 [h1 [Hr Hl]]].
  cbn [readDir] in Hl.
  apply bind_Some in Hl. destruct Hl as [g2 [h2 [Hu Hd]]].
  injection Hd as <- <- <-. split; [|split; reflexivity].
  eapply reach_update; [|exact Hu].
  apply reach_setPending. destruct btnLow.
  - apply (reach_reset t1 h g g1 h1 Hg Hr).
  - injection Hr as <- _. exact Hg.
Qed.

Lemma runJoystick_reachable turns : forall g h g' h',
  reachable g -> runJoystick turns g h = Some (g', h') -> reachable g'.
Proof.
  induction turns as [|[[[[rawX rawY] btnLow] t1] t2] rest IH]; intros g h g' h' Hg Hr.
  - injection Hr as <- _. exact Hg.
  - cbn [runJoystick] in Hr. apply bind_Some in Hr. destruct Hr as [g1 [h1 [Hl Hr]]].
    apply (IH g1 h1 g' h'); [|exact Hr].
    apply (loopJoystick_reachable _ _ _ _ _ _ _ _ _ Hg Hl).
Qed.

Lemma runTilt_reachable turns : forall g s h g' s' h',
  reachable g -> runTilt turns (g, s) h = Some ((g', s'), h') ->
  reachable g' /\ ax0 s' = ax0 s /\ ay0 s' = ay0 s.
Proof.
  induction turns as [|[[[[btnLow accX] accY] t1] t2] rest IH];
    intros g s h g' s' h' Hg Hr.
  - injection Hr as <- <- _. auto.
  - cbn [runTilt] in Hr. apply bind_Some in Hr. destruct Hr as [[g1 s1] [h1 [Hl Hr]]].
    destruct (loopTilt_reachable _ _ _ _ _ _ _ _ _ _ _ Hg Hl) as [Hg1 [Hx Hy]].
    destruct (IH g1 s1 h1 g' s' h' Hg1 Hr) as [Hg' [Hx' Hy']].
    split; [exact Hg'|]. split; congruence.
Qed.

(** X20. Whatever the joystick sketch reads, the game state after
    [setup()] and any number of calls of [loop()] is a reachable one, so
    the invariants of the reachable states hold between two calls: the
    snake is on the grid without overlap, the apple is on a free cell, and
    the length is between 3 and 63. *)
Theorem joystick_sketch_stays_reachable t0 turns h g h' :
  (g0 <~ setupJoystick t0 ;; runJoystick turns g0) h = Some (g, h') ->
  reachable g /\ wf g /\ appleFree g /\ 3 <= len g <= 63.
Proof.
  intros Hr. apply bind_Some in Hr. destruct Hr as [g0 [h0 [Hs Hr]]].
  assert (Hg : reachable g).
  { apply (runJoystick_reachable turns g0 h0 g h'); [|exact Hr].
    apply (reach_begin t0 h g0 h0). exact Hs. }
  split; [exact Hg|]. split; [apply reachable_wf; exact Hg|].
  split; [apply reachable_appleFree; exact Hg|apply reachable_len_bounds; exact Hg].
Qed.

Lemma joystick_sketch_stays_reachable_witness :
  let g := moved (set_lastStep (millis 300) (setPending UP gameStart)) in
  reachable g /\ wf g /\ appleFree g /\ 3 <= len g <= 63.
Proof.
  intros g.
  apply (joystick_sketch_stays_reachable 0 [(512, 0, false, 0, 300)] (mkHw [4; 4] []) g
           (mkHw [] [DrawFrame (apple gameStart) (body gameStart);
                     DrawFrame (apple g) (body g)])).
  reflexivity.
Defined.

(** X21. Whatever the tilt sketch reads, with or without a sensor, the
    game state after [setup()] and any number of calls of [loop()] is a
    reachable one, with the same invariants, and the offsets of the driver
    are still those that [setup()] left: only [calibrateZero] writes
    them. *)
Theorem tilt_sketch_stays_reachable ok cal t0 turns h g s h' :
  (gs <~ setupTilt ok cal t0 ;; runTilt turns gs) h = Some ((g, s), h') ->
  (reachable g /\ wf g /\ appleFree g /\ 3 <= len g <= 63) /\
  ax0 s = ax0 (snd (beginIMU ok cal imu0)) /\
  ay0 s = ay0 (snd (beginIMU ok cal imu0)).
Proof.
  intros Hr. apply bind_Some in Hr. destruct Hr as [[g0 s0] [h0 [Hs Hr]]].
  unfold setupTilt in Hs.
  destruct (beginIMU ok cal imu0) as [started s1] eqn:Hb. cbn [snd].
  apply bind_Some in Hs. destruct Hs as [u [h1 [_ Hs]]].
  apply bind_Some in Hs. destruct Hs as [g1 [h2 [Hreset Hd]]].
  injection Hd as <- <- <-.
  destruct (runTilt_reachable turns g1 s1 h2 g s h') as [Hg [Hx Hy]];
    [apply (reach_begin t0 h1 g1 h2); exact Hreset|exact Hr|].
  split; [|split; assumption].
  split; [exact Hg|]. split; [apply reachable_wf; exact Hg|].
  split; [apply reachable_appleFree; exact Hg|apply reachable_len_bounds; exact Hg].
Qed.

Lemma tilt_sketch_stays_reachable_witness :
  let s := snd (readDir (f32_of_Z 50) (f32_of_Z 60) RIGHT imu0) in
  (reachable gameStart /\ wf gameStart /\ appleFree gameStart /\
   3 <= len gameStart <= 63) /\
  ax0 s = ax0 (snd (beginIMU false [] imu0)) /\
  ay0 s = ay0 (snd (beginIMU false [] imu0)).
Proof.
  intros s.
  eapply (tilt_sketch_stays_reachable false [] 0
            [(false, f32_of_Z 50, f32_of_Z 60, 0, 100)] (mkHw [4; 4] []) gameStart s _).
  vm_compute. reflexivity.
Defined.
